(** * sora2api: admission, rotation, dispatch, artifact cache and the
      per-request handler, embedded from the TypeScript services.

    The services are classes with private mutable fields whose methods are
    [async].  Each class becomes a record of its fields, and each method a
    computation in the effect monad [Eff] below, which threads

    - the object's state (kept on both normal and exceptional exit, as a
      JavaScript object keeps the mutations made before a [throw]),
    - how the call completes (resolved with a value, rejected with an
      error message, or, for a generator body, closed by the consumer's
      [return()]),
    - the lines written to the console.

    JavaScript numbers are modelled as unbounded integers ([Z], or [nat]
    for array indices and lengths); one method call runs to completion
    before the next starts (no interleaving at [await] points), and the
    clock behind [Date.now()] moves only where the model says so (between
    two cache calls, and while an upstream call is awaited). *)

From stdpp Require Import base option list strings gmap fin_maps pretty.
From Stdlib Require Import ZArith Lia Ascii.

Open Scope Z_scope.

(** ** The effect monad *)

Inductive outcome (A : Type) : Type :=
| Resolved (a : A)
| Rejected (err : string)
| Closed.
Arguments Resolved {A} a.
Arguments Rejected {A} err.
Arguments Closed {A}.

Record run (S A : Type) : Type := Run {
  result : outcome A;
  final : S;
  console : list string
}.
Arguments Run {S A} result final console.
Arguments result {S A} r.
Arguments final {S A} r.
Arguments console {S A} r.

Definition Eff (S A : Type) : Type := S -> run S A.

Definition ret {S A} (a : A) : Eff S A :=
  fun s => Run (Resolved a) s [].

Definition bind {S A B} (m : Eff S A) (k : A -> Eff S B) : Eff S B :=
  fun s =>
    match m s with
    | Run (Resolved a) s' out =>
        match k a s' with
        | Run res s'' out' => Run res s'' (out ++ out')
        end
    | Run (Rejected e) s' out => Run (Rejected e) s' out
    | Run Closed s' out => Run Closed s' out
    end.

Definition gets {S A} (f : S -> A) : Eff S A :=
  fun s => Run (Resolved (f s)) s [].

Definition modify {S} (f : S -> S) : Eff S unit :=
  fun s => Run (Resolved tt) (f s) [].

Definition throw {S A} (err : string) : Eff S A :=
  fun s => Run (Rejected err) s [].

Definition console_log {S} (line : string) : Eff S unit :=
  fun s => Run (Resolved tt) s [line].

(** [try { m } catch (e) { h e }] *)
Definition try_catch {S A} (m : Eff S A) (h : string -> Eff S A) : Eff S A :=
  fun s =>
    match m s with
    | Run (Rejected e) s' out =>
        match h e s' with
        | Run res s'' out' => Run res s'' (out ++ out')
        end
    | r => r
    end.

(** [try { m } finally { f }]: [f] runs however [m] completes; the
    completion of [m] stands unless [f] itself completes abruptly. *)
Definition try_finally {S A} (m : Eff S A) (f : Eff S unit) : Eff S A :=
  fun s =>
    match m s with
    | Run res s' out =>
        match f s' with
        | Run (Resolved _) s'' out' => Run res s'' (out ++ out')
        | Run (Rejected e) s'' out' => Run (Rejected e) s'' (out ++ out')
        | Run Closed s'' out' => Run Closed s'' (out ++ out')
        end
    end.

(** A method of a field object, run on the enclosing object. *)
Definition zoom {S T A} (proj : S -> T) (upd : T -> S -> S)
    (m : Eff T A) : Eff S A :=
  fun s =>
    match m (proj s) with
    | Run res t out => Run res (upd t s) out
    end.

Notation "'let!' x ':=' m 'in' k" := (bind m (fun x => k))
  (at level 10, x name, m at level 100, k at level 200).
Notation "'do!' m 'in' k" := (bind m (fun _ => k))
  (at level 10, m at level 100, k at level 200).

(** The state a computation leaves behind and the value it resolves to. *)
Definition exec {S A} (m : Eff S A) (s : S) : S := final (m s).
Definition value {S A} (m : Eff S A) (s : S) : option A :=
  match result (m s) with
  | Resolved a => Some a
  | _ => None
  end.

(** ** core/database.ts: Token *)

Record Token : Type := {
  id : Z;
  name : string;
  token : string;
  enabled : bool;
  createdAt : string;
  updatedAt : string
}.

(** ** services/concurrency_manager.ts *)

Record TokenUsage : Type := { current : Z; max : Z }.

Record ConcurrencyManager : Type := {
  tokenUsage : gmap string TokenUsage;
  maxConcurrentPerToken : Z
}.

Module CM.

(** [new ConcurrencyManager()] *)
Definition new : ConcurrencyManager :=
  {| tokenUsage := ∅; maxConcurrentPerToken := 3 |}.

Definition set_usage (m : gmap string TokenUsage)
    (cm : ConcurrencyManager) : ConcurrencyManager :=
  {| tokenUsage := m; maxConcurrentPerToken := maxConcurrentPerToken cm |}.

(** The body of the [for (const token of tokens)] loop of [initialize]. *)
Definition initialize_entry (maxc : Z) (m : gmap string TokenUsage)
    (t : Token) : gmap string TokenUsage :=
  <[token t := {| current := 0; max := maxc |}]> m.

Definition initialize (tokens : list Token) : Eff ConcurrencyManager unit :=
  do! modify (set_usage ∅) in
  modify (fun cm =>
    set_usage (foldl (initialize_entry (maxConcurrentPerToken cm))
                     (tokenUsage cm) tokens) cm).

Definition canUseToken (tok : string) : Eff ConcurrencyManager bool :=
  let! usage := gets (fun cm => tokenUsage cm !! tok) in
  ret match usage with
      | Some u => bool_decide (current u < max u)
      | None => false
      end.

Definition incrementUsage (tok : string) : Eff ConcurrencyManager unit :=
  let! usage := gets (fun cm => tokenUsage cm !! tok) in
  match usage with
  | Some u =>
      modify (fun cm =>
        set_usage (<[tok := {| current := current u + 1; max := max u |}]>
                     (tokenUsage cm)) cm)
  | None => ret tt
  end.

Definition decrementUsage (tok : string) : Eff ConcurrencyManager unit :=
  let! usage := gets (fun cm => tokenUsage cm !! tok) in
  match usage with
  | Some u =>
      if bool_decide (current u > 0) then
        modify (fun cm =>
          set_usage (<[tok := {| current := current u - 1; max := max u |}]>
                       (tokenUsage cm)) cm)
      else ret tt
  | None => ret tt
  end.

Definition getAvailableTokensCount : Eff ConcurrencyManager nat :=
  gets (fun cm =>
    length (filter (fun kv : string * TokenUsage =>
                      current kv.2 < max kv.2)
                   (map_to_list (tokenUsage cm)))).

Definition setMaxConcurrentPerToken (maxc : Z) : Eff ConcurrencyManager unit :=
  do! modify (fun cm =>
        {| tokenUsage := tokenUsage cm; maxConcurrentPerToken := maxc |}) in
  modify (fun cm =>
    set_usage ((fun u => {| current := current u; max := maxc |})
                 <$> tokenUsage cm) cm).

Definition getTokenUsage (tok : string)
    : Eff ConcurrencyManager (option TokenUsage) :=
  gets (fun cm => tokenUsage cm !! tok).

End CM.

(** ** services/token_manager.ts *)

Record TokenManager : Type := {
  tokens : list Token;
  tokenIndex : nat
}.

Module TM.

(** [new TokenManager(db)] *)
Definition new : TokenManager := {| tokens := []; tokenIndex := 0 |}.

(** [loadTokens], given what [db.getAllTokens()] resolves to. *)
Definition loadTokens (fromDb : list Token) : Eff TokenManager unit :=
  modify (fun tm => {| tokens := fromDb; tokenIndex := tokenIndex tm |}).

Definition getTokens : Eff TokenManager (list Token) := gets tokens.

Definition enabledTokens (tm : TokenManager) : list Token :=
  filter (fun t => enabled t = true) (tokens tm).

Definition getNextToken : Eff TokenManager (option Token) :=
  let! enabledTokens := gets enabledTokens in
  if bool_decide (length enabledTokens = 0%nat) then ret None
  else
    let! idx := gets tokenIndex in
    let tok := enabledTokens !! (idx mod length enabledTokens)%nat in
    do! modify (fun tm =>
          {| tokens := tokens tm;
             tokenIndex := ((tokenIndex tm + 1) mod length enabledTokens)%nat |}) in
    ret tok.

Definition getTokensCount : Eff TokenManager nat :=
  gets (fun tm => length (enabledTokens tm)).

End TM.

(** ** services/load_balancer.ts *)

Record LoadBalancer : Type := {
  tokenManager : TokenManager;
  concurrencyManager : ConcurrencyManager
}.

Module LB.

Definition onTM {A} : Eff TokenManager A -> Eff LoadBalancer A :=
  zoom tokenManager
       (fun tm lb => {| tokenManager := tm;
                        concurrencyManager := concurrencyManager lb |}).

Definition onCM {A} : Eff ConcurrencyManager A -> Eff LoadBalancer A :=
  zoom concurrencyManager
       (fun cm lb => {| tokenManager := tokenManager lb;
                        concurrencyManager := cm |}).

(** The [for (let i = 0; i < tokens.length; i++)] loop of [getToken],
    with [n] iterations left. *)
Fixpoint getToken_loop (n : nat) : Eff LoadBalancer (option string) :=
  match n with
  | O => ret None
  | S n' =>
      let! tok := onTM TM.getNextToken in
      match tok with
      | None => ret None
      | Some t =>
          let! ok := onCM (CM.canUseToken (token t)) in
          if ok then
            do! onCM (CM.incrementUsage (token t)) in
            ret (Some (token t))
          else getToken_loop n'
      end
  end.

Definition getToken : Eff LoadBalancer (option string) :=
  let! tokens := onTM TM.getTokens in
  getToken_loop (length tokens).

Definition releaseToken (tok : string) : Eff LoadBalancer unit :=
  onCM (CM.decrementUsage tok).

Definition getTokensCount : Eff LoadBalancer nat := onTM TM.getTokensCount.

Definition getAvailableTokensCount : Eff LoadBalancer nat :=
  onCM CM.getAvailableTokensCount.

End LB.

(** ** services/file_cache.ts *)

Record CacheEntry : Type := {
  path : string;
  url : string;
  timestamp : Z;
  accessCount : Z
}.

(** The fields of [FileCache] that [get], [set], [cleanup] and
    [getCacheStats] read or write. *)
Record FileCache : Type := {
  cacheMap : gmap string CacheEntry;
  isDenoDeploy : bool
}.

(** The part of the [config] singleton the cache reads. *)
Record Config : Type := {
  cacheEnabled : bool;
  cacheTimeout : Z
}.

(** The Deno runtime as the cache sees it: the clock behind [Date.now()],
    the working directory, the files on disk and whether the [cache]
    directory exists. *)
Record Host : Type := {
  now : Z;
  cwd : string;
  files : gmap string (list Z);
  cacheDir : bool
}.

Record CacheWorld : Type := {
  fileCache : FileCache;
  config : Config;
  host : Host
}.

Record CacheStats : Type := {
  stats_enabled : bool;
  stats_entries : nat;
  stats_size : Z;
  stats_timeout : Z
}.

Module FC.

(** [new FileCache()], given whether [DENO_DEPLOYMENT_ID] is set. *)
Definition new (deploy : bool) : FileCache :=
  {| cacheMap := ∅; isDenoDeploy := deploy |}.

Definition set_cacheMap (m : gmap string CacheEntry) (w : CacheWorld)
    : CacheWorld :=
  {| fileCache := {| cacheMap := m;
                     isDenoDeploy := isDenoDeploy (fileCache w) |};
     config := config w; host := host w |}.

Definition set_files (fs : gmap string (list Z)) (w : CacheWorld)
    : CacheWorld :=
  {| fileCache := fileCache w; config := config w;
     host := {| now := now (host w); cwd := cwd (host w); files := fs;
                cacheDir := cacheDir (host w) |} |}.

(** Time passing between two calls. *)
Definition elapse (ms : Z) : Eff CacheWorld unit :=
  modify (fun w =>
    {| fileCache := fileCache w; config := config w;
       host := {| now := now (host w) + ms; cwd := cwd (host w);
                  files := files (host w);
                  cacheDir := cacheDir (host w) |} |}).

Definition Date_now : Eff CacheWorld Z := gets (fun w => now (host w)).

Definition Deno_stat (p : string) : Eff CacheWorld unit :=
  let! f := gets (fun w => files (host w) !! p) in
  match f with
  | Some _ => ret tt
  | None => throw "NotFound"
  end.

Definition Deno_remove (p : string) : Eff CacheWorld unit :=
  let! f := gets (fun w => files (host w) !! p) in
  match f with
  | Some _ => modify (fun w => set_files (delete p (files (host w))) w)
  | None => throw "NotFound"
  end.

Definition Deno_writeFile (p : string) (data : list Z)
    : Eff CacheWorld unit :=
  let! dir := gets (fun w => cacheDir (host w)) in
  if dir then modify (fun w => set_files (<[p := data]> (files (host w))) w)
  else throw "NotFound".

Definition cacheMap_delete (key : string) : Eff CacheWorld unit :=
  modify (fun w => set_cacheMap (delete key (cacheMap (fileCache w))) w).

Definition cacheMap_set (key : string) (e : CacheEntry)
    : Eff CacheWorld unit :=
  modify (fun w => set_cacheMap (<[key := e]> (cacheMap (fileCache w))) w).

Definition disabled : Eff CacheWorld bool :=
  gets (fun w => negb (cacheEnabled (config w))
                 || isDenoDeploy (fileCache w)).

Definition get (key : string) : Eff CacheWorld (option string) :=
  let! off := disabled in
  if off then ret None
  else
    let! entry := gets (fun w => cacheMap (fileCache w) !! key) in
    match entry with
    | None => ret None
    | Some entry =>
        let! now := Date_now in
        let! timeoutMs := gets (fun w => cacheTimeout (config w) * 1000) in
        if bool_decide (now - timestamp entry > timeoutMs) then
          do! cacheMap_delete key in
          do! try_catch (Deno_remove (path entry)) (fun _ => ret tt) in
          ret None
        else
          let entry :=
            {| path := path entry; url := url entry;
               timestamp := timestamp entry;
               accessCount := accessCount entry + 1 |} in
          do! cacheMap_set key entry in
          try_catch
            (do! Deno_stat (path entry) in ret (Some (path entry)))
            (fun _ => do! cacheMap_delete key in ret None)
    end.

(** [c.replace(/[^a-zA-Z0-9]/g, "_")] on one character. *)
Definition sanitize_char (c : ascii) : ascii :=
  let n := nat_of_ascii c in
  if bool_decide ((48 <= n <= 57) \/ (65 <= n <= 90) \/ (97 <= n <= 122))%nat
  then c else "_"%char.

Fixpoint sanitize (s : string) : string :=
  match s with
  | EmptyString => EmptyString
  | String c s' => String (sanitize_char c) (sanitize s')
  end.

(** [join(Deno.cwd(), "cache", filename)] *)
Definition cache_path (dir filename : string) : string :=
  dir +:+ "/cache/" +:+ filename.

Definition set (key url : string) (data : list Z)
    : Eff CacheWorld string :=
  let! off := disabled in
  if off then ret ""%string
  else
    let! t := Date_now in
    let filename := sanitize key +:+ "_" +:+ pretty t in
    let! dir := gets (fun w => cwd (host w)) in
    let path := cache_path dir filename in
    do! Deno_writeFile path data in
    let! t' := Date_now in
    do! cacheMap_set key
          {| path := path; url := url; timestamp := t'; accessCount := 1 |} in
    ret path.

(** The first loop of [cleanup]: collect the expired keys, removing each
    one's file as it is found. *)
Fixpoint cleanup_scan (now timeoutMs : Z)
    (entries : list (string * CacheEntry)) : Eff CacheWorld (list string) :=
  match entries with
  | [] => ret []
  | (key, entry) :: rest =>
      if bool_decide (now - timestamp entry > timeoutMs) then
        do! try_catch (Deno_remove (path entry)) (fun _ => ret tt) in
        let! keys := cleanup_scan now timeoutMs rest in
        ret (key :: keys)
      else cleanup_scan now timeoutMs rest
  end.

Fixpoint cleanup_delete (keys : list string) : Eff CacheWorld unit :=
  match keys with
  | [] => ret tt
  | key :: rest => do! cacheMap_delete key in cleanup_delete rest
  end.

Definition cleanup : Eff CacheWorld unit :=
  let! off := disabled in
  if off then ret tt
  else
    let! now := Date_now in
    let! timeoutMs := gets (fun w => cacheTimeout (config w) * 1000) in
    let! entries := gets (fun w => map_to_list (cacheMap (fileCache w))) in
    let! keysToDelete := cleanup_scan now timeoutMs entries in
    do! cleanup_delete keysToDelete in
    console_log ("Cache cleanup completed. Removed "
                 +:+ pretty (length keysToDelete) +:+ " expired entries.").

Definition getCacheStats : Eff CacheWorld CacheStats :=
  gets (fun w =>
    {| stats_enabled := cacheEnabled (config w);
       stats_entries := size (cacheMap (fileCache w));
       stats_size := 0;
       stats_timeout := cacheTimeout (config w) |}).

End FC.

(** ** core/models.ts: the chat-completion request and response chunk *)

Record Part : Type := {
  part_type : string;
  text : option string;
  image_url : option string;
  video_url : option string
}.

(** [content: string | Array<...>]; [ContentOther] is any other JSON value. *)
Inductive Content : Type :=
| ContentString (s : string)
| ContentParts (parts : list Part)
| ContentOther.

Record ChatMessage : Type := { role : string; content : Content }.

Record ChatCompletionRequest : Type := {
  model : string;
  messages : list ChatMessage;
  stream : option bool
}.

(** One chunk: [choices] always holds the single choice with index 0. *)
Record ChatCompletionResponse : Type := {
  chunk_id : string;
  object : string;
  created : Z;
  chunk_model : string;
  delta_role : option string;
  delta_content : string;
  finish_reason : option string
}.

(** ** core/database.ts: Task, RequestLog and the Database port *)

Record Task : Type := {
  task_type : option string;
  task_status : string;
  task_requestId : string;
  task_model : string;
  task_prompt : string;
  task_imageData : option string;
  task_resultUrl : option string;
  task_error : option string;
  task_tokenUsed : option string;
  task_processingTime : option Z
}.

Record RequestLog : Type := {
  log_timestamp : Z;
  log_requestId : string;
  log_model : string;
  log_status : string;
  log_tokenUsed : option string;
  log_processingTime : Z;
  log_requestSize : Z;
  log_responseSize : Z;
  log_error : option string
}.

(** The source's [Database] only prints what it is handed ("in a real
    implementation, this would insert into the database"); the model keeps
    the rows as well, so that what was handed over can be inspected. *)
Record Database : Type := {
  tasks : gmap string Task;
  logs : list RequestLog
}.

Module DB.

Definition new : Database := {| tasks := ∅; logs := [] |}.

(** [addTask], given the identifier [crypto.randomUUID()] produces. *)
Definition addTask (uuid : string) (task : Task) : Eff Database string :=
  do! modify (fun d =>
        {| tasks := <[uuid := task]> (tasks d); logs := logs d |}) in
  do! console_log ("Added task " +:+ uuid +:+ " with model "
                   +:+ task_model task) in
  ret uuid.

Definition updateTaskStatus (taskId status : string)
    (resultUrl : option string) : Eff Database unit :=
  do! modify (fun d =>
        {| tasks :=
             alter (fun t =>
               {| task_type := task_type t; task_status := status;
                  task_requestId := task_requestId t;
                  task_model := task_model t; task_prompt := task_prompt t;
                  task_imageData := task_imageData t;
                  task_resultUrl := resultUrl; task_error := task_error t;
                  task_tokenUsed := task_tokenUsed t;
                  task_processingTime := task_processingTime t |})
               taskId (tasks d);
           logs := logs d |}) in
  console_log ("Updated task " +:+ taskId +:+ " to status " +:+ status).

Definition addLog (log : RequestLog) : Eff Database unit :=
  do! modify (fun d => {| tasks := tasks d; logs := logs d ++ [log] |}) in
  console_log ("Added log for request " +:+ log_requestId log
               +:+ " with status " +:+ log_status log).

End DB.

(** ** services/generation_handler.ts *)

Inductive Modality : Type := image | video.
Inductive Orientation : Type := landscape | portrait.

(** What [MODEL_CONFIG[key]] can evaluate to.  The entries of the
    catalogue have a [type]; the members every object inherits (see
    [Object_prototype] below) have none of the five fields. *)
Record ModelConfig : Type := {
  type : option Modality;
  width : option Z;
  height : option Z;
  orientation : option Orientation;
  nFrames : option Z
}.

Definition image_config (w h : Z) : ModelConfig :=
  {| type := Some image; width := Some w; height := Some h;
     orientation := None; nFrames := None |}.

Definition video_config (o : Orientation) (n : Z) : ModelConfig :=
  {| type := Some video; width := None; height := None;
     orientation := Some o; nFrames := Some n |}.

(** The own properties of the object literal. *)
Definition MODEL_CONFIG : gmap string ModelConfig :=
  list_to_map
    [ ("sora-image"%string, image_config 360 360);
      ("sora-image-landscape"%string, image_config 540 360);
      ("sora-image-portrait"%string, image_config 360 540);
      ("sora-video-10s"%string, video_config landscape 300);
      ("sora-video-15s"%string, video_config landscape 450);
      ("sora-video-landscape-10s"%string, video_config landscape 300);
      ("sora-video-landscape-15s"%string, video_config landscape 450);
      ("sora-video-portrait-10s"%string, video_config portrait 300);
      ("sora-video-portrait-15s"%string, video_config portrait 450) ].

(** [MODEL_CONFIG] is a plain object literal, so a property read also
    finds what the object inherits from [Object.prototype]: its methods,
    and under [__proto__] the prototype itself. *)
Definition Object_prototype : list string :=
  [ "constructor"; "__defineGetter__"; "__defineSetter__"; "hasOwnProperty";
    "__lookupGetter__"; "__lookupSetter__"; "isPrototypeOf";
    "propertyIsEnumerable"; "toString"; "valueOf"; "__proto__";
    "toLocaleString" ]%string.

(** An inherited member, read as a [ModelConfig]: a function or object,
    hence truthy, on which [type], [width], [height], [orientation] and
    [nFrames] are all [undefined]. *)
Definition inherited_member : ModelConfig :=
  {| type := None; width := None; height := None;
     orientation := None; nFrames := None |}.

(** [MODEL_CONFIG[key]]: [None] is [undefined]. *)
Definition MODEL_CONFIG_get (key : string) : option ModelConfig :=
  match MODEL_CONFIG !! key with
  | Some cfg => Some cfg
  | None =>
      if bool_decide (key ∈ Object_prototype) then Some inherited_member
      else None
  end.

(** The four [soraClient] operations the handler chooses between. *)
Inductive UpstreamCall : Type :=
| generateImageFromImage (prompt imageData tok : string) (w h : option Z)
| generateImage (prompt tok : string) (w h : option Z)
| generateVideoFromImage (prompt imageData tok : string) (cfg : ModelConfig)
| generateVideo (prompt tok : string) (cfg : ModelConfig).

(** What the surroundings of one request supply: the identifier
    [crypto.randomUUID()] returns, how the upstream call settles ([inr] the
    artifact URL, [inl] the error message) and how long it takes, and the
    length of [JSON.stringify(request)]. *)
Record RequestEnv : Type := {
  uuid : string;
  soraClient : UpstreamCall -> string + string;
  latency : Z;
  stringified_length : Z
}.

(** What the consumer of the generator does when handed a chunk:
    [next()], [throw(e)] or [return()]. *)
Inductive reaction : Type :=
| Next
| Throw (err : string)
| Return.

Record GenerationHandler : Type := {
  loadBalancer : LoadBalancer;
  db : Database;
  clock : Z
}.

(** One activation of [handleChatCompletion]: the handler object, the
    [let] variables of the body, the chunks yielded so far, the consumer's
    pending reactions, and the arguments of the [releaseToken] calls made. *)
Record Activation : Type := {
  self : GenerationHandler;
  tokenUsed : option string;
  resultUrl : option string;
  error : option string;
  processingTime : option Z;
  yielded : list ChatCompletionResponse;
  consumer : list reaction;
  released : list string
}.

Record Parsed : Type := {
  prompt : string;
  imageData : option string;
  videoData : option string
}.

Module GH.

(** JavaScript truthiness of a [string | null] value. *)
Definition truthy (v : option string) : bool :=
  match v with
  | Some s => negb (String.eqb s "")
  | None => false
  end.

(** The activation at entry: all four [let] variables are [null]. *)
Definition enter (h : GenerationHandler) (rs : list reaction) : Activation :=
  {| self := h; tokenUsed := None; resultUrl := None; error := None;
     processingTime := None; yielded := []; consumer := rs;
     released := [] |}.

Definition set_self (h : GenerationHandler) (a : Activation) : Activation :=
  {| self := h; tokenUsed := tokenUsed a; resultUrl := resultUrl a;
     error := error a; processingTime := processingTime a;
     yielded := yielded a; consumer := consumer a;
     released := released a |}.

Definition set_tokenUsed (v : option string) : Eff Activation unit :=
  modify (fun a =>
    {| self := self a; tokenUsed := v; resultUrl := resultUrl a;
       error := error a; processingTime := processingTime a;
       yielded := yielded a; consumer := consumer a;
       released := released a |}).

Definition set_resultUrl (v : option string) : Eff Activation unit :=
  modify (fun a =>
    {| self := self a; tokenUsed := tokenUsed a; resultUrl := v;
       error := error a; processingTime := processingTime a;
       yielded := yielded a; consumer := consumer a;
       released := released a |}).

Definition set_error (v : option string) : Eff Activation unit :=
  modify (fun a =>
    {| self := self a; tokenUsed := tokenUsed a; resultUrl := resultUrl a;
       error := v; processingTime := processingTime a;
       yielded := yielded a; consumer := consumer a;
       released := released a |}).

Definition set_processingTime (v : option Z) : Eff Activation unit :=
  modify (fun a =>
    {| self := self a; tokenUsed := tokenUsed a; resultUrl := resultUrl a;
       error := error a; processingTime := v;
       yielded := yielded a; consumer := consumer a;
       released := released a |}).

Definition onLB {A} : Eff LoadBalancer A -> Eff Activation A :=
  zoom (fun a => loadBalancer (self a))
       (fun lb a =>
          set_self {| loadBalancer := lb; db := db (self a);
                      clock := clock (self a) |} a).

Definition onDB {A} : Eff Database A -> Eff Activation A :=
  zoom (fun a => db (self a))
       (fun d a =>
          set_self {| loadBalancer := loadBalancer (self a); db := d;
                      clock := clock (self a) |} a).

Definition Date_now : Eff Activation Z := gets (fun a => clock (self a)).

(** [await this.loadBalancer.releaseToken(tok)], noting the call. *)
Definition releaseToken (tok : string) : Eff Activation unit :=
  do! onLB (LB.releaseToken tok) in
  modify (fun a =>
    {| self := self a; tokenUsed := tokenUsed a; resultUrl := resultUrl a;
       error := error a; processingTime := processingTime a;
       yielded := yielded a; consumer := consumer a;
       released := released a ++ [tok] |}).

(** [yield chunk]: the chunk goes out, and the body continues as the
    consumer's reaction says. *)
Definition yield_ (chunk : ChatCompletionResponse) : Eff Activation unit :=
  let! reactions := gets consumer in
  do! modify (fun a =>
        {| self := self a; tokenUsed := tokenUsed a;
           resultUrl := resultUrl a; error := error a;
           processingTime := processingTime a;
           yielded := yielded a ++ [chunk]; consumer := tail (consumer a);
           released := released a |}) in
  match reactions with
  | Throw e :: _ => throw e
  | Return :: _ => fun a => Run Closed a []
  | _ => ret tt
  end.

(** [await] of an upstream operation: time passes, then it settles. *)
Definition await_upstream (env : RequestEnv) (call : UpstreamCall)
    : Eff Activation string :=
  do! modify (fun a =>
        set_self {| loadBalancer := loadBalancer (self a);
                    db := db (self a);
                    clock := clock (self a) + latency env |} a) in
  match soraClient env call with
  | inr url => ret url
  | inl e => throw e
  end.

(** The loop body of [parseRequest] over the content parts. *)
Definition parse_part (acc : Parsed) (part : Part) : Parsed :=
  if String.eqb (part_type part) "text" then
    {| prompt := prompt acc +:+ default ""%string (text part);
       imageData := imageData acc; videoData := videoData acc |}
  else if String.eqb (part_type part) "image_url"
          && truthy (image_url part) then
    {| prompt := prompt acc; imageData := image_url part;
       videoData := videoData acc |}
  else if String.eqb (part_type part) "video_url"
          && truthy (video_url part) then
    {| prompt := prompt acc; imageData := imageData acc;
       videoData := video_url part |}
  else acc.

Definition parseRequest (request : ChatCompletionRequest)
    : Eff Activation Parsed :=
  match last (messages request) with
  | None =>
      throw "Cannot read properties of undefined (reading 'content')"
  | Some message =>
      let start :=
        {| prompt := ""; imageData := None; videoData := None |} in
      ret match content message with
          | ContentString s =>
              {| prompt := s; imageData := None; videoData := None |}
          | ContentParts parts => foldl parse_part start parts
          | ContentOther => start
          end
  end.

Definition chunk (i : string) (t : Z) (m : string) (r : option string)
    (c : string) (f : option string) : ChatCompletionResponse :=
  {| chunk_id := i; object := "chat.completion.chunk"; created := t;
     chunk_model := m; delta_role := r; delta_content := c;
     finish_reason := f |}.

(** The [try] block. *)
Definition attempt (env : RequestEnv) (request : ChatCompletionRequest)
    (requestId : string) : Eff Activation unit :=
  let! tok := onLB LB.getToken in
  do! set_tokenUsed tok in
  if negb (truthy tok) then throw "No available tokens"
  else
    let tok := default ""%string tok in
    let! parsed := parseRequest request in
    match MODEL_CONFIG_get (model request) with
    | None => throw ("Unknown model: " +:+ model request)
    | Some modelConfig =>
        let! taskId :=
          onDB (DB.addTask (uuid env)
                  {| task_type :=
                       match type modelConfig with
                       | Some image => Some "image"%string
                       | Some video => Some "video"%string
                       | None => None
                       end;
                     task_status := "pending";
                     task_requestId := requestId;
                     task_model := model request;
                     task_prompt := prompt parsed;
                     task_imageData := imageData parsed;
                     task_resultUrl := None; task_error := None;
                     task_tokenUsed := Some tok;
                     task_processingTime := None |}) in
        do! onDB (DB.updateTaskStatus taskId "processing" None) in
        let! t := Date_now in
        do! yield_ (chunk taskId t (model request) (Some "assistant"%string)
                      "Processing your request..." None) in
        let! generationResult :=
          await_upstream env
            match type modelConfig with
            | Some image =>
                if truthy (imageData parsed) then
                  generateImageFromImage (prompt parsed)
                    (default ""%string (imageData parsed)) tok
                    (width modelConfig) (height modelConfig)
                else
                  generateImage (prompt parsed) tok
                    (width modelConfig) (height modelConfig)
            | _ =>
                if truthy (imageData parsed) then
                  generateVideoFromImage (prompt parsed)
                    (default ""%string (imageData parsed)) tok modelConfig
                else generateVideo (prompt parsed) tok modelConfig
            end in
        do! set_resultUrl (Some generationResult) in
        do! onDB (DB.updateTaskStatus taskId "completed"
                    (Some generationResult)) in
        let! t := Date_now in
        yield_ (chunk taskId t (model request) None
                  ("✅ Generation complete! [View result]("
                   +:+ generationResult +:+ ")")
                  (Some "stop"%string))
    end.

(** The [catch (e)] block. *)
Definition recover (request : ChatCompletionRequest) (requestId : string)
    (e : string) : Eff Activation unit :=
  do! set_error (Some e) in
  let! t := Date_now in
  yield_ (chunk requestId t (model request) None ("❌ Error: " +:+ e)
            (Some "stop"%string)).

(** The [finally] block. *)
Definition finalize (env : RequestEnv) (request : ChatCompletionRequest)
    (requestId : string) (startTime : Z) : Eff Activation unit :=
  let! tok := gets tokenUsed in
  do! (if truthy tok then releaseToken (default ""%string tok)
       else ret tt) in
  let! t := Date_now in
  do! set_processingTime (Some (t - startTime)) in
  let! t' := Date_now in
  let! err := gets error in
  let! res := gets resultUrl in
  onDB (DB.addLog
          {| log_timestamp := t';
             log_requestId := requestId;
             log_model := model request;
             log_status := if truthy err then "failed" else "completed";
             log_tokenUsed := tok;
             log_processingTime := t - startTime;
             log_requestSize := stringified_length env;
             log_responseSize :=
               if truthy res
               then Z.of_nat (String.length (default ""%string res))
               else 0;
             log_error := err |}).

Definition handleChatCompletion (env : RequestEnv)
    (request : ChatCompletionRequest) (requestId : string)
    : Eff Activation unit :=
  let! startTime := Date_now in
  try_finally
    (try_catch (attempt env request requestId)
               (recover request requestId))
    (finalize env request requestId startTime).

End GH.

(** ** Vocabulary of the properties *)

(** *** Admission: sequences of operations and the budget predicate *)

Inductive cm_op : Type :=
| Initialize (tokens : list Token)
| CanUseToken (tok : string)
| IncrementUsage (tok : string)
| DecrementUsage (tok : string)
| GetAvailableTokensCount
| SetMaxConcurrentPerToken (maxc : Z).

Definition perform (op : cm_op) : Eff ConcurrencyManager unit :=
  match op with
  | Initialize tokens => CM.initialize tokens
  | CanUseToken tok => do! CM.canUseToken tok in ret tt
  | IncrementUsage tok => CM.incrementUsage tok
  | DecrementUsage tok => CM.decrementUsage tok
  | GetAvailableTokensCount => do! CM.getAvailableTokensCount in ret tt
  | SetMaxConcurrentPerToken maxc => CM.setMaxConcurrentPerToken maxc
  end.

Definition perform_all (ops : list cm_op) (cm : ConcurrencyManager)
    : ConcurrencyManager :=
  foldl (fun cm op => exec (perform op) cm) cm ops.

(** [0 <= inUse <= budget] for every tracked credential. *)
Definition within_budget (cm : ConcurrencyManager) : Prop :=
  map_Forall (fun _ u => 0 <= current u <= max u) (tokenUsage cm).

Definition never_negative (cm : ConcurrencyManager) : Prop :=
  map_Forall (fun _ u => 0 <= current u) (tokenUsage cm).

(** The discipline under which the callers use the controller: an
    increment only after [canUseToken] said yes for that token (as
    [LoadBalancer.getToken] does), and a new budget that is not negative
    and not below any counter. *)
Definition permitted (op : cm_op) (cm : ConcurrencyManager) : Prop :=
  match op with
  | IncrementUsage tok => value (CM.canUseToken tok) cm = Some true
  | SetMaxConcurrentPerToken maxc =>
      0 <= maxc /\
      map_Forall (fun _ u => current u <= maxc) (tokenUsage cm)
  | _ => True
  end.

Fixpoint disciplined (ops : list cm_op) (cm : ConcurrencyManager) : Prop :=
  match ops with
  | [] => True
  | op :: rest => permitted op cm /\ disciplined rest (exec (perform op) cm)
  end.

Definition is_initialize (op : cm_op) : bool :=
  match op with
  | Initialize _ => true
  | _ => false
  end.

(** The check-and-increment [LoadBalancer.getToken] performs on one
    candidate: [if (await canUseToken(t)) { await incrementUsage(t); ... }]. *)
Definition acquire (tok : string) : Eff ConcurrencyManager bool :=
  let! ok := CM.canUseToken tok in
  if ok then do! CM.incrementUsage tok in ret true
  else ret false.

(** What [canUseToken] answers, as a function of the state. *)
Definition can_use (tok : string) (cm : ConcurrencyManager) : bool :=
  match tokenUsage cm !! tok with
  | Some u => bool_decide (current u < max u)
  | None => false
  end.

(** [n] calls of [m] in a row, with what each resolved to. *)
Fixpoint times {S A} (n : nat) (m : Eff S A) : Eff S (list A) :=
  match n with
  | O => ret []
  | S n' =>
      let! a := m in
      let! rest := times n' m in
      ret (a :: rest)
  end.

(** Whether a call signalled anything: a rejection, or a console line. *)
Definition signalled {S A} (r : run S A) : Prop :=
  (exists e, result r = Rejected e) \/ console r <> [].

(** *** The handler's ledger *)

(** [m] never leaves a state unrelated by [R] to the one it started in,
    however it completes. *)
Definition preserves {S A} (R : S -> S -> Prop) (m : Eff S A) : Prop :=
  forall s, R s (final (m s)).

(** Two activations agree on what the finalizer accounts for: the log
    rows, the releases made, the credential held and the load balancer. *)
Definition same_ledger (a a' : Activation) : Prop :=
  logs (db (self a')) = logs (db (self a)) /\
  released a' = released a /\
  tokenUsed a' = tokenUsed a /\
  loadBalancer (self a') = loadBalancer (self a).

(** What [getToken] hands the handler, on a given load balancer. *)
Definition handed (lb : LoadBalancer) : option string :=
  default None (value LB.getToken lb).

Definition mkToken (i : Z) (secret : string) (en : bool) : Token :=
  {| id := i; name := ""; token := secret; enabled := en;
     createdAt := ""; updatedAt := "" |}.

Definition pool (toks : list Token) (idx : nat) (cm : ConcurrencyManager)
    : LoadBalancer :=
  {| tokenManager := {| tokens := toks; tokenIndex := idx |};
     concurrencyManager := cm |}.

(** *** Dispatch: sequences of load-balancer calls and free capacity *)

(** What the rest of the program does to a load balancer: ask for a token,
    give one back, or reload the pool behind it. *)
Inductive lb_op : Type :=
| GetToken
| ReleaseToken (tok : string)
| LoadTokens (fromDb : list Token).

Definition perform_lb (op : lb_op) : Eff LoadBalancer unit :=
  match op with
  | GetToken => do! LB.getToken in ret tt
  | ReleaseToken tok => LB.releaseToken tok
  | LoadTokens fromDb => LB.onTM (TM.loadTokens fromDb)
  end.

Definition perform_lb_all (ops : list lb_op) (lb : LoadBalancer)
    : LoadBalancer :=
  foldl (fun lb op => exec (perform_lb op) lb) lb ops.

(** The admissions a secret can still take: [max - current] when that is
    positive, none when the counter is at or above the budget ([Z.to_nat]
    of a negative number is zero) or the secret is untracked. *)
Definition free_slots (cm : ConcurrencyManager) (tok : string) : nat :=
  match tokenUsage cm !! tok with
  | Some u => Z.to_nat (max u - current u)
  | None => 0
  end.

(** The free slots of the enabled credentials, each secret counted once. *)
Definition capacity (lb : LoadBalancer) : nat :=
  sum_list_with (free_slots (concurrencyManager lb))
    (remove_dups (token <$> TM.enabledTokens (tokenManager lb))).

(** *** The cache: expiry and file names *)

(** The test both [get] and [cleanup] apply to an entry. *)
Definition expired (w : CacheWorld) (e : CacheEntry) : Prop :=
  now (host w) - timestamp e > cacheTimeout (config w) * 1000.

(** The characters [/[^a-zA-Z0-9]/] does not match. *)
Definition alnum (c : ascii) : bool :=
  let n := nat_of_ascii c in
  bool_decide ((48 <= n <= 57) \/ (65 <= n <= 90) \/ (97 <= n <= 122))%nat.

Fixpoint string_forall (P : ascii -> bool) (s : string) : bool :=
  match s with
  | EmptyString => true
  | String c s' => P c && string_forall P s'
  end.

(** Letters, digits and the underscore. *)
Definition filename_char (c : ascii) : bool :=
  alnum c || Ascii.eqb c "_".

#[global] Instance expired_dec (w : CacheWorld) (e : CacheEntry)
    : Decision (expired w e) :=
  decide (now (host w) - timestamp e > cacheTimeout (config w) * 1000).

(** *** Content parts, in closed form *)

Definition is_text (p : Part) : bool := String.eqb (part_type p) "text".

(** The texts of the [text] parts, joined in order; a part without a text
    counts as empty. *)
Fixpoint texts (parts : list Part) : string :=
  match parts with
  | [] => ""
  | p :: rest =>
      if is_text p then default ""%string (text p) +:+ texts rest
      else texts rest
  end.

(** The image reference a part contributes, if any. *)
Definition image_of (p : Part) : option string :=
  if String.eqb (part_type p) "image_url" && GH.truthy (image_url p)
  then image_url p else None.

Definition video_of (p : Part) : option string :=
  if String.eqb (part_type p) "video_url" && GH.truthy (video_url p)
  then video_url p else None.

(** ** services/proxy_manager.ts *)

Inductive ProxyType : Type := http | socks5.

Record ProxyConfig : Type := {
  proxy_id : Z;
  proxy_enabled : bool;
  proxy_type : ProxyType;
  proxy_host : string;
  proxy_port : Z;
  username : option string;
  password : option string
}.

Record ProxyManager : Type := {
  proxies : list ProxyConfig;
  proxyIndex : nat
}.

Module PM.

(** [new ProxyManager(db)] *)
Definition new : ProxyManager := {| proxies := []; proxyIndex := 0 |}.

Definition getProxies : Eff ProxyManager (list ProxyConfig) := gets proxies.

Definition enabledProxies (pm : ProxyManager) : list ProxyConfig :=
  filter (fun p => proxy_enabled p = true) (proxies pm).

Definition getNextProxy : Eff ProxyManager (option ProxyConfig) :=
  let! enabledProxies := gets enabledProxies in
  if bool_decide (length enabledProxies = 0%nat) then ret None
  else
    let! idx := gets proxyIndex in
    let proxy := enabledProxies !! (idx mod length enabledProxies)%nat in
    do! modify (fun pm =>
          {| proxies := proxies pm;
             proxyIndex := ((proxyIndex pm + 1) mod length enabledProxies)%nat |}) in
    ret proxy.

Definition hasProxy : Eff ProxyManager bool :=
  gets (fun pm => existsb proxy_enabled (proxies pm)).

Definition getProxyString (proxy : ProxyConfig) : string :=
  let scheme := match proxy_type proxy with
                | http => "http" | socks5 => "socks5"
                end%string in
  if GH.truthy (username proxy) && GH.truthy (password proxy) then
    scheme +:+ "://" +:+ default ""%string (username proxy) +:+ ":"
    +:+ default ""%string (password proxy) +:+ "@" +:+ proxy_host proxy
    +:+ ":" +:+ pretty (proxy_port proxy)
  else
    scheme +:+ "://" +:+ proxy_host proxy +:+ ":"
    +:+ pretty (proxy_port proxy).

End PM.

(** ** core/auth.ts: the API-key middleware *)

(** [s.split(sep)] for a one-character separator: every separator cuts,
    so two in a row, or one at either end, give an empty piece. *)
Fixpoint split_on (sep : ascii) (s : string) : list string :=
  match s with
  | EmptyString => [EmptyString]
  | String c s' =>
      if Ascii.eqb c sep then EmptyString :: split_on sep s'
      else match split_on sep s' with
           | piece :: rest => String c piece :: rest
           | [] => [String c EmptyString]
           end
  end.

(** [pieces.join(sep)] *)
Fixpoint join_with (sep : ascii) (pieces : list string) : string :=
  match pieces with
  | [] => EmptyString
  | [piece] => piece
  | piece :: rest => piece +:+ String sep (join_with sep rest)
  end.

(** What the middleware does with a request: answer 401 with a message,
    or hand it on with [next()]. *)
Inductive AuthResult : Type :=
| Unauthorized (message : string)
| Next_.

(** [verifyApiKeyHeader], given [ctx.request.headers.get("authorization")]. *)
Definition verifyApiKeyHeader (authHeader : option string) : AuthResult :=
  if negb (GH.truthy authHeader) then
    Unauthorized "Missing Authorization header"
  else
    let parts := split_on " " (default ""%string authHeader) in
    if negb (Nat.eqb (length parts) 2)
       || negb (String.eqb (default ""%string (parts !! 0%nat)) "Bearer")
    then Unauthorized "Invalid Authorization header format"
    else
      let tok := default ""%string (parts !! 1%nat) in
      if negb (String.eqb tok "han1234") then Unauthorized "Invalid API key"
      else Next_.

(** ** api/routes.ts: the non-streaming branch of [/v1/chat/completions] *)

Record Completion : Type := {
  completion_id : string;
  completion_object : string;
  completion_created : Z;
  completion_model : string;
  message_role : string;
  message_content : string;
  completion_finish_reason : string
}.

Inductive HttpResponse : Type :=
| Status200 (body : Completion)
| Status500 (message : string).

Module Routes.

(** The body of the [for await] loop: [finalContent += content] when the
    chunk's delta has a truthy content. *)
Definition collect (finalContent : string) (c : ChatCompletionResponse)
    : string :=
  if GH.truthy (Some (delta_content c)) then finalContent +:+ delta_content c
  else finalContent.

(** The [else] branch of the route ([stream === false]): run the generator
    to its end with a [for await] loop whose body cannot fail (so the
    generator is never closed early), then build the response from the
    chunks; anything thrown becomes a 500. *)
Definition chatCompletions_nonStreaming (env : RequestEnv)
    (request : ChatCompletionRequest) (requestId : string)
    (h : GenerationHandler) : HttpResponse * GenerationHandler :=
  let r := GH.handleChatCompletion env request requestId (GH.enter h []) in
  let chunks := yielded (final r) in
  (match result r with
   | Rejected e => Status500 e
   | _ =>
       match last chunks with
       | Some finalChunk =>
           Status200
             {| completion_id := chunk_id finalChunk;
                completion_object := "chat.completion";
                completion_created := created finalChunk;
                completion_model := model request;
                message_role := "assistant";
                message_content := foldl collect ""%string chunks;
                completion_finish_reason :=
                  if GH.truthy (finish_reason finalChunk)
                  then default ""%string (finish_reason finalChunk)
                  else "stop" |}
       | None =>
           Status500 "Cannot read properties of undefined (reading 'id')"
       end
   end, self (final r)).

End Routes.

(** ** Proofs *)

(** *** Sequencing *)

(** A first step that resolves without printing hands its value and state
    to the rest. *)
Lemma bind_quiet {S A B} (m : Eff S A) (k : A -> Eff S B) s a s' :
  m s = Run (Resolved a) s' [] -> bind m k s = k a s'.
Proof.
  intros Hm. unfold bind. rewrite Hm. by destruct (k a s').
Qed.

Lemma bind_run {S A B} (m : Eff S A) (k : A -> Eff S B) s a s' out :
  m s = Run (Resolved a) s' out ->
  bind m k s =
  Run (result (k a s')) (final (k a s')) (out ++ console (k a s')).
Proof. intros Hm. unfold bind. rewrite Hm. by destruct (k a s'). Qed.

Lemma bind_quiet_inv {S A B} (m : Eff S A) (k : A -> Eff S B) s b s'' :
  bind m k s = Run (Resolved b) s'' [] ->
  exists a s', m s = Run (Resolved a) s' [] /\
               k a s' = Run (Resolved b) s'' [].
Proof.
  unfold bind. destruct (m s) as [[a| |] s' out]; try discriminate.
  destruct (k a s') as [res s2 out'] eqn:Hk.
  intros [= -> -> Hout]. apply app_eq_nil in Hout as [-> ->].
  by exists a, s'.
Qed.

(** *** How each admission operation runs *)

Section CM_runs.
Implicit Types (cm : ConcurrencyManager) (tok : string).

Lemma canUseToken_run tok cm :
  CM.canUseToken tok cm =
  Run (Resolved match tokenUsage cm !! tok with
                | Some u => bool_decide (current u < max u)
                | None => false
                end) cm [].
Proof. reflexivity. Qed.

Lemma incrementUsage_run tok cm :
  CM.incrementUsage tok cm =
  Run (Resolved tt)
      match tokenUsage cm !! tok with
      | Some u =>
          CM.set_usage
            (<[tok := {| current := current u + 1; max := max u |}]>
               (tokenUsage cm)) cm
      | None => cm
      end [].
Proof.
  unfold CM.incrementUsage, bind, gets; simpl.
  destruct (tokenUsage cm !! tok); reflexivity.
Qed.

Lemma decrementUsage_run tok cm :
  CM.decrementUsage tok cm =
  Run (Resolved tt)
      match tokenUsage cm !! tok with
      | Some u =>
          if bool_decide (current u > 0) then
            CM.set_usage
              (<[tok := {| current := current u - 1; max := max u |}]>
                 (tokenUsage cm)) cm
          else cm
      | None => cm
      end [].
Proof.
  unfold CM.decrementUsage, bind, gets; simpl.
  destruct (tokenUsage cm !! tok) as [u|]; [|reflexivity].
  destruct (bool_decide (current u > 0)); reflexivity.
Qed.

Lemma initialize_run toks cm :
  CM.initialize toks cm =
  Run (Resolved tt)
      (CM.set_usage
         (foldl (CM.initialize_entry (maxConcurrentPerToken cm)) ∅ toks) cm)
      [].
Proof. reflexivity. Qed.

Lemma setMaxConcurrentPerToken_run maxc cm :
  CM.setMaxConcurrentPerToken maxc cm =
  Run (Resolved tt)
      {| tokenUsage :=
           (fun u => {| current := current u; max := maxc |})
             <$> tokenUsage cm;
         maxConcurrentPerToken := maxc |} [].
Proof. reflexivity. Qed.

(** What [initialize] leaves under a key. *)
Lemma initialize_fold_lookup maxc toks (m : gmap string TokenUsage) tok :
  foldl (CM.initialize_entry maxc) m toks !! tok =
  if bool_decide (tok ∈ token <$> toks)
  then Some {| current := 0; max := maxc |}
  else m !! tok.
Proof.
  revert m; induction toks as [|t toks IH]; intros m.
  - done.
  - cbn [foldl]. rewrite IH, fmap_cons. unfold CM.initialize_entry.
    case_bool_decide as H1; case_bool_decide as H2; try done.
    + exfalso. apply H2. by right.
    + apply elem_of_cons in H2 as [->|?]; [|done].
      by rewrite lookup_insert_eq.
    + rewrite lookup_insert_ne; [done|].
      intros <-. apply H2. left.
Qed.

Lemma initialize_lookup toks cm tok :
  tokenUsage (exec (CM.initialize toks) cm) !! tok =
  if bool_decide (tok ∈ token <$> toks)
  then Some {| current := 0; max := maxConcurrentPerToken cm |}
  else None.
Proof.
  unfold exec. rewrite initialize_run. simpl.
  rewrite initialize_fold_lookup. by rewrite lookup_empty.
Qed.

End CM_runs.

(** *** The budget invariant *)

Section Budget.
Implicit Types (cm : ConcurrencyManager) (op : cm_op).

Lemma perform_never_negative op cm :
  never_negative cm -> never_negative (exec (perform op) cm).
Proof.
  unfold never_negative, exec. intros Hcm.
  destruct op as [toks|tok|tok|tok| |maxc]; cbn [perform].
  - intros k u Hk. change (tokenUsage (exec (CM.initialize toks) cm) !! k
                           = Some u) in Hk.
    rewrite initialize_lookup in Hk.
    case_bool_decide; simplify_eq; simpl; lia.
  - exact Hcm.
  - rewrite incrementUsage_run; simpl.
    destruct (tokenUsage cm !! tok) as [u|] eqn:Hu; [|exact Hcm].
    apply map_Forall_insert_2; [|exact Hcm].
    apply Hcm in Hu. simpl in *. lia.
  - rewrite decrementUsage_run; simpl.
    destruct (tokenUsage cm !! tok) as [u|] eqn:Hu; [|exact Hcm].
    case_bool_decide; [|exact Hcm].
    apply map_Forall_insert_2; [|exact Hcm]. simpl. lia.
  - exact Hcm.
  - intros k u Hk. simpl in Hk.
    rewrite lookup_fmap in Hk.
    destruct (tokenUsage cm !! k) as [u'|] eqn:Hu'; simplify_eq/=.
    pose proof (Hcm _ _ Hu') as Hu. simpl in Hu. lia.
Qed.

Lemma perform_within_budget op cm :
  0 <= maxConcurrentPerToken cm -> within_budget cm -> permitted op cm ->
  0 <= maxConcurrentPerToken (exec (perform op) cm) /\
  within_budget (exec (perform op) cm).
Proof.
  unfold within_budget, exec. intros Hmax Hcm Hop.
  destruct op as [toks|tok|tok|tok| |maxc]; cbn [perform permitted] in *.
  - split; [exact Hmax|].
    intros k u Hk. change (tokenUsage (exec (CM.initialize toks) cm) !! k
                           = Some u) in Hk.
    rewrite initialize_lookup in Hk.
    case_bool_decide; simplify_eq; simpl; lia.
  - by split.
  - unfold value in Hop. rewrite canUseToken_run in Hop; simpl in Hop.
    rewrite incrementUsage_run; simpl.
    destruct (tokenUsage cm !! tok) as [u|] eqn:Hu; [|by split].
    split; [exact Hmax|].
    apply map_Forall_insert_2; [|exact Hcm].
    apply Hcm in Hu. simpl in *.
    injection Hop as Hop. apply bool_decide_eq_true_1 in Hop. lia.
  - rewrite decrementUsage_run; simpl.
    destruct (tokenUsage cm !! tok) as [u|] eqn:Hu; [|by split].
    case_bool_decide; [|by split].
    split; [exact Hmax|].
    apply map_Forall_insert_2; [|exact Hcm].
    apply Hcm in Hu. simpl in *. lia.
  - by split.
  - destruct Hop as [Hn Hall]. split; [exact Hn|].
    intros k u Hk. simpl in Hk. rewrite lookup_fmap in Hk.
    destruct (tokenUsage cm !! k) as [u'|] eqn:Hu'; simplify_eq/=.
    pose proof (Hcm _ _ Hu'). pose proof (Hall _ _ Hu'). simpl in *. lia.
Qed.

Lemma perform_all_never_negative ops cm :
  never_negative cm -> never_negative (perform_all ops cm).
Proof.
  revert cm; induction ops as [|op ops IH]; intros cm Hcm; [exact Hcm|].
  apply IH, perform_never_negative, Hcm.
Qed.

Lemma perform_all_within_budget ops cm :
  0 <= maxConcurrentPerToken cm -> within_budget cm ->
  disciplined ops cm -> within_budget (perform_all ops cm).
Proof.
  revert cm; induction ops as [|op ops IH]; intros cm Hmax Hcm Hops;
    [exact Hcm|].
  destruct Hops as [Hop Hops].
  destruct (perform_within_budget op cm Hmax Hcm Hop) as [Hmax' Hcm'].
  by apply IH.
Qed.

End Budget.

(** C2, as stated, fails: four bare [incrementUsage] calls on a credential
    whose budget is 3 leave its counter at 4, and lowering the budget with
    [setMaxConcurrentPerToken] under a counter does the same. *)
Lemma C2_budget_exceeded :
  ~ within_budget
      (perform_all [Initialize [mkToken 1 "a" true];
                    IncrementUsage "a"; IncrementUsage "a";
                    IncrementUsage "a"; IncrementUsage "a"] CM.new) /\
  ~ within_budget
      (perform_all [Initialize [mkToken 1 "a" true];
                    IncrementUsage "a"; IncrementUsage "a";
                    SetMaxConcurrentPerToken 1] CM.new).
Proof.
  split; intros H.
  - assert (0 <= 4 <= 3); [|lia].
    apply (H "a"%string {| current := 4; max := 3 |}).
    vm_compute. reflexivity.
  - assert (0 <= 2 <= 1); [|lia].
    apply (H "a"%string {| current := 2; max := 1 |}).
    vm_compute. reflexivity.
Qed.

(** C2 (amended): after every sequence of operations from a fresh
    controller no counter is negative; and after every sequence in which
    [incrementUsage] is only called when [canUseToken] holds for that
    token, and [setMaxConcurrentPerToken] only with a value that is not
    negative and not below any counter, [0 <= inUse <= budget] holds for
    every tracked credential. *)
Theorem C2_budget_invariant (ops : list cm_op) :
  never_negative (perform_all ops CM.new) /\
  (disciplined ops CM.new -> within_budget (perform_all ops CM.new)).
Proof.
  split.
  - apply perform_all_never_negative. intros k u Hk. by simpl in Hk.
  - apply perform_all_within_budget; [simpl; lia|].
    intros k u Hk. by simpl in Hk.
Qed.

Lemma C2_budget_invariant_witness :
  let ops := [Initialize [mkToken 1 "a" true]; CanUseToken "a";
              IncrementUsage "a"; SetMaxConcurrentPerToken 2;
              DecrementUsage "a"; DecrementUsage "a"] in
  disciplined ops CM.new /\
  never_negative (perform_all ops CM.new) /\
  within_budget (perform_all ops CM.new).
Proof.
  intros ops.
  assert (disciplined ops CM.new) as Hd.
  { cbn [ops disciplined permitted].
    repeat match goal with |- _ /\ _ => split end; try exact I.
    - vm_compute. reflexivity.
    - lia.
    - apply (bool_decide_unpack _). vm_compute. exact I. }
  split; [exact Hd|].
  split; [exact (proj1 (C2_budget_invariant ops))|].
  exact (proj2 (C2_budget_invariant ops) Hd).
Defined.

(** *** Acquiring against one budget *)

Section Acquire.
Implicit Types (cm : ConcurrencyManager) (tok : string).

Lemma acquire_run tok cm :
  acquire tok cm =
  match tokenUsage cm !! tok with
  | Some u =>
      if bool_decide (current u < max u) then
        Run (Resolved true)
            (CM.set_usage
               (<[tok := {| current := current u + 1; max := max u |}]>
                  (tokenUsage cm)) cm) []
      else Run (Resolved false) cm []
  | None => Run (Resolved false) cm []
  end.
Proof.
  unfold acquire, bind. rewrite canUseToken_run. cbn [result final console].
  destruct (tokenUsage cm !! tok) as [u|] eqn:Hu; [|reflexivity].
  destruct (bool_decide (current u < max u)); [|reflexivity].
  rewrite incrementUsage_run, Hu. reflexivity.
Qed.

Lemma times_S {S A} n (m : Eff S A) s :
  times (Datatypes.S n) m s =
  (let! a := m in let! rest := times n m in ret (a :: rest)) s.
Proof. reflexivity. Qed.

(** While the counter stays within the budget every acquire succeeds. *)
Lemma acquire_times_below (k : nat) tok cm c B :
  tokenUsage cm !! tok = Some {| current := c; max := B |} ->
  c + Z.of_nat k <= B ->
  times k (acquire tok) cm =
  Run (Resolved (replicate k true))
      (if decide (k = 0%nat) then cm
       else CM.set_usage
              (<[tok := {| current := c + Z.of_nat k; max := B |}]>
                 (tokenUsage cm)) cm) [].
Proof.
  revert cm c; induction k as [|k IH]; intros cm c Hu Hle; [reflexivity|].
  rewrite times_S.
  erewrite bind_quiet;
    [|rewrite acquire_run, Hu; cbn [current max];
      by rewrite bool_decide_eq_true_2 by lia].
  erewrite bind_quiet;
    [|apply (IH _ (c + 1)); [simpl; by rewrite lookup_insert_eq|lia]].
  unfold ret. f_equal.
  rewrite (decide_False (P := Datatypes.S k = 0%nat)) by done.
  destruct (decide (k = 0%nat)) as [->|Hk].
  - unfold CM.set_usage. do 3 f_equal; lia.
  - unfold CM.set_usage; simpl. f_equal.
    rewrite insert_insert_eq. do 2 f_equal; lia.
Qed.

(** Once the counter has reached the budget every acquire fails and
    changes nothing. *)
Lemma acquire_times_full (n : nat) tok cm u :
  tokenUsage cm !! tok = Some u -> max u <= current u ->
  times n (acquire tok) cm = Run (Resolved (replicate n false)) cm [].
Proof.
  intros Hu Hfull. induction n as [|n IH]; [reflexivity|].
  rewrite times_S.
  erewrite bind_quiet;
    [|rewrite acquire_run, Hu; by rewrite bool_decide_eq_false_2 by lia].
  erewrite bind_quiet; [|exact IH]. reflexivity.
Qed.

End Acquire.

(** C3: on a tracked credential with budget [B] and counter 0, the first
    [B] acquires all succeed; then [canUseToken] is false and every
    further acquire fails; after one [decrementUsage], [canUseToken] is
    true again. *)
Theorem C3_exactly_budget_acquires
    (cm : ConcurrencyManager) (tok : string) (B : Z) :
  tokenUsage cm !! tok = Some {| current := 0; max := B |} ->
  0 < B ->
  let full := exec (times (Z.to_nat B) (acquire tok)) cm in
  value (times (Z.to_nat B) (acquire tok)) cm
    = Some (replicate (Z.to_nat B) true) /\
  value (CM.canUseToken tok) full = Some false /\
  (forall n, value (times n (acquire tok)) full = Some (replicate n false)) /\
  value (CM.canUseToken tok) (exec (CM.decrementUsage tok) full) = Some true.
Proof.
  intros Hu HB full.
  pose proof (acquire_times_below (Z.to_nat B) tok cm 0 B Hu ltac:(lia))
    as Hrun.
  destruct (decide (Z.to_nat B = 0%nat)) as [?|_]; [lia|].
  assert (tokenUsage full !! tok = Some {| current := B; max := B |}) as Hfull.
  { unfold full, exec. rewrite Hrun. simpl. rewrite lookup_insert_eq.
    do 2 f_equal. lia. }
  repeat split.
  - unfold value. by rewrite Hrun.
  - unfold value. rewrite canUseToken_run, Hfull. simpl.
    by rewrite bool_decide_eq_false_2 by lia.
  - intros n. unfold value.
    by rewrite (acquire_times_full n tok full _ Hfull) by (simpl; lia).
  - unfold value, exec. rewrite canUseToken_run, decrementUsage_run, Hfull.
    cbn [result final current max].
    rewrite bool_decide_eq_true_2 by lia. simpl.
    rewrite lookup_insert_eq. simpl.
    by rewrite bool_decide_eq_true_2 by lia.
Qed.

Lemma C3_exactly_budget_acquires_witness :
  let cm := exec (CM.initialize [mkToken 1 "a" true]) CM.new in
  let full := exec (times 3 (acquire "a")) cm in
  tokenUsage cm !! "a"%string = Some {| current := 0; max := 3 |} /\
  0 < 3 /\
  value (times 3 (acquire "a")) cm = Some [true; true; true] /\
  value (CM.canUseToken "a") full = Some false /\
  (forall n, value (times n (acquire "a")) full = Some (replicate n false)) /\
  value (CM.canUseToken "a") (exec (CM.decrementUsage "a") full) = Some true.
Proof.
  intros cm full.
  assert (tokenUsage cm !! "a"%string = Some {| current := 0; max := 3 |})
    as H1 by (vm_compute; reflexivity).
  assert (0 < 3) as H2 by lia.
  split; [exact H1|split; [exact H2|]].
  exact (C3_exactly_budget_acquires cm "a" 3 H1 H2).
Defined.

(** *** Rotation *)

Section Rotation.
Implicit Types (tm : TokenManager).

Lemma rotate_nat_add_mod (base offset len : nat) :
  rotate_nat_add base offset len = ((base + offset) mod len)%nat.
Proof.
  unfold rotate_nat_add.
  by rewrite <-Nat2Z.inj_add, <-Nat2Z.inj_mod, Nat2Z.id.
Qed.

Lemma getNextToken_run tm :
  TM.getNextToken tm =
  let L := TM.enabledTokens tm in
  if decide (length L = 0%nat) then Run (Resolved None) tm []
  else Run (Resolved (L !! rotate_nat_add (tokenIndex tm) 0 (length L)))
           {| tokens := tokens tm;
              tokenIndex := rotate_nat_add (tokenIndex tm) 1 (length L) |}
           [].
Proof.
  cbn zeta. rewrite !rotate_nat_add_mod, Nat.add_0_r.
  unfold TM.getNextToken, bind, gets; simpl.
  case_bool_decide; case_decide; try done.
Qed.

Lemma enabledTokens_index toks i j :
  TM.enabledTokens {| tokens := toks; tokenIndex := i |} =
  TM.enabledTokens {| tokens := toks; tokenIndex := j |}.
Proof. reflexivity. Qed.

(** [n] calls in a row on an unchanging pool: the [k]-th (from 0) returns
    the enabled credential at position [(tokenIndex + k) mod N]. *)
Lemma getNextToken_times (n : nat) toks idx :
  let L := TM.enabledTokens {| tokens := toks; tokenIndex := idx |} in
  (0 < length L)%nat ->
  exists idx',
    times n TM.getNextToken {| tokens := toks; tokenIndex := idx |} =
    Run (Resolved ((fun k => L !! rotate_nat_add idx k (length L))
                     <$> seq 0 n))
        {| tokens := toks; tokenIndex := idx' |} [].
Proof.
  intros L HL. revert idx L HL.
  induction n as [|n IH]; intros idx L HL; [by exists idx|].
  destruct (IH (rotate_nat_add idx 1 (length L)) HL) as [idx' Hrest].
  exists idx'. rewrite times_S.
  erewrite bind_quiet;
    [|by rewrite getNextToken_run; cbn zeta;
         rewrite decide_False by (fold L; lia)].
  cbn [tokens tokenIndex]. fold L.
  erewrite bind_quiet; [|exact Hrest].
  unfold ret. f_equal. f_equal. cbn [seq fmap list_fmap]. f_equal.
  rewrite <-fmap_S_seq, <-list_fmap_compose.
  apply list_fmap_ext. intros _ k _. simpl. f_equal.
  rewrite !rotate_nat_add_mod.
  rewrite Nat.Div0.add_mod_idemp_l. f_equal. lia.
Qed.

Lemma rotate_Permutation {A} (n : nat) (l : list A) : rotate n l ≡ₚ l.
Proof.
  unfold rotate. rewrite Permutation_app_comm. by rewrite take_drop.
Qed.

End Rotation.

(** C6: on a pool with [N > 0] enabled credentials that does not change,
    [N] consecutive [getNextToken] calls return the enabled credentials in
    rotation order starting at the cursor, each exactly once, and the
    [N+1]-th call returns what the first returned. *)
Theorem C6_round_robin (tm : TokenManager) (N : nat) :
  N = length (TM.enabledTokens tm) ->
  (0 < N)%nat ->
  exists picks : list Token,
    value (times (S N) TM.getNextToken) tm = Some (Some <$> picks) /\
    take N picks = rotate (tokenIndex tm) (TM.enabledTokens tm) /\
    take N picks ≡ₚ TM.enabledTokens tm /\
    picks !! N = picks !! 0%nat.
Proof.
  intros -> HN. destruct tm as [toks idx].
  set (L := TM.enabledTokens {| tokens := toks; tokenIndex := idx |}) in *.
  destruct (getNextToken_times (S (length L)) toks idx HN) as [idx' Hrun].
  fold L in Hrun. cbn [tokenIndex].
  assert (length (rotate idx L) = length L) as Hlen by apply length_rotate.
  exists (rotate idx L ++ take 1 (rotate idx L)).
  split; [|split; [|split]].
  - unfold value. rewrite Hrun. cbn [result]. f_equal.
    apply list_eq. intros k.
    rewrite !list_lookup_fmap.
    destruct (decide (k < length L)%nat) as [Hk|Hk].
    + rewrite lookup_seq_lt by lia. simpl.
      rewrite lookup_app_l by lia. rewrite lookup_rotate_r by done.
      destruct (L !! rotate_nat_add idx k (length L)) eqn:E; [done|].
      apply lookup_ge_None in E.
      pose proof (rotate_nat_add_lt idx k (length L) HN). lia.
    + destruct (decide (k = length L)) as [->|Hne].
      * rewrite lookup_seq_lt by lia. simpl.
        rewrite lookup_app_r by lia. rewrite Hlen, Nat.sub_diag.
        rewrite lookup_take_lt by lia. rewrite lookup_rotate_r by done.
        replace (rotate_nat_add idx (length L) (length L))
          with (rotate_nat_add idx 0 (length L)).
        2:{ rewrite !rotate_nat_add_mod, Nat.add_0_r.
            replace (idx + length L)%nat with (idx + 1 * length L)%nat
              by lia.
            by rewrite Nat.Div0.mod_add. }
        destruct (L !! rotate_nat_add idx 0 (length L)) eqn:E; [done|].
        apply lookup_ge_None in E.
        pose proof (rotate_nat_add_lt idx 0 (length L) HN). lia.
      * rewrite lookup_seq_ge by lia. simpl.
        rewrite lookup_ge_None_2; [done|].
        rewrite length_app, length_take, Hlen. lia.
  - rewrite take_app_length'; [done|by rewrite Hlen].
  - rewrite take_app_length' by (by rewrite Hlen). apply rotate_Permutation.
  - rewrite lookup_app_r by lia. rewrite Hlen, Nat.sub_diag.
    rewrite lookup_take_lt by lia. rewrite lookup_app_l by lia. done.
Qed.

Lemma C6_round_robin_witness :
  let tm := {| tokens := [mkToken 1 "a" true; mkToken 2 "b" false;
                          mkToken 3 "c" true; mkToken 4 "d" true];
               tokenIndex := 1 |} in
  3%nat = length (TM.enabledTokens tm) /\ (0 < 3)%nat /\
  exists picks : list Token,
    value (times 4 TM.getNextToken) tm = Some (Some <$> picks) /\
    take 3 picks = rotate (tokenIndex tm) (TM.enabledTokens tm) /\
    take 3 picks ≡ₚ TM.enabledTokens tm /\
    picks !! 3%nat = picks !! 0%nat.
Proof.
  intros tm.
  assert (3%nat = length (TM.enabledTokens tm)) as H1 by reflexivity.
  assert (0 < 3)%nat as H2 by lia.
  split; [exact H1|split; [exact H2|]].
  exact (C6_round_robin tm 3 H1 H2).
Defined.

(** *** Dispatch *)

Section Dispatch.
Implicit Types (cm : ConcurrencyManager) (toks : list Token).

Lemma onTM_quiet {A} (m : Eff TokenManager A) lb a tm' :
  m (tokenManager lb) = Run (Resolved a) tm' [] ->
  LB.onTM m lb =
  Run (Resolved a)
      {| tokenManager := tm';
         concurrencyManager := concurrencyManager lb |} [].
Proof. intros Hm. unfold LB.onTM, zoom. by rewrite Hm. Qed.

Lemma onCM_quiet {A} (m : Eff ConcurrencyManager A) lb a cm' :
  m (concurrencyManager lb) = Run (Resolved a) cm' [] ->
  LB.onCM m lb =
  Run (Resolved a)
      {| tokenManager := tokenManager lb; concurrencyManager := cm' |} [].
Proof. intros Hm. unfold LB.onCM, zoom. by rewrite Hm. Qed.

Lemma value_canUseToken tok cm :
  value (CM.canUseToken tok) cm = Some (can_use tok cm).
Proof. reflexivity. Qed.

Lemma rotate_nat_add_step idx k len :
  rotate_nat_add (rotate_nat_add idx 1 len) k len =
  rotate_nat_add idx (S k) len.
Proof.
  rewrite !rotate_nat_add_mod, Nat.Div0.add_mod_idemp_l. f_equal. lia.
Qed.

(** The loop of [getToken] with [n] iterations left: it always
    resolves, quietly; it returns the first candidate in rotation order
    that [canUseToken] accepts, after incrementing its counter; and it
    returns [null] only when none of the [n] candidates is accepted. *)
Lemma getToken_loop_run (n : nat) toks idx cm :
  let L := TM.enabledTokens {| tokens := toks; tokenIndex := idx |} in
  exists r idx',
    LB.getToken_loop n (pool toks idx cm) =
    Run (Resolved r)
        (pool toks idx'
           match r with
           | Some s => exec (CM.incrementUsage s) cm
           | None => cm
           end) [] /\
    match r with
    | Some s =>
        exists k t, (k < n)%nat /\
          L !! rotate_nat_add idx k (length L) = Some t /\
          token t = s /\ can_use s cm = true
    | None =>
        forall k t, (k < n)%nat ->
          L !! rotate_nat_add idx k (length L) = Some t ->
          can_use (token t) cm = false
    end.
Proof.
  intros L. revert idx L.
  induction n as [|n IH]; intros idx L.
  { exists None, idx. split; [reflexivity|]. intros k t Hk. lia. }
  cbn [LB.getToken_loop].
  pose proof (getNextToken_run {| tokens := toks; tokenIndex := idx |})
    as Hnext. cbn zeta in Hnext. fold L in Hnext.
  cbn [tokens tokenIndex] in Hnext.
  destruct (decide (length L = 0%nat)) as [HL|HL].
  - exists None, idx. split.
    + erewrite bind_quiet; [|by apply onTM_quiet]. reflexivity.
    + intros k t _ Ht. apply lookup_lt_Some in Ht. lia.
  - destruct (L !! rotate_nat_add idx 0 (length L)) as [t|] eqn:Ht.
    2:{ apply lookup_ge_None in Ht.
        pose proof (rotate_nat_add_lt idx 0 (length L)). lia. }
    erewrite bind_quiet; [|by apply onTM_quiet].
    cbv iota.
    erewrite bind_quiet;
      [|apply onCM_quiet; simpl; apply canUseToken_run].
    fold (can_use (token t) cm). cbn [tokenManager concurrencyManager].
    destruct (can_use (token t) cm) eqn:Hcan.
    + exists (Some (token t)), (rotate_nat_add idx 1 (length L)). split.
      * erewrite bind_quiet;
          [|apply onCM_quiet; simpl; apply incrementUsage_run].
        unfold ret, pool, exec. rewrite incrementUsage_run. reflexivity.
      * exists 0%nat, t. repeat split; [lia|done|done].
    + destruct (IH (rotate_nat_add idx 1 (length L)))
        as (r & idx' & Hrun & Hr).
      exists r, idx'. split; [exact Hrun|].
      change (TM.enabledTokens
                {| tokens := toks;
                   tokenIndex := rotate_nat_add idx 1 (length L) |})
        with L in Hr.
      destruct r as [s|].
      * destruct Hr as (k & t' & Hk & Ht' & Hs & Hcan').
        exists (S k), t'. rewrite <-rotate_nat_add_step.
        repeat split; [lia|done..].
      * intros [|k] t' Hk Ht'; [by simplify_eq|].
        rewrite <-rotate_nat_add_step in Ht'.
        apply (Hr k t'); [lia|done].
Qed.

(** Every position of the enabled list comes up within one cycle. *)
Lemma rotation_covers {A} (L : list A) idx j :
  (j < length L)%nat ->
  exists k, (k < length L)%nat /\ rotate_nat_add idx k (length L) = j.
Proof.
  intros Hj. exists (rotate_nat_sub idx j (length L)). split.
  - apply rotate_nat_sub_lt. lia.
  - by apply rotate_nat_add_sub.
Qed.

Lemma enabledTokens_length toks idx :
  (length (TM.enabledTokens {| tokens := toks; tokenIndex := idx |})
   <= length toks)%nat.
Proof. apply length_filter. Qed.

Lemma getToken_run toks idx cm :
  LB.getToken (pool toks idx cm) =
  LB.getToken_loop (length toks) (pool toks idx cm).
Proof.
  unfold LB.getToken. by erewrite bind_quiet; [|by apply onTM_quiet].
Qed.

(** A token handed out is one [canUseToken] accepted. *)
Lemma getToken_accepted toks idx cm s :
  value LB.getToken (pool toks idx cm) = Some (Some s) ->
  can_use s cm = true.
Proof.
  unfold value. rewrite getToken_run.
  destruct (getToken_loop_run (length toks) toks idx cm)
    as (r & idx' & -> & Hr).
  cbn [result]. intros [= ->].
  by destruct Hr as (k & t & _ & _ & <- & Hcan).
Qed.

End Dispatch.

(** C4: [getToken] always resolves.  It resolves to [null] exactly when
    [canUseToken] is false for every credential of the list that is
    enabled, at the time of the call, where [canUseToken] is false for a
    secret exactly when the secret is untracked or its counter has reached
    its budget.  Otherwise it resolves to the secret of a credential of the
    list that is enabled, that [canUseToken] accepted, and that has been
    marked in use: its counter is one higher after the call, with the same
    budget, and no other row, nor the list of credentials, has changed. *)
Theorem C4_no_capacity_iff (lb : LoadBalancer) :
  (exists r, value LB.getToken lb = Some r) /\
  (value LB.getToken lb = Some None <->
   forall t, t ∈ tokens (tokenManager lb) -> enabled t = true ->
     value (CM.canUseToken (token t)) (concurrencyManager lb) = Some false) /\
  (forall tok,
     value (CM.canUseToken tok) (concurrencyManager lb) = Some false <->
     forall u, tokenUsage (concurrencyManager lb) !! tok = Some u ->
       max u <= current u) /\
  (forall s, value LB.getToken lb = Some (Some s) ->
     exists t u,
       t ∈ tokens (tokenManager lb) /\ enabled t = true /\ token t = s /\
       value (CM.canUseToken s) (concurrencyManager lb) = Some true /\
       tokenUsage (concurrencyManager lb) !! s = Some u /\
       current u < max u /\
       tokenUsage (concurrencyManager (exec LB.getToken lb))
         = <[s := {| current := current u + 1; max := max u |}]>
             (tokenUsage (concurrencyManager lb)) /\
       maxConcurrentPerToken (concurrencyManager (exec LB.getToken lb))
         = maxConcurrentPerToken (concurrencyManager lb) /\
       tokens (tokenManager (exec LB.getToken lb))
         = tokens (tokenManager lb)).
Proof.
  destruct lb as [[toks idx] cm]. change (pool toks idx cm) with
    {| tokenManager := {| tokens := toks; tokenIndex := idx |};
       concurrencyManager := cm |}.
  fold (pool toks idx cm). cbn [tokenManager concurrencyManager pool tokens].
  unfold value, exec. rewrite getToken_run.
  destruct (getToken_loop_run (length toks) toks idx cm)
    as (r & idx' & -> & Hr).
  cbn [result final]. set (L := TM.enabledTokens _) in *.
  assert (forall t, t ∈ L <-> enabled t = true /\ t ∈ toks) as HL.
  { intros t. unfold L, TM.enabledTokens. cbn [tokens].
    exact (list_elem_of_filter (fun t => enabled t = true) toks t). }
  split; [by exists r|]. split; [split|split].
  - intros [= ->] t Ht Hen. rewrite canUseToken_run. cbn [result].
    fold (can_use (token t) cm). f_equal.
    assert (t ∈ L) as HtL by (by apply HL).
    apply list_elem_of_lookup in HtL as [j Hj].
    pose proof (lookup_lt_Some _ _ _ Hj) as Hlt.
    destruct (rotation_covers L idx j Hlt) as (k & Hk & Hkj).
    apply (Hr k t); [|by rewrite Hkj].
    pose proof (enabledTokens_length toks idx). fold L in H. lia.
  - intros Hall. destruct r as [s|]; [|done].
    destruct Hr as (k & t & _ & Ht & <- & Hcan).
    apply list_elem_of_lookup_2, HL in Ht as [Hen Ht].
    specialize (Hall t Ht Hen).
    rewrite canUseToken_run in Hall. cbn [result] in Hall.
    fold (can_use (token t) cm) in Hall. congruence.
  - intros tok. rewrite canUseToken_run. cbn [result].
    destruct (tokenUsage cm !! tok) as [u|]; [|done].
    case_bool_decide as Hlt; split.
    + done.
    + intros Hu. specialize (Hu u eq_refl). lia.
    + intros _ u' [= <-]. lia.
    + done.
  - intros s [= ->]. destruct Hr as (k & t & _ & Ht & <- & Hcan).
    apply list_elem_of_lookup_2, HL in Ht as [Hen Ht].
    unfold can_use in Hcan.
    destruct (tokenUsage cm !! token t) as [u|] eqn:Hu; [|done].
    apply bool_decide_eq_true in Hcan.
    exists t, u. split; [done|]. split; [done|]. split; [done|].
    split.
    { rewrite canUseToken_run. cbn [result]. rewrite Hu.
      by rewrite bool_decide_eq_true_2. }
    split; [done|]. split; [done|].
    cbn [concurrencyManager tokenManager pool tokens].
    unfold exec. rewrite incrementUsage_run, Hu. cbn [final].
    by cbn.
Qed.

Lemma C4_no_capacity_iff_witness :
  let toks := [mkToken 1 "d" false; mkToken 2 "a" true; mkToken 3 "b" true] in
  let full := perform_all [Initialize toks; IncrementUsage "a";
                           IncrementUsage "a"; IncrementUsage "a"] CM.new in
  let lb := pool toks 0 full in
  let lb0 := pool (take 2 toks) 0 full in
  value LB.getToken lb0 = Some None /\
  value LB.getToken lb = Some (Some "b"%string) /\
  exists t u,
    t ∈ tokens (tokenManager lb) /\ enabled t = true /\
    token t = "b"%string /\
    value (CM.canUseToken "b") (concurrencyManager lb) = Some true /\
    tokenUsage (concurrencyManager lb) !! "b"%string = Some u /\
    current u < max u /\
    tokenUsage (concurrencyManager (exec LB.getToken lb))
      = <["b"%string := {| current := current u + 1; max := max u |}]>
          (tokenUsage (concurrencyManager lb)) /\
    maxConcurrentPerToken (concurrencyManager (exec LB.getToken lb))
      = maxConcurrentPerToken (concurrencyManager lb) /\
    tokens (tokenManager (exec LB.getToken lb))
      = tokens (tokenManager lb).
Proof.
  intros toks full lb lb0.
  assert (forall t, t ∈ tokens (tokenManager lb0) -> enabled t = true ->
            value (CM.canUseToken (token t)) (concurrencyManager lb0)
            = Some false) as H0.
  { intros t Ht Hen. cbn in Ht.
    apply elem_of_cons in Ht as [->|Ht]; [discriminate Hen|].
    apply elem_of_cons in Ht as [->|Ht]; [vm_compute; reflexivity|].
    by apply elem_of_nil in Ht. }
  assert (value LB.getToken lb = Some (Some "b"%string)) as H1
    by (vm_compute; reflexivity).
  split; [exact (proj2 (proj1 (proj2 (C4_no_capacity_iff lb0))) H0)|].
  split; [exact H1|].
  exact (proj2 (proj2 (proj2 (C4_no_capacity_iff lb))) "b"%string H1).
Defined.

(** *** Releasing at zero *)

(** C5, as stated, fails on its second half: releasing a credential whose
    counter is 0 resolves normally and prints nothing, so nothing tells
    the caller of the attempt. *)
Lemma C5_release_at_zero_is_silent :
  let cm := exec (CM.initialize [mkToken 1 "a" true]) CM.new in
  tokenUsage cm !! "a"%string = Some {| current := 0; max := 3 |} /\
  ~ signalled (CM.decrementUsage "a" cm) /\
  ~ signalled (LB.releaseToken "a" (pool [mkToken 1 "a" true] 0 cm)).
Proof.
  split; [vm_compute; reflexivity|].
  split; intros [[e He]|Hout]; vm_compute in *; congruence.
Qed.

(** C5 (amended): [decrementUsage] on a credential whose counter is 0
    leaves the whole state as it was, so the counter stays 0; the call
    resolves normally and prints nothing. *)
Theorem C5_release_floor (cm : ConcurrencyManager) (tok : string)
    (u : TokenUsage) :
  tokenUsage cm !! tok = Some u ->
  current u = 0 ->
  CM.decrementUsage tok cm = Run (Resolved tt) cm [] /\
  tokenUsage (exec (CM.decrementUsage tok) cm) !! tok = Some u /\
  ~ signalled (CM.decrementUsage tok cm).
Proof.
  intros Hu Hzero.
  assert (CM.decrementUsage tok cm = Run (Resolved tt) cm []) as Hrun.
  { rewrite decrementUsage_run, Hu.
    by rewrite bool_decide_eq_false_2 by lia. }
  split; [exact Hrun|]. unfold exec. rewrite Hrun. split; [exact Hu|].
  intros [[e He]|Hout]; simpl in *; congruence.
Qed.

Lemma C5_release_floor_witness :
  let cm := exec (CM.initialize [mkToken 1 "a" true]) CM.new in
  let u := {| current := 0; max := 3 |} in
  tokenUsage cm !! "a"%string = Some u /\ current u = 0 /\
  CM.decrementUsage "a" cm = Run (Resolved tt) cm [] /\
  tokenUsage (exec (CM.decrementUsage "a") cm) !! "a"%string = Some u /\
  ~ signalled (CM.decrementUsage "a" cm).
Proof.
  intros cm u.
  assert (tokenUsage cm !! "a"%string = Some u) as H1
    by (vm_compute; reflexivity).
  assert (current u = 0) as H2 by reflexivity.
  split; [exact H1|split; [exact H2|]].
  exact (C5_release_floor cm "a" u H1 H2).
Defined.

(** *** Credentials the controller does not track *)

Section Untracked.
Implicit Types (cm : ConcurrencyManager) (tok : string).

Lemma perform_untracked op cm tok :
  is_initialize op = false ->
  tokenUsage cm !! tok = None ->
  tokenUsage (exec (perform op) cm) !! tok = None.
Proof.
  intros Hop Hnone. unfold exec.
  destruct op as [toks|t|t|t| |maxc]; cbn [perform]; try done.
  - rewrite incrementUsage_run. cbn [final].
    destruct (tokenUsage cm !! t) as [u|] eqn:Hu; [|done].
    simpl. rewrite lookup_insert_ne; [done|congruence].
  - rewrite decrementUsage_run. cbn [final].
    destruct (tokenUsage cm !! t) as [u|] eqn:Hu; [|done].
    case_bool_decide; [|done].
    simpl. rewrite lookup_insert_ne; [done|congruence].
  - simpl. by rewrite lookup_fmap, Hnone.
Qed.

Lemma perform_all_untracked ops cm tok :
  forallb (fun op => negb (is_initialize op)) ops = true ->
  tokenUsage cm !! tok = None ->
  tokenUsage (perform_all ops cm) !! tok = None.
Proof.
  revert cm; induction ops as [|op ops IH]; intros cm Hops Hnone; [done|].
  cbn [forallb] in Hops. apply andb_prop in Hops as [Hop Hops].
  apply (IH _ Hops), perform_untracked; [|done].
  by destruct (is_initialize op).
Qed.

End Untracked.

(** C9: a token string that was not among the credentials of the last
    [initialize] stays untracked whatever is called afterwards (short of
    another [initialize]): [canUseToken] answers false for it,
    [incrementUsage] and [decrementUsage] leave the state as it was, and
    [getToken] never hands it out, whatever the pool holds by then. *)
Theorem C9_untracked_never_admitted
    (toks : list Token) (cm0 : ConcurrencyManager) (ops : list cm_op)
    (tok : string) :
  tok ∉ token <$> toks ->
  forallb (fun op => negb (is_initialize op)) ops = true ->
  let cm := perform_all ops (exec (CM.initialize toks) cm0) in
  value (CM.canUseToken tok) cm = Some false /\
  exec (CM.incrementUsage tok) cm = cm /\
  exec (CM.decrementUsage tok) cm = cm /\
  forall toks' idx, value LB.getToken (pool toks' idx cm) <> Some (Some tok).
Proof.
  intros Hfresh Hops cm.
  assert (tokenUsage cm !! tok = None) as Hnone.
  { apply perform_all_untracked; [done|].
    rewrite initialize_lookup. by rewrite bool_decide_eq_false_2. }
  repeat split.
  - unfold value. rewrite canUseToken_run. cbn [result]. by rewrite Hnone.
  - unfold exec. rewrite incrementUsage_run. cbn [final]. by rewrite Hnone.
  - unfold exec. rewrite decrementUsage_run. cbn [final]. by rewrite Hnone.
  - intros toks' idx Hget. apply getToken_accepted in Hget.
    unfold can_use in Hget. by rewrite Hnone in Hget.
Qed.

Lemma C9_untracked_never_admitted_witness :
  let toks := [mkToken 1 "a" true] in
  let ops := [IncrementUsage "b"; SetMaxConcurrentPerToken 5;
              IncrementUsage "a"; DecrementUsage "b"] in
  let cm := perform_all ops (exec (CM.initialize toks) CM.new) in
("b"%string ∉ token <$> toks) /\
  forallb (fun op => negb (is_initialize op)) ops = true /\
  value (CM.canUseToken "b") cm = Some false /\
  exec (CM.incrementUsage "b") cm = cm /\
  exec (CM.decrementUsage "b") cm = cm /\
  forall toks' idx, value LB.getToken (pool toks' idx cm) <> Some (Some "b"%string).
Proof.
  intros toks ops cm.
  assert ("b"%string ∉ token <$> toks) as H1.
  { intros H. apply (bool_decide_pack _) in H. vm_compute in H. exact H. }
  assert (forallb (fun op => negb (is_initialize op)) ops = true) as H2
    by reflexivity.
  split; [exact H1|split; [exact H2|]].
  exact (C9_untracked_never_admitted toks CM.new ops "b" H1 H2).
Defined.

(** *** Credentials that share a secret *)

Section Shared.
Implicit Types (cm : ConcurrencyManager) (toks : list Token).

Lemma times_app {S A} (a b : nat) (m : Eff S A) s xs s' ys s'' :
  times a m s = Run (Resolved xs) s' [] ->
  times b m s' = Run (Resolved ys) s'' [] ->
  times (a + b) m s = Run (Resolved (xs ++ ys)) s'' [].
Proof.
  revert s xs; induction a as [|a IH]; intros s xs Ha Hb.
  - cbn in Ha. injection Ha as <- <-. exact Hb.
  - cbn [Nat.add]. rewrite times_S in Ha |- *.
    apply bind_quiet_inv in Ha as (x & s1 & Hx & Ha).
    apply bind_quiet_inv in Ha as (xs1 & s2 & Hxs1 & Ha).
    injection Ha as <- <-.
    erewrite bind_quiet; [|exact Hx].
    erewrite bind_quiet; [|exact (IH _ _ Hxs1 Hb)]. reflexivity.
Qed.

Lemma acquire_quiet tok cm :
  acquire tok cm =
  Run (Resolved (can_use tok cm)) (exec (acquire tok) cm) [].
Proof.
  unfold exec, can_use. rewrite acquire_run.
  destruct (tokenUsage cm !! tok) as [u|]; [|done].
  by destruct (bool_decide (current u < max u)).
Qed.

(** On a pool whose enabled credentials all carry the secret [s], a
    [getToken] is an [acquire] of [s]. *)
Lemma getToken_shared toks idx cm s :
  (forall t, t ∈ TM.enabledTokens {| tokens := toks; tokenIndex := idx |} ->
     token t = s) ->
  TM.enabledTokens {| tokens := toks; tokenIndex := idx |} <> [] ->
  exists idx',
    LB.getToken (pool toks idx cm) =
    Run (Resolved (if can_use s cm then Some s else None))
        (pool toks idx' (exec (acquire s) cm)) [].
Proof.
  intros Hall Hne. rewrite getToken_run.
  destruct (getToken_loop_run (length toks) toks idx cm)
    as (r & idx' & -> & Hr).
  set (L := TM.enabledTokens _) in *.
  exists idx'. unfold exec at 2. rewrite acquire_run.
  destruct r as [s'|].
  - destruct Hr as (k & t & _ & Ht & <- & Hcan).
    apply list_elem_of_lookup_2, Hall in Ht. subst s.
    rewrite Hcan. unfold can_use in Hcan. unfold exec.
    rewrite incrementUsage_run.
    destruct (tokenUsage cm !! token t) as [u|]; [|done].
    by rewrite Hcan.
  - destruct L as [|t0 L'] eqn:HL; [done|].
    assert (exists t, (t0 :: L') !! rotate_nat_add idx 0 (length (t0 :: L'))
                      = Some t) as [t Ht].
    { apply lookup_lt_is_Some_2, rotate_nat_add_lt. simpl. lia. }
    assert (can_use s cm = false) as Hcan.
    { rewrite <-(Hall t) by (by eapply list_elem_of_lookup_2).
      apply (Hr 0%nat t); [|done].
      pose proof (enabledTokens_length toks idx) as Hlen.
      fold L in Hlen. rewrite HL in Hlen. simpl in Hlen. lia. }
    rewrite Hcan. unfold can_use in Hcan.
    destruct (tokenUsage cm !! s) as [u|]; [|done]. by rewrite Hcan.
Qed.

Lemma getToken_times_shared toks s (n : nat) :
  (forall t, t ∈ TM.enabledTokens {| tokens := toks; tokenIndex := 0 |} ->
     token t = s) ->
  TM.enabledTokens {| tokens := toks; tokenIndex := 0 |} <> [] ->
  forall idx cm bs cm',
    times n (acquire s) cm = Run (Resolved bs) cm' [] ->
    exists idx',
      times n LB.getToken (pool toks idx cm) =
      Run (Resolved ((fun b : bool => if b then Some s else None) <$> bs))
          (pool toks idx' cm') [].
Proof.
  intros Hall Hne. induction n as [|n IH]; intros idx cm bs cm' Hacq.
  - cbn in Hacq. injection Hacq as <- <-. by exists idx.
  - rewrite times_S in Hacq.
    erewrite bind_quiet in Hacq; [|apply acquire_quiet].
    apply bind_quiet_inv in Hacq as (bs1 & cm1 & Hrest & Hacq).
    injection Hacq as <- <-.
    destruct (getToken_shared toks idx cm s Hall Hne) as [idx1 Hone].
    destruct (IH idx1 _ _ _ Hrest) as [idx' Hmore].
    exists idx'. rewrite times_S.
    erewrite bind_quiet; [|exact Hone].
    erewrite bind_quiet; [|exact Hmore]. reflexivity.
Qed.

End Shared.

(** C10: the controller is keyed by the secret.  [initialize] over two
    credentials with the same token string leaves one counter; the
    available count is 1 while the pool counts 2 enabled credentials; and
    admissions through the pool draw on that one budget: of any run of
    [getToken] calls the first [B] succeed and all later ones find no
    capacity. *)
Theorem C10_shared_secret_shared_budget
    (t1 t2 : Token) (cm0 : ConcurrencyManager) (idx : nat) :
  token t1 = token t2 ->
  enabled t1 = true -> enabled t2 = true ->
  0 < maxConcurrentPerToken cm0 ->
  let s := token t1 in
  let B := maxConcurrentPerToken cm0 in
  let cm := exec (CM.initialize [t1; t2]) cm0 in
  tokenUsage cm = {[ s := {| current := 0; max := B |} ]} /\
  value CM.getAvailableTokensCount cm = Some 1%nat /\
  value LB.getTokensCount (pool [t1; t2] idx cm) = Some 2%nat /\
  forall m,
    value (times (Z.to_nat B + m) LB.getToken) (pool [t1; t2] idx cm)
    = Some (replicate (Z.to_nat B) (Some s) ++ replicate m None).
Proof.
  intros Heq He1 He2 HB s B cm.
  assert (tokenUsage cm = {[ s := {| current := 0; max := B |} ]}) as Hmap.
  { unfold cm, exec. rewrite initialize_run. cbn [final foldl].
    unfold CM.initialize_entry. cbn [tokenUsage CM.set_usage].
    rewrite <-Heq. fold s. rewrite insert_insert_eq. apply insert_empty. }
  split; [exact Hmap|]. split; [|split].
  - unfold value, CM.getAvailableTokensCount, gets. cbn [result].
    rewrite Hmap, map_to_list_singleton. cbn [filter list_filter].
    rewrite decide_True by (simpl; lia). reflexivity.
  - unfold value, LB.getTokensCount, LB.onTM, zoom, TM.getTokensCount, gets.
    cbn [result tokenManager pool]. unfold TM.enabledTokens.
    cbn [tokens filter list_filter]. rewrite !decide_True by done.
    reflexivity.
  - intros m.
    assert (tokenUsage cm !! s = Some {| current := 0; max := B |}) as Hs.
    { by rewrite Hmap, lookup_singleton_eq. }
    pose proof (acquire_times_below (Z.to_nat B) s cm 0 B Hs ltac:(lia))
      as Hbelow.
    set (full := if decide (Z.to_nat B = 0%nat) then cm else _) in Hbelow.
    assert (tokenUsage full !! s = Some {| current := B; max := B |}) as Hf.
    { unfold full. rewrite decide_False by lia. simpl.
      rewrite lookup_insert_eq. do 2 f_equal. lia. }
    pose proof (acquire_times_full m s full _ Hf ltac:(simpl; lia)) as Hfull.
    pose proof (times_app _ _ _ _ _ _ _ _ Hbelow Hfull) as Hacq.
    destruct (getToken_times_shared [t1; t2] s (Z.to_nat B + m)) with
      (idx := idx) (cm := cm)
      (bs := replicate (Z.to_nat B) true ++ replicate m false)
      (cm' := full) as [idx' Hrun]; [| |exact Hacq|].
    + intros t Ht. unfold TM.enabledTokens in Ht.
      cbn [tokens filter list_filter] in Ht.
      rewrite !decide_True in Ht by done.
      apply elem_of_cons in Ht as [->|Ht]; [done|].
      apply list_elem_of_singleton in Ht as ->. done.
    + unfold TM.enabledTokens. cbn [tokens filter list_filter].
      by rewrite !decide_True by done.
    + unfold value. rewrite Hrun. cbn [result].
      by rewrite fmap_app, !fmap_replicate.
Qed.

Lemma C10_shared_secret_shared_budget_witness :
  let t1 := mkToken 1 "k" true in
  let t2 := mkToken 2 "k" true in
  let cm := exec (CM.initialize [t1; t2]) CM.new in
  token t1 = token t2 /\ enabled t1 = true /\ enabled t2 = true /\
  0 < maxConcurrentPerToken CM.new /\
  tokenUsage cm = {[ "k"%string := {| current := 0; max := 3 |} ]} /\
  value CM.getAvailableTokensCount cm = Some 1%nat /\
  value LB.getTokensCount (pool [t1; t2] 0 cm) = Some 2%nat /\
  forall m,
    value (times (3 + m) LB.getToken) (pool [t1; t2] 0 cm)
    = Some (replicate 3 (Some "k"%string) ++ replicate m None).
Proof.
  intros t1 t2 cm.
  assert (token t1 = token t2) as H1 by reflexivity.
  assert (enabled t1 = true) as H2 by reflexivity.
  assert (enabled t2 = true) as H3 by reflexivity.
  assert (0 < maxConcurrentPerToken CM.new) as H4 by (simpl; lia).
  repeat (split; [assumption|]).
  exact (C10_shared_secret_shared_budget t1 t2 CM.new 0 H1 H2 H3 H4).
Defined.

(** *** The artifact cache *)

Section Cache.
Implicit Types (w : CacheWorld) (key : string) (e : CacheEntry).


(** A write that goes through: the file is on disk, the entry is
    registered with count 1, and the path written is returned. *)
Lemma set_run w key url data :
  cacheEnabled (config w) = true ->
  isDenoDeploy (fileCache w) = false ->
  cacheDir (host w) = true ->
  let p := FC.cache_path (cwd (host w))
             (FC.sanitize key +:+ "_" +:+ pretty (now (host w))) in
  FC.set key url data w =
  Run (Resolved p)
      (FC.set_cacheMap
         (<[key := {| path := p; url := url; timestamp := now (host w);
                      accessCount := 1 |}]> (cacheMap (fileCache w)))
         (FC.set_files (<[p := data]> (files (host w))) w)) [].
Proof.
  intros Hon Hdep Hdir p.
  unfold FC.set, FC.disabled, FC.Date_now, FC.Deno_writeFile,
    FC.cacheMap_set, bind, gets, modify, ret; simpl.
  rewrite Hon, Hdep; simpl. rewrite Hdir; simpl. reflexivity.
Qed.

Lemma set_resolves w key url data p :
  cacheEnabled (config w) = true ->
  isDenoDeploy (fileCache w) = false ->
  value (FC.set key url data) w = Some p ->
  cacheDir (host w) = true.
Proof.
  intros Hon Hdep.
  unfold value, FC.set, FC.disabled, FC.Date_now, FC.Deno_writeFile,
    FC.cacheMap_set, bind, gets, modify, ret, throw; simpl.
  rewrite Hon, Hdep; simpl.
  destruct (cacheDir (host w)); simpl; [done|discriminate].
Qed.

(** A read of a live entry whose file is there. *)
Lemma get_hit w key e data :
  cacheEnabled (config w) = true ->
  isDenoDeploy (fileCache w) = false ->
  cacheMap (fileCache w) !! key = Some e ->
  now (host w) - timestamp e <= cacheTimeout (config w) * 1000 ->
  files (host w) !! path e = Some data ->
  FC.get key w =
  Run (Resolved (Some (path e)))
      (FC.set_cacheMap
         (<[key := {| path := path e; url := url e;
                      timestamp := timestamp e;
                      accessCount := accessCount e + 1 |}]>
            (cacheMap (fileCache w))) w) [].
Proof.
  intros Hon Hdep He Hlive Hfile.
  unfold FC.get, FC.disabled, FC.Date_now, FC.Deno_stat, FC.cacheMap_set,
    FC.cacheMap_delete, try_catch, bind, gets, modify, ret, throw; simpl.
  rewrite Hon, Hdep; simpl. rewrite He; simpl.
  rewrite bool_decide_eq_false_2 by lia. simpl.
  rewrite Hfile. reflexivity.
Qed.

(** A read of an entry older than the timeout: it is dropped from the
    index, and its file removed if it was still there. *)
Lemma get_expired w key e :
  cacheEnabled (config w) = true ->
  isDenoDeploy (fileCache w) = false ->
  cacheMap (fileCache w) !! key = Some e ->
  now (host w) - timestamp e > cacheTimeout (config w) * 1000 ->
  FC.get key w =
  Run (Resolved None)
      (FC.set_files (delete (path e) (files (host w)))
         (FC.set_cacheMap (delete key (cacheMap (fileCache w))) w)) [].
Proof.
  intros Hon Hdep He Hold.
  unfold FC.get, FC.disabled, FC.Date_now, FC.Deno_remove,
    FC.cacheMap_delete, try_catch, bind, gets, modify, ret, throw; simpl.
  rewrite Hon, Hdep; simpl. rewrite He; simpl.
  rewrite bool_decide_eq_true_2 by lia. simpl.
  destruct (files (host w) !! path e) eqn:Hf; simpl; [reflexivity|].
  unfold FC.set_files, FC.set_cacheMap; simpl.
  rewrite (delete_id _ _ Hf). by destruct w as [? ? []].
Qed.

(** The only way [get] returns a path. *)
Lemma get_some_inv w key p :
  value (FC.get key) w = Some (Some p) ->
  exists e data,
    cacheEnabled (config w) = true /\
    isDenoDeploy (fileCache w) = false /\
    cacheMap (fileCache w) !! key = Some e /\
    now (host w) - timestamp e <= cacheTimeout (config w) * 1000 /\
    files (host w) !! path e = Some data /\ p = path e.
Proof.
  unfold value, FC.get, FC.disabled, FC.Date_now, FC.Deno_stat,
    FC.Deno_remove, FC.cacheMap_set, FC.cacheMap_delete, try_catch, bind,
    gets, modify, ret, throw; simpl.
  destruct (cacheEnabled (config w)); simpl; [|discriminate].
  destruct (isDenoDeploy (fileCache w)); simpl; [discriminate|].
  destruct (cacheMap (fileCache w) !! key) as [e|]; simpl; [|discriminate].
  case_bool_decide as Hold; unfold FC.set_cacheMap, FC.set_files; simpl.
  { destruct (files (host w) !! path e); simpl; discriminate. }
  destruct (files (host w) !! path e) as [data|] eqn:Hf; simpl;
    [|discriminate].
  intros [= <-]. exists e, data. repeat split; try done; lia.
Qed.

End Cache.

(** C7, as stated, fails under Deno Deploy: with [config.cacheEnabled]
    true (and [getCacheStats] reporting the cache as enabled), [set]
    returns the empty string and registers nothing, and the [get] that
    follows returns [null]. *)
Lemma C7_deploy_set_then_get_misses :
  let w := {| fileCache := FC.new true;
              config := {| cacheEnabled := true; cacheTimeout := 3600 |};
              host := {| now := 1000; cwd := "/app"; files := ∅;
                         cacheDir := true |} |} in
  stats_enabled <$> value FC.getCacheStats w = Some true /\
  value (FC.set "k" "http://u" [1; 2; 3]) w = Some ""%string /\
  value (FC.get "k") (exec (FC.set "k" "http://u" [1; 2; 3]) w) = Some None.
Proof. vm_compute. done. Qed.

(** C7 (amended): with caching enabled and outside Deno Deploy, if [set]
    returns a path then a [get] of the same key before the timeout has
    elapsed returns that path; and a [get] once more than the timeout has
    elapsed since the entry was created returns [null], leaves no entry
    under the key, and [getCacheStats] counts one entry fewer. *)
Theorem C7_set_then_get
    (w : CacheWorld) (key url : string) (data : list Z) (p : string) :
  cacheEnabled (config w) = true ->
  isDenoDeploy (fileCache w) = false ->
  value (FC.set key url data) w = Some p ->
  let w1 := exec (FC.set key url data) w in
  (forall d, d <= cacheTimeout (config w) * 1000 ->
     value (FC.get key) (exec (FC.elapse d) w1) = Some (Some p)) /\
  (forall d, d > cacheTimeout (config w) * 1000 ->
     let w2 := exec (FC.get key) (exec (FC.elapse d) w1) in
     value (FC.get key) (exec (FC.elapse d) w1) = Some None /\
     cacheMap (fileCache w2) !! key = None /\
     stats_entries <$> value FC.getCacheStats w1
       = Some (S (size (cacheMap (fileCache w2)))) /\
     stats_entries <$> value FC.getCacheStats w2
       = Some (size (cacheMap (fileCache w2)))).
Proof.
  intros Hon Hdep Hset w1.
  pose proof (set_resolves w key url data p Hon Hdep Hset) as Hdir.
  pose proof (set_run w key url data Hon Hdep Hdir) as Hrun.
  cbn zeta in Hrun. unfold value in Hset. rewrite Hrun in Hset.
  cbn [result] in Hset. injection Hset as Hp.
  unfold w1, exec. rewrite Hrun, Hp. cbn [final]. clear Hrun.
  set (e := {| path := p; url := url; timestamp := now (host w);
               accessCount := 1 |}).
  split.
  - intros d Hd. unfold value.
    erewrite (get_hit _ key e data); [done|done|done|..].
    + simpl. by rewrite lookup_insert_eq.
    + simpl. lia.
    + simpl. by rewrite lookup_insert_eq.
  - intros d Hd. cbn zeta. unfold value, exec.
    erewrite (get_expired _ key e); [|done|done|..].
    + cbn [result final]. split; [done|]. split.
      * simpl. by rewrite lookup_delete_eq.
      * simpl. rewrite map_size_insert, delete_insert_eq.
        split; [|done]. f_equal.
        destruct (cacheMap (fileCache w) !! key) eqn:Hk.
        -- rewrite map_size_delete, Hk.
           assert (size (cacheMap (fileCache w)) <> 0%nat).
           { apply map_size_ne_0_lookup_2 with key. by rewrite Hk. }
           unfold Datatypes.id. lia.
        -- by rewrite delete_id.
    + simpl. by rewrite lookup_insert_eq.
    + simpl. lia.
Qed.

Lemma C7_set_then_get_witness :
  let w := {| fileCache := FC.new false;
              config := {| cacheEnabled := true; cacheTimeout := 3600 |};
              host := {| now := 1000; cwd := "/app"; files := ∅;
                         cacheDir := true |} |} in
  let p := "/app/cache/a_b_1000"%string in
  let w1 := exec (FC.set "a/b" "http://u" [1; 2; 3]) w in
  cacheEnabled (config w) = true /\
  isDenoDeploy (fileCache w) = false /\
  value (FC.set "a/b" "http://u" [1; 2; 3]) w = Some p /\
  (forall d, d <= cacheTimeout (config w) * 1000 ->
     value (FC.get "a/b") (exec (FC.elapse d) w1) = Some (Some p)) /\
  (forall d, d > cacheTimeout (config w) * 1000 ->
     let w2 := exec (FC.get "a/b") (exec (FC.elapse d) w1) in
     value (FC.get "a/b") (exec (FC.elapse d) w1) = Some None /\
     cacheMap (fileCache w2) !! "a/b"%string = None /\
     stats_entries <$> value FC.getCacheStats w1
       = Some (S (size (cacheMap (fileCache w2)))) /\
     stats_entries <$> value FC.getCacheStats w2
       = Some (size (cacheMap (fileCache w2)))).
Proof.
  intros w p w1.
  assert (cacheEnabled (config w) = true) as H1 by reflexivity.
  assert (isDenoDeploy (fileCache w) = false) as H2 by reflexivity.
  assert (value (FC.set "a/b" "http://u" [1; 2; 3]) w = Some p) as H3
    by (vm_compute; reflexivity).
  repeat (split; [assumption|]).
  exact (C7_set_then_get w "a/b" "http://u" [1; 2; 3] p H1 H2 H3).
Defined.

(** C8, as stated, fails on the timestamp: a cache entry has one time
    field, set when the entry is created, and a successful read at a later
    time leaves it as it was; no field records the time of the read. *)
Lemma C8_read_keeps_timestamp :
  let e := {| path := "/app/cache/k_1000"; url := "http://u";
              timestamp := 1000; accessCount := 1 |} in
  let w := {| fileCache := {| cacheMap := {[ "k"%string := e ]};
                              isDenoDeploy := false |};
              config := {| cacheEnabled := true; cacheTimeout := 3600 |};
              host := {| now := 2000; cwd := "/app";
                         files := {[ "/app/cache/k_1000"%string := [1; 2; 3] ]};
                         cacheDir := true |} |} in
  value (FC.get "k") w = Some (Some "/app/cache/k_1000"%string) /\
  cacheMap (fileCache (exec (FC.get "k") w)) !! "k"%string
    = Some {| path := "/app/cache/k_1000"; url := "http://u";
              timestamp := 1000; accessCount := 2 |} /\
  timestamp <$> cacheMap (fileCache (exec (FC.get "k") w)) !! "k"%string
    <> Some (now (host w)).
Proof. vm_compute. repeat split; congruence. Qed.

(** C8 (amended): a [get] that returns a path leaves under the key the
    entry it found with [accessCount] raised by exactly one and [path],
    [url] and [timestamp] as they were, returns that entry's path, and
    changes nothing else in the index, the configuration or the host. *)
Theorem C8_read_counts_access (w : CacheWorld) (key p : string) :
  value (FC.get key) w = Some (Some p) ->
  exists e,
    cacheMap (fileCache w) !! key = Some e /\ p = path e /\
    exec (FC.get key) w =
    FC.set_cacheMap
      (<[key := {| path := path e; url := url e; timestamp := timestamp e;
                   accessCount := accessCount e + 1 |}]>
         (cacheMap (fileCache w))) w.
Proof.
  intros Hget.
  destruct (get_some_inv w key p Hget)
    as (e & data & Hon & Hdep & He & Hlive & Hfile & ->).
  exists e. split; [done|]. split; [done|].
  unfold exec. by rewrite (get_hit w key e data).
Qed.

Lemma C8_read_counts_access_witness :
  let e := {| path := "/app/cache/k_1000"; url := "http://u";
              timestamp := 1000; accessCount := 1 |} in
  let w := {| fileCache := {| cacheMap := {[ "k"%string := e ]};
                              isDenoDeploy := false |};
              config := {| cacheEnabled := true; cacheTimeout := 3600 |};
              host := {| now := 2000; cwd := "/app";
                         files := {[ "/app/cache/k_1000"%string := [1; 2; 3] ]};
                         cacheDir := true |} |} in
  value (FC.get "k") w = Some (Some "/app/cache/k_1000"%string) /\
  exists e',
    cacheMap (fileCache w) !! "k"%string = Some e' /\
    "/app/cache/k_1000"%string = path e' /\
    exec (FC.get "k") w =
    FC.set_cacheMap
      (<["k"%string := {| path := path e'; url := url e';
                          timestamp := timestamp e';
                          accessCount := accessCount e' + 1 |}]>
         (cacheMap (fileCache w))) w.
Proof.
  intros e w.
  assert (value (FC.get "k") w = Some (Some "/app/cache/k_1000"%string))
    as H1 by (vm_compute; reflexivity).
  split; [exact H1|].
  exact (C8_read_counts_access w "k" "/app/cache/k_1000" H1).
Defined.

(** *** The request handler *)

Section Handler.
Implicit Types (a : Activation) (env : RequestEnv)
  (request : ChatCompletionRequest).

Lemma same_ledger_refl a : same_ledger a a.
Proof. by repeat split. Qed.

Lemma same_ledger_trans a1 a2 a3 :
  same_ledger a1 a2 -> same_ledger a2 a3 -> same_ledger a1 a3.
Proof.
  intros (H1 & H2 & H3 & H4) (H1' & H2' & H3' & H4').
  repeat split; congruence.
Qed.

Lemma preserves_bind {A B} (m : Eff Activation A)
    (k : A -> Eff Activation B) :
  preserves same_ledger m -> (forall x, preserves same_ledger (k x)) ->
  preserves same_ledger (bind m k).
Proof.
  intros Hm Hk a. specialize (Hm a). unfold bind.
  destruct (m a) as [[x| |] a1 out]; cbn [final] in *; try done.
  specialize (Hk x a1). destruct (k x a1) as [res a2 out'].
  cbn [final] in *. by eapply same_ledger_trans.
Qed.

Lemma preserves_try_catch {A} (m : Eff Activation A)
    (h : string -> Eff Activation A) :
  preserves same_ledger m -> (forall e, preserves same_ledger (h e)) ->
  preserves same_ledger (try_catch m h).
Proof.
  intros Hm Hh a. specialize (Hm a). unfold try_catch.
  destruct (m a) as [[x|e|] a1 out]; cbn [final] in *; try done.
  specialize (Hh e a1). destruct (h e a1) as [res a2 out'].
  cbn [final] in *. by eapply same_ledger_trans.
Qed.

Lemma preserves_ret {A} (x : A) : preserves same_ledger (ret x).
Proof. intros a. apply same_ledger_refl. Qed.

Lemma preserves_throw {A} e : preserves same_ledger (@throw _ A e).
Proof. intros a. apply same_ledger_refl. Qed.

Lemma preserves_gets {A} (f : Activation -> A) :
  preserves same_ledger (gets f).
Proof. intros a. apply same_ledger_refl. Qed.

Lemma preserves_onDB_tasks {A} (m : Eff Database A) :
  (forall d, logs (final (m d)) = logs d) ->
  preserves same_ledger (GH.onDB m).
Proof.
  intros Hm a. unfold GH.onDB, zoom. specialize (Hm (db (self a))).
  destruct (m (db (self a))) as [res d out]. by repeat split.
Qed.

Lemma preserves_yield c : preserves same_ledger (GH.yield_ c).
Proof.
  intros a. unfold GH.yield_, bind, gets, modify, ret, throw; simpl.
  destruct (consumer a) as [|[|e|] rs]; by repeat split.
Qed.

Lemma preserves_await_upstream env call :
  preserves same_ledger (GH.await_upstream env call).
Proof.
  intros a. unfold GH.await_upstream, bind, modify, ret, throw; simpl.
  destruct (soraClient env call); by repeat split.
Qed.

Lemma preserves_parseRequest request :
  preserves same_ledger (GH.parseRequest request).
Proof.
  unfold GH.parseRequest. destruct (last (messages request));
    [apply preserves_ret|apply preserves_throw].
Qed.

Lemma preserves_set_resultUrl v : preserves same_ledger (GH.set_resultUrl v).
Proof. intros a. by repeat split. Qed.

Lemma preserves_set_error v : preserves same_ledger (GH.set_error v).
Proof. intros a. by repeat split. Qed.

Lemma preserves_recover request requestId e :
  preserves same_ledger (GH.recover request requestId e).
Proof.
  unfold GH.recover.
  apply preserves_bind; [apply preserves_set_error|intros _].
  apply preserves_bind; [apply preserves_gets|intros t].
  apply preserves_yield.
Qed.

Ltac ledger :=
  repeat first
    [ apply preserves_ret | apply preserves_throw | apply preserves_gets
    | apply preserves_yield | apply preserves_await_upstream
    | apply preserves_parseRequest | apply preserves_set_resultUrl
    | apply preserves_onDB_tasks; intros ?; reflexivity
    | apply preserves_bind; [|intros ?]
    | match goal with
      | |- preserves _ (if ?b then _ else _) => destruct b
      | |- preserves _ (match ?x with Some _ => _ | None => _ end) =>
          destruct x
      end ].

(** [getToken] always resolves, quietly. *)
Lemma getToken_quiet lb :
  LB.getToken lb = Run (Resolved (handed lb)) (exec LB.getToken lb) [].
Proof.
  destruct lb as [[toks idx] cm]. fold (pool toks idx cm).
  unfold handed, value, exec. rewrite getToken_run.
  by destruct (getToken_loop_run (length toks) toks idx cm)
    as (r & idx' & -> & _).
Qed.

(** The [try] block: it stores what [getToken] handed over, and touches
    neither the log rows nor the releases. *)
Lemma attempt_ledger env request requestId a :
  let a' := final (GH.attempt env request requestId a) in
  logs (db (self a')) = logs (db (self a)) /\
  released a' = released a /\
  tokenUsed a' = handed (loadBalancer (self a)) /\
  loadBalancer (self a') = exec LB.getToken (loadBalancer (self a)).
Proof.
  unfold GH.attempt.
  erewrite bind_quiet;
    [|unfold GH.onLB, zoom; by rewrite getToken_quiet].
  erewrite bind_quiet; [|reflexivity].
  match goal with
  | |- context [final (?m ?s)] =>
      assert (preserves same_ledger m) as Hrest;
      [|destruct (Hrest s) as (H1 & H2 & H3 & H4)]
  end.
  { unfold GH.Date_now. ledger. }
  cbn zeta. by rewrite H1, H2, H3, H4.
Qed.

(** The [finally] block: one release if a truthy credential is held,
    none otherwise, and one more log row. *)
Lemma finalize_ledger env request requestId startTime a :
  let r := GH.finalize env request requestId startTime a in
  let tok := tokenUsed a in
  exists l,
    result r = Resolved tt /\
    logs (db (self (final r))) = logs (db (self a)) ++ [l] /\
    log_requestId l = requestId /\
    log_model l = model request /\
    log_status l = (if GH.truthy (error a) then "failed" else "completed")%string /\
    log_tokenUsed l = tok /\
    log_processingTime l = clock (self a) - startTime /\
    log_requestSize l = stringified_length env /\
    log_responseSize l =
      (if GH.truthy (resultUrl a)
       then Z.of_nat (String.length (default ""%string (resultUrl a)))
       else 0) /\
    log_error l = error a /\
    released (final r) =
      released a ++ (if GH.truthy tok then [default ""%string tok] else []) /\
    loadBalancer (self (final r)) =
      (if GH.truthy tok
       then exec (LB.releaseToken (default ""%string tok))
                 (loadBalancer (self a))
       else loadBalancer (self a)) /\
    error (final r) = error a /\ resultUrl (final r) = resultUrl a /\
    clock (self (final r)) = clock (self a).
Proof.
  cbn zeta. unfold GH.finalize.
  erewrite bind_quiet; [|reflexivity].
  destruct (GH.truthy (tokenUsed a)) eqn:Htok.
  - erewrite bind_quiet.
    2:{ unfold GH.releaseToken, GH.onLB, LB.releaseToken, LB.onCM, zoom,
          bind, modify.
        rewrite decrementUsage_run. reflexivity. }
    eexists. cbn. unfold exec, LB.releaseToken, LB.onCM, zoom.
    rewrite decrementUsage_run. cbn. repeat split; reflexivity.
  - eexists. cbn. rewrite app_nil_r. repeat split; reflexivity.
Qed.

Lemma try_finally_final {A} (m : Eff Activation A) f a :
  final (try_finally m f a) = final (f (final (m a))).
Proof.
  unfold try_finally. destruct (m a) as [res a1 out]. cbn [final].
  by destruct (f a1) as [[[]|e|] a2 out'].
Qed.

(** The [try]/[catch] pair as a whole. *)
Lemma guarded_ledger env request requestId a :
  let a' := final (try_catch (GH.attempt env request requestId)
                             (GH.recover request requestId) a) in
  logs (db (self a')) = logs (db (self a)) /\
  released a' = released a /\
  tokenUsed a' = handed (loadBalancer (self a)) /\
  loadBalancer (self a') = exec LB.getToken (loadBalancer (self a)).
Proof.
  cbn zeta. unfold try_catch.
  pose proof (attempt_ledger env request requestId a) as Ha.
  cbn zeta in Ha.
  destruct (GH.attempt env request requestId a) as [[x|e|] a1 out];
    cbn [final] in *; try exact Ha.
  pose proof (preserves_recover request requestId e a1) as Hr.
  destruct (GH.recover request requestId e a1) as [res a2 out'].
  cbn [final] in *. destruct Ha as (H1 & H2 & H3 & H4).
  destruct Hr as (H1' & H2' & H3' & H4'). repeat split; congruence.
Qed.

(** The ledger of one whole request, whichever branch it takes and
    whatever the consumer does with the chunks: exactly one log row is
    appended, carrying the request's identifiers, the credential handed
    over, the elapsed time and the sizes; and the credential is released
    once when it is truthy, and not at all otherwise. *)
Lemma handle_ledger env request requestId h rs :
  let r := GH.handleChatCompletion env request requestId (GH.enter h rs) in
  let tok := handed (loadBalancer h) in
  exists l,
    logs (db (self (final r))) = logs (db h) ++ [l] /\
    log_requestId l = requestId /\
    log_model l = model request /\
    log_status l = (if GH.truthy (error (final r))
                    then "failed" else "completed")%string /\
    log_tokenUsed l = tok /\
    log_processingTime l = clock (self (final r)) - clock h /\
    log_requestSize l = stringified_length env /\
    log_responseSize l =
      (if GH.truthy (resultUrl (final r))
       then Z.of_nat (String.length
                        (default ""%string (resultUrl (final r))))
       else 0) /\
    log_error l = error (final r) /\
    released (final r) =
      (if GH.truthy tok then [default ""%string tok] else []) /\
    loadBalancer (self (final r)) =
      (if GH.truthy tok
       then exec (LB.releaseToken (default ""%string tok))
                 (exec LB.getToken (loadBalancer h))
       else exec LB.getToken (loadBalancer h)).
Proof.
  cbn zeta. unfold GH.handleChatCompletion.
  erewrite bind_quiet; [|reflexivity].
  rewrite try_finally_final.
  destruct (guarded_ledger env request requestId (GH.enter h rs))
    as (H1 & H2 & H3 & H4). cbn [GH.enter self released] in *.
  set (a2 := final (try_catch _ _ _)) in *.
  destruct (finalize_ledger env request requestId (clock h) a2)
    as (l & _ & Hl1 & Hl2 & Hl3 & Hl4 & Hl5 & Hl6 & Hl7 & Hl8 & Hl9
          & Hl10 & Hl11 & Hl12 & Hl13 & Hl14).
  exists l. rewrite Hl12, Hl13, Hl14.
  rewrite Hl1, Hl10, Hl11, H1, H2, H3, H4 in *.
  repeat split; assumption.
Qed.

End Handler.

(** C1 fails on the code for a credential whose secret is the empty
    string.  [getToken] admits it and raises its counter, but the handler
    tests the returned string for truthiness: it reports that no token is
    available, and the finalizer skips the release.  Whatever the request,
    the upstream and the consumer do, the credential acquired is never
    released and its counter stays raised; the one log row is written. *)
Theorem C1_empty_secret_never_released
    (env : RequestEnv) (request : ChatCompletionRequest)
    (requestId : string) (rs : list reaction) :
  let toks := [mkToken 1 "" true] in
  let h := {| loadBalancer := pool toks 0 (exec (CM.initialize toks) CM.new);
              db := DB.new; clock := 0 |} in
  let r := GH.handleChatCompletion env request requestId (GH.enter h rs) in
  value LB.getToken (loadBalancer h) = Some (Some ""%string) /\
  released (final r) = [] /\
  tokenUsage (concurrencyManager (loadBalancer (self (final r))))
    !! ""%string = Some {| current := 1; max := 3 |} /\
  exists l, logs (db (self (final r))) = [l] /\
            log_status l = "failed"%string /\
            log_error l = Some "No available tokens"%string.
Proof.
  intros toks h r.
  assert (value LB.getToken (loadBalancer h) = Some (Some ""%string)) as Hget
    by (vm_compute; reflexivity).
  assert (handed (loadBalancer h) = Some ""%string) as Hhanded
    by (unfold handed; by rewrite Hget).
  destruct (handle_ledger env request requestId h rs)
    as (l & Hl1 & _ & _ & Hl4 & _ & _ & _ & _ & Hl9 & Hrel & Hlb).
  fold r in Hl1, Hl4, Hl9, Hrel, Hlb. rewrite Hhanded in Hrel, Hlb.
  cbn [GH.truthy String.eqb negb] in Hrel, Hlb.
  split; [exact Hget|]. split; [exact Hrel|]. split.
  - rewrite Hlb. vm_compute. reflexivity.
  - assert (error (final r) = Some "No available tokens"%string) as Herr
      by (destruct rs as [|[|e|] rs']; vm_compute; reflexivity).
    exists l. split; [exact Hl1|]. rewrite Hl4, Hl9, Herr. by split.
Qed.

(** For every other credential the finalizer does what C1 says: handed a
    non-empty token it releases it exactly once, handed none it releases
    nothing, and in both cases it appends exactly one log row. *)
Lemma handle_releases_once
    (env : RequestEnv) (request : ChatCompletionRequest)
    (requestId : string) (h : GenerationHandler) (rs : list reaction) :
  let r := GH.handleChatCompletion env request requestId (GH.enter h rs) in
  (exists l, logs (db (self (final r))) = logs (db h) ++ [l] /\
             log_tokenUsed l = handed (loadBalancer h)) /\
  (handed (loadBalancer h) = None -> released (final r) = []) /\
  (forall tok, handed (loadBalancer h) = Some tok -> tok <> ""%string ->
     released (final r) = [tok] /\
     loadBalancer (self (final r))
       = exec (LB.releaseToken tok) (exec LB.getToken (loadBalancer h))).
Proof.
  intros r.
  destruct (handle_ledger env request requestId h rs)
    as (l & Hl1 & _ & _ & _ & Hl5 & _ & _ & _ & _ & Hrel & Hlb).
  fold r in Hl1, Hrel, Hlb. split; [by exists l|]. split.
  - intros Hnone. by rewrite Hnone in Hrel.
  - intros tok Hsome Hne. rewrite Hsome in Hrel, Hlb.
    assert (GH.truthy (Some tok) = true) as Ht.
    { simpl. apply negb_true_iff, String.eqb_neq, Hne. }
    rewrite Ht in Hrel, Hlb. by split.
Qed.


(** ** Further properties of the code *)

(** *** Dispatch through the load balancer *)

Section Balancer.
Implicit Types (cm : ConcurrencyManager) (toks : list Token)
  (lb : LoadBalancer).

(** [getToken] in one piece: how it runs, and what its answer means. *)
Lemma getToken_cases toks idx cm :
  let L := TM.enabledTokens {| tokens := toks; tokenIndex := idx |} in
  exists r idx',
    LB.getToken (pool toks idx cm) =
    Run (Resolved r)
        (pool toks idx'
           match r with
           | Some s => exec (CM.incrementUsage s) cm
           | None => cm
           end) [] /\
    match r with
    | Some s => can_use s cm = true /\ exists t, t ∈ L /\ token t = s
    | None => forall t, t ∈ L -> can_use (token t) cm = false
    end.
Proof.
  intros L. rewrite getToken_run.
  destruct (getToken_loop_run (length toks) toks idx cm)
    as (r & idx' & Hrun & Hr).
  fold L in Hr. exists r, idx'. split; [exact Hrun|].
  destruct r as [s|].
  - destruct Hr as (k & t & _ & Ht & Hs & Hcan).
    split; [done|]. exists t. split; [by eapply list_elem_of_lookup_2|done].
  - intros t Ht. apply list_elem_of_lookup in Ht as [j Hj].
    pose proof (lookup_lt_Some _ _ _ Hj) as Hlt.
    destruct (rotation_covers L idx j Hlt) as (k & Hk & Hkj).
    apply (Hr k t); [|by rewrite Hkj].
    pose proof (enabledTokens_length toks idx) as Hlen. fold L in Hlen. lia.
Qed.

Lemma incrementUsage_within cm s :
  can_use s cm = true -> within_budget cm ->
  within_budget (exec (CM.incrementUsage s) cm).
Proof.
  unfold can_use, within_budget, exec. intros Hcan Hcm.
  rewrite incrementUsage_run. cbn [final].
  destruct (tokenUsage cm !! s) as [u|] eqn:Hu; [|done].
  apply bool_decide_eq_true_1 in Hcan.
  apply map_Forall_insert_2; [|exact Hcm].
  pose proof (Hcm _ _ Hu) as Hb. simpl in *. lia.
Qed.

Lemma decrementUsage_within cm s :
  within_budget cm -> within_budget (exec (CM.decrementUsage s) cm).
Proof.
  unfold within_budget, exec. intros Hcm.
  rewrite decrementUsage_run. cbn [final].
  destruct (tokenUsage cm !! s) as [u|] eqn:Hu; [|done].
  case_bool_decide; [|done].
  apply map_Forall_insert_2; [|exact Hcm].
  pose proof (Hcm _ _ Hu) as Hb. simpl in *. lia.
Qed.

Lemma perform_lb_within op lb :
  within_budget (concurrencyManager lb) ->
  within_budget (concurrencyManager (exec (perform_lb op) lb)).
Proof.
  intros Hcm. destruct lb as [[toks idx] cm]. fold (pool toks idx cm) in *.
  cbn [concurrencyManager pool] in Hcm.
  destruct op as [|tok|fromDb]; unfold exec; cbn [perform_lb].
  - destruct (getToken_cases toks idx cm) as (r & idx' & Hrun & Hr).
    erewrite bind_quiet; [|exact Hrun]. cbn [ret final concurrencyManager pool].
    destruct r as [s|]; [|done].
    apply incrementUsage_within; [apply Hr|done].
  - unfold LB.releaseToken, LB.onCM, zoom. cbn [concurrencyManager pool].
    rewrite decrementUsage_run. cbn [final concurrencyManager].
    pose proof (decrementUsage_within cm tok Hcm) as Hd.
    unfold exec in Hd. by rewrite decrementUsage_run in Hd.
  - done.
Qed.

End Balancer.

(** X1: a load balancer whose counters are within budget stays within
    budget whatever sequence of [getToken] calls, [releaseToken] calls (on
    any string, acquired or not) and pool reloads is run on it. *)
Theorem X1_balancer_keeps_budget (ops : list lb_op) (lb : LoadBalancer) :
  within_budget (concurrencyManager lb) ->
  within_budget (concurrencyManager (perform_lb_all ops lb)).
Proof.
  revert lb; induction ops as [|op ops IH]; intros lb Hlb; [exact Hlb|].
  apply IH, perform_lb_within, Hlb.
Qed.

Lemma X1_balancer_keeps_budget_witness :
  let toks := [mkToken 1 "a" true; mkToken 2 "b" true] in
  let lb := pool toks 0 (exec (CM.initialize toks) CM.new) in
  let ops := [GetToken; GetToken; ReleaseToken "zz"; GetToken; GetToken;
              ReleaseToken "a"; ReleaseToken "a"; ReleaseToken "a";
              LoadTokens [mkToken 3 "a" true]; GetToken; GetToken; GetToken;
              GetToken; GetToken] in
  within_budget (concurrencyManager lb) /\
  within_budget (concurrencyManager (perform_lb_all ops lb)).
Proof.
  intros toks lb ops.
  assert (within_budget (concurrencyManager lb)) as H1.
  { apply (bool_decide_unpack _). vm_compute. exact I. }
  split; [exact H1|]. exact (X1_balancer_keeps_budget ops lb H1).
Defined.

Lemma getToken_release_restores (lb : LoadBalancer) (s : string) :
  never_negative (concurrencyManager lb) ->
  value LB.getToken lb = Some (Some s) ->
  concurrencyManager (exec (LB.releaseToken s) (exec LB.getToken lb))
  = concurrencyManager lb.
Proof.
  intros Hnn Hget. destruct lb as [[toks idx] cm].
  fold (pool toks idx cm) in *. cbn [concurrencyManager pool] in *.
  destruct (getToken_cases toks idx cm) as (r & idx' & Hrun & Hr).
  unfold value in Hget. unfold exec at 2. rewrite Hrun in Hget |- *.
  cbn [result final] in *. injection Hget as ->. destruct Hr as [Hcan _].
  unfold exec, LB.releaseToken, LB.onCM, zoom. cbn [concurrencyManager pool].
  rewrite decrementUsage_run, incrementUsage_run.
  cbn [final concurrencyManager].
  unfold can_use in Hcan.
  destruct (tokenUsage cm !! s) as [u|] eqn:Hu; [|done].
  cbn [tokenUsage CM.set_usage]. rewrite lookup_insert_eq.
  pose proof (Hnn _ _ Hu) as Hu0. simpl in Hu0.
  cbn [current max]. rewrite bool_decide_eq_true_2 by lia.
  unfold CM.set_usage. cbn [tokenUsage maxConcurrentPerToken].
  rewrite insert_insert_eq.
  replace (current u + 1 - 1) with (current u) by lia.
  destruct cm as [m mc], u as [c mx]. cbn in *. f_equal.
  by apply insert_id.
Qed.

(** X2: acquire then release is a round trip.  When [getToken] hands out
    a token and no counter is negative, releasing that token puts the
    admission state back exactly as it was before the [getToken]. *)
Theorem X2_acquire_release_round_trip (lb : LoadBalancer) (s : string) :
  never_negative (concurrencyManager lb) ->
  value LB.getToken lb = Some (Some s) ->
  concurrencyManager (exec (LB.releaseToken s) (exec LB.getToken lb))
  = concurrencyManager lb.
Proof. apply getToken_release_restores. Qed.

Lemma X2_acquire_release_round_trip_witness :
  let toks := [mkToken 1 "a" true; mkToken 2 "b" true] in
  let lb := pool toks 1 (exec (CM.initialize toks) CM.new) in
  never_negative (concurrencyManager lb) /\
  value LB.getToken lb = Some (Some "b"%string) /\
  concurrencyManager (exec (LB.releaseToken "b") (exec LB.getToken lb))
  = concurrencyManager lb.
Proof.
  intros toks lb.
  assert (never_negative (concurrencyManager lb)) as H1.
  { apply (bool_decide_unpack _). vm_compute. exact I. }
  assert (value LB.getToken lb = Some (Some "b"%string)) as H2
    by (vm_compute; reflexivity).
  split; [exact H1|split; [exact H2|]].
  exact (X2_acquire_release_round_trip lb "b" H1 H2).
Defined.

(** X3: [getToken] never changes the list of credentials, and when it
    finds no capacity it leaves every counter as it was: the candidates
    it turned down are not charged. *)
Theorem X3_no_capacity_charges_nothing (lb : LoadBalancer) :
  tokens (tokenManager (exec LB.getToken lb)) = tokens (tokenManager lb) /\
  (value LB.getToken lb = Some None ->
   concurrencyManager (exec LB.getToken lb) = concurrencyManager lb).
Proof.
  destruct lb as [[toks idx] cm]. fold (pool toks idx cm).
  destruct (getToken_cases toks idx cm) as (r & idx' & Hrun & _).
  unfold value, exec. rewrite Hrun. cbn. split; [done|].
  by intros [= ->].
Qed.

Lemma X3_no_capacity_charges_nothing_witness :
  let toks := [mkToken 1 "a" true] in
  let lb := pool toks 0
              (exec (times 3 (acquire "a")) (exec (CM.initialize toks) CM.new)) in
  value LB.getToken lb = Some None /\
  tokens (tokenManager (exec LB.getToken lb)) = tokens (tokenManager lb) /\
  concurrencyManager (exec LB.getToken lb) = concurrencyManager lb.
Proof.
  intros toks lb.
  assert (value LB.getToken lb = Some None) as H1 by (vm_compute; reflexivity).
  split; [exact H1|]. split.
  - exact (proj1 (X3_no_capacity_charges_nothing lb)).
  - exact (proj2 (X3_no_capacity_charges_nothing lb) H1).
Defined.

(** *** Free capacity *)

Section Capacity.
Implicit Types (cm : ConcurrencyManager) (toks : list Token)
  (lb : LoadBalancer).

Lemma free_slots_zero cm s : free_slots cm s = 0%nat <-> can_use s cm = false.
Proof.
  unfold free_slots, can_use. destruct (tokenUsage cm !! s) as [u|]; [|done].
  rewrite bool_decide_eq_false. lia.
Qed.

Lemma sum_list_with_zero {A} (f : A -> nat) (l : list A) :
  sum_list_with f l = 0%nat <-> forall x, x ∈ l -> f x = 0%nat.
Proof.
  induction l as [|y l IH]; simpl.
  - split; [|done]. intros _ x Hx. by apply elem_of_nil in Hx.
  - split.
    + intros Hsum x Hx. apply elem_of_cons in Hx as [->|Hx]; [lia|].
      apply IH; [lia|done].
    + intros Hall. rewrite (Hall y) by left.
      apply IH. intros x Hx. apply Hall. by right.
Qed.

(** Changing [f] at one element of a duplicate-free list moves the sum by
    the change at that element. *)
Lemma sum_list_with_change {A} (f g : A -> nat) (l : list A) (a : A) :
  NoDup l -> a ∈ l -> (forall x, x <> a -> g x = f x) ->
  (sum_list_with g l + f a = sum_list_with f l + g a)%nat.
Proof.
  intros Hnd Ha Hsame. induction Hnd as [|y l Hy Hnd IH]; simpl.
  - by apply elem_of_nil in Ha.
  - apply elem_of_cons in Ha as [->|Ha].
    + assert (sum_list_with g l = sum_list_with f l) as ->; [|lia].
      clear IH. induction l as [|z l IHl]; [done|]. simpl.
      apply not_elem_of_cons in Hy as [Hne Hy].
      apply NoDup_cons in Hnd as [_ Hnd].
      rewrite (Hsame z) by done. by rewrite IHl.
    + rewrite (Hsame y) by (intros ->; done). specialize (IH Ha). lia.
Qed.

Lemma capacity_zero toks idx cm :
  capacity (pool toks idx cm) = 0%nat <->
  forall t, t ∈ TM.enabledTokens {| tokens := toks; tokenIndex := idx |} ->
    can_use (token t) cm = false.
Proof.
  unfold capacity. cbn [concurrencyManager tokenManager pool].
  rewrite sum_list_with_zero. split.
  - intros H t Ht. apply free_slots_zero, H, elem_of_remove_dups.
    by apply list_elem_of_fmap_2.
  - intros H s Hs. apply elem_of_remove_dups, list_elem_of_fmap in Hs
      as (t & -> & Ht). by apply free_slots_zero, H.
Qed.

(** An admission uses up exactly one slot. *)
Lemma capacity_after_increment toks idx idx' cm s t :
  t ∈ TM.enabledTokens {| tokens := toks; tokenIndex := idx |} ->
  token t = s -> can_use s cm = true ->
  capacity (pool toks idx cm) =
  S (capacity (pool toks idx' (exec (CM.incrementUsage s) cm))).
Proof.
  intros Ht Hs Hcan. unfold capacity.
  cbn [concurrencyManager tokenManager pool].
  change (TM.enabledTokens {| tokens := toks; tokenIndex := idx' |})
    with (TM.enabledTokens {| tokens := toks; tokenIndex := idx |}).
  set (l := remove_dups _).
  assert (s ∈ l) as Hin.
  { apply elem_of_remove_dups. rewrite <-Hs. by apply list_elem_of_fmap_2. }
  pose proof (sum_list_with_change
                (free_slots cm)
                (free_slots (exec (CM.incrementUsage s) cm)) l s
                (NoDup_remove_dups _) Hin) as Hsum.
  unfold can_use in Hcan. unfold exec in *.
  rewrite incrementUsage_run in *. cbn [final] in *.
  destruct (tokenUsage cm !! s) as [u|] eqn:Hu; [|done].
  apply bool_decide_eq_true_1 in Hcan.
  assert (free_slots cm s = S (free_slots
            (CM.set_usage
               (<[s := {| current := current u + 1; max := max u |}]>
                  (tokenUsage cm)) cm) s)) as Hs1.
  { unfold free_slots. cbn [tokenUsage CM.set_usage].
    rewrite Hu, lookup_insert_eq. cbn [current max]. lia. }
  rewrite Hs1 in Hsum.
  assert (forall x, x <> s ->
            free_slots
              (CM.set_usage
                 (<[s := {| current := current u + 1; max := max u |}]>
                    (tokenUsage cm)) cm) x = free_slots cm x) as Hother.
  { intros x Hx. unfold free_slots. cbn [tokenUsage CM.set_usage].
    by rewrite lookup_insert_ne. }
  specialize (Hsum Hother). lia.
Qed.

(** With nothing free every call finds no capacity. *)
Lemma getToken_times_exhausted (m : nat) toks idx cm :
  capacity (pool toks idx cm) = 0%nat ->
  exists idx',
    times m LB.getToken (pool toks idx cm) =
    Run (Resolved (replicate m None)) (pool toks idx' cm) [].
Proof.
  revert idx; induction m as [|m IH]; intros idx Hcap; [by exists idx|].
  destruct (getToken_cases toks idx cm) as (r & idx1 & Hrun & Hr).
  destruct r as [s|].
  { destruct Hr as (Hcan & t & Ht & Hs).
    rewrite capacity_zero in Hcap. rewrite <-Hs, (Hcap t Ht) in Hcan.
    discriminate. }
  destruct (IH idx1) as [idx' Hrest].
  { rewrite capacity_zero in Hcap |- *. exact Hcap. }
  exists idx'. rewrite times_S.
  erewrite bind_quiet; [|exact Hrun].
  erewrite bind_quiet; [|exact Hrest]. reflexivity.
Qed.

Lemma getToken_times_capacity (n m : nat) toks :
  forall idx cm,
    capacity (pool toks idx cm) = n ->
    exists (got : list string) lb',
      length got = n /\
      times (n + m) LB.getToken (pool toks idx cm) =
      Run (Resolved ((Some <$> got) ++ replicate m None)) lb' [].
Proof.
  induction n as [|n IH]; intros idx cm Hcap.
  - destruct (getToken_times_exhausted m toks idx cm Hcap) as [idx' Hrun].
    by exists [], (pool toks idx' cm).
  - destruct (getToken_cases toks idx cm) as (r & idx1 & Hrun & Hr).
    destruct r as [s|].
    2:{ apply capacity_zero in Hr. rewrite Hr in Hcap. discriminate. }
    destruct Hr as (Hcan & t & Ht & Hs).
    rewrite (capacity_after_increment toks idx idx1 cm s t Ht Hs Hcan)
      in Hcap.
    injection Hcap as Hcap.
    destruct (IH idx1 _ Hcap) as (got & lb' & Hlen & Hrest).
    exists (s :: got), lb'. split; [simpl; by rewrite Hlen|].
    cbn [Nat.add]. rewrite times_S.
    erewrite bind_quiet; [|exact Hrun].
    erewrite bind_quiet; [|exact Hrest]. reflexivity.
Qed.

End Capacity.

(** X4: the number of admissions a pool takes before it reports no
    capacity is its free capacity: the free slots of its enabled
    credentials, each secret counted once, where a secret has [max -
    current] free slots when that is positive and none when it is
    untracked or its counter is at or above its budget.  In any run of
    consecutive [getToken] calls exactly the first [capacity] return a
    token and every later one returns [null]. *)
Theorem X4_admissions_equal_capacity (lb : LoadBalancer) (m : nat) :
  exists got : list string,
    length got = capacity lb /\
    value (times (capacity lb + m) LB.getToken) lb
    = Some ((Some <$> got) ++ replicate m None).
Proof.
  destruct lb as [[toks idx] cm]. fold (pool toks idx cm).
  destruct (getToken_times_capacity (capacity (pool toks idx cm)) m toks
              idx cm eq_refl) as (got & lb' & Hlen & Hrun).
  exists got. split; [exact Hlen|]. unfold value. by rewrite Hrun.
Qed.

Example capacity_counts_secrets_once :
  let toks := [mkToken 1 "a" true; mkToken 2 "a" true; mkToken 3 "b" true;
               mkToken 4 "c" false] in
  capacity (pool toks 0 (exec (CM.initialize toks) CM.new)) = 6%nat.
Proof. vm_compute. reflexivity. Qed.

(** *** The rotation cursor *)

(** X5: [getNextToken] is safe for any cursor value, also one left over
    from a larger pool.  With no enabled credential it returns [null] and
    changes nothing; otherwise it returns a credential that is in the list
    and enabled, keeps the list, and leaves the cursor below the number of
    enabled credentials. *)
Theorem X5_next_token_any_cursor (tm : TokenManager) :
  (TM.enabledTokens tm = [] ->
   TM.getNextToken tm = Run (Resolved None) tm []) /\
  (TM.enabledTokens tm <> [] ->
   exists t,
     value TM.getNextToken tm = Some (Some t) /\
     t ∈ tokens tm /\ enabled t = true /\
     tokens (exec TM.getNextToken tm) = tokens tm /\
     (tokenIndex (exec TM.getNextToken tm)
      < length (TM.enabledTokens tm))%nat).
Proof.
  pose proof (getNextToken_run tm) as Hrun. cbn zeta in Hrun.
  split.
  - intros Hnil. rewrite Hnil in Hrun. by rewrite Hrun.
  - intros Hne.
    assert (0 < length (TM.enabledTokens tm))%nat as Hlen.
    { destruct (TM.enabledTokens tm); [done|simpl; lia]. }
    rewrite decide_False in Hrun by lia.
    pose proof (rotate_nat_add_lt (tokenIndex tm) 0 _ Hlen) as Hlt.
    destruct (lookup_lt_is_Some_2 _ _ Hlt) as [t Ht].
    exists t. unfold value, exec. rewrite Hrun. cbn [result final tokens
      tokenIndex]. rewrite Ht.
    apply list_elem_of_lookup_2 in Ht.
    apply list_elem_of_filter in Ht as [Hen Hin].
    repeat split; try done. by apply rotate_nat_add_lt.
Qed.

Lemma X5_next_token_any_cursor_witness :
  let tm := {| tokens := [mkToken 1 "a" false; mkToken 2 "b" true;
                          mkToken 3 "c" true];
               tokenIndex := 7 |} in
  TM.enabledTokens tm <> [] /\
  exists t,
    value TM.getNextToken tm = Some (Some t) /\
    t ∈ tokens tm /\ enabled t = true /\
    tokens (exec TM.getNextToken tm) = tokens tm /\
    (tokenIndex (exec TM.getNextToken tm)
     < length (TM.enabledTokens tm))%nat.
Proof.
  intros tm.
  assert (TM.enabledTokens tm <> []) as H1 by (vm_compute; discriminate).
  split; [exact H1|]. exact (proj2 (X5_next_token_any_cursor tm) H1).
Defined.

(** *** The sweep *)

Section Sweep.
Implicit Types (w : CacheWorld) (key : string) (e : CacheEntry).

Lemma set_files_id w : FC.set_files (files (host w)) w = w.
Proof. by destruct w as [? ? []]. Qed.

Lemma set_cacheMap_id w : FC.set_cacheMap (cacheMap (fileCache w)) w = w.
Proof. by destruct w as [[] ? ?]. Qed.

(** [try { await Deno.remove(p) } catch {}] never fails, and afterwards
    the file is not there. *)
Lemma remove_quiet w p :
  try_catch (FC.Deno_remove p) (fun _ => ret tt) w =
  Run (Resolved tt) (FC.set_files (delete p (files (host w))) w) [].
Proof.
  unfold try_catch, FC.Deno_remove, bind, gets, modify, throw, ret.
  destruct (files (host w) !! p) eqn:Hp; [done|].
  rewrite (delete_id _ _ Hp). by rewrite set_files_id.
Qed.

Lemma cleanup_scan_run (t timeoutMs : Z) (entries : list (string * CacheEntry)) w :
  let old := filter (fun kv : string * CacheEntry =>
                       t - timestamp kv.2 > timeoutMs) entries in
  FC.cleanup_scan t timeoutMs entries w =
  Run (Resolved (fst <$> old))
      (FC.set_files
         (foldl (fun fs (kv : string * CacheEntry) => delete (path kv.2) fs)
                (files (host w)) old) w) [].
Proof.
  cbn zeta. revert w. induction entries as [|[key e] rest IH]; intros w.
  - cbn. by rewrite set_files_id.
  - cbn [FC.cleanup_scan]. rewrite filter_cons. cbn [snd].
    case_bool_decide as Hold.
    + rewrite decide_True by done.
      erewrite bind_quiet; [|apply remove_quiet].
      erewrite bind_quiet; [|apply IH]. by destruct w as [? ? []].
    + rewrite decide_False by done. rewrite IH. done.
Qed.

Lemma cleanup_delete_run (keys : list string) w :
  FC.cleanup_delete keys w =
  Run (Resolved tt)
      (FC.set_cacheMap
         (foldl (fun m k => delete k m) (cacheMap (fileCache w)) keys) w) [].
Proof.
  revert w. induction keys as [|k keys IH]; intros w.
  - cbn. by rewrite set_cacheMap_id.
  - cbn [FC.cleanup_delete foldl].
    erewrite bind_quiet; [|reflexivity]. rewrite IH.
    by destruct w as [[] ? ?].
Qed.

Lemma foldl_delete_lookup {A} (keys : list string) (m : gmap string A) i :
  foldl (fun m k => delete k m) m keys !! i =
  if decide (i ∈ keys) then None else m !! i.
Proof.
  revert m. induction keys as [|k keys IH]; intros m.
  - by rewrite decide_False by apply not_elem_of_nil.
  - cbn [foldl]. rewrite IH.
    destruct (decide (i = k)) as [->|Hne].
    + rewrite lookup_delete_eq. rewrite (decide_True (P := k ∈ k :: keys))
        by left. by case_decide.
    + rewrite lookup_delete_ne by done.
      case_decide as H1; case_decide as H2; try done.
      * exfalso. apply H2. by right.
      * apply elem_of_cons in H2 as [?|?]; done.
Qed.

Lemma foldl_delete_path_lookup (old : list (string * CacheEntry))
    (fs : gmap string (list Z)) p :
  foldl (fun fs (kv : string * CacheEntry) => delete (path kv.2) fs) fs old
    !! p =
  if decide (p ∈ (fun kv : string * CacheEntry => path kv.2) <$> old)
  then None else fs !! p.
Proof.
  revert fs. induction old as [|[k e] old IH]; intros fs.
  - by rewrite decide_False by apply not_elem_of_nil.
  - cbn [foldl fmap list_fmap snd]. rewrite IH.
    destruct (decide (p = path e)) as [->|Hne].
    + rewrite lookup_delete_eq.
      rewrite (decide_True (P := path e ∈ path e :: _)) by left.
      by case_decide.
    + rewrite lookup_delete_ne by done.
      case_decide as H1; case_decide as H2; try done.
      * exfalso. apply H2. by right.
      * apply elem_of_cons in H2 as [?|?]; done.
Qed.

End Sweep.

(** X6: a sweep removes from the index exactly the entries older than the
    timeout and keeps every other entry as it is; the file of every
    removed entry is gone afterwards, and no other file is touched; the
    call resolves and prints one line with the number removed. *)
Theorem X6_sweep_removes_exactly_expired (w : CacheWorld) :
  cacheEnabled (config w) = true ->
  isDenoDeploy (fileCache w) = false ->
  let w' := exec FC.cleanup w in
  let old := filter (fun kv : string * CacheEntry => expired w kv.2)
                    (map_to_list (cacheMap (fileCache w))) in
  (forall key,
     cacheMap (fileCache w') !! key =
     match cacheMap (fileCache w) !! key with
     | Some e => if decide (expired w e) then None else Some e
     | None => None
     end) /\
  (forall key e, cacheMap (fileCache w) !! key = Some e -> expired w e ->
     files (host w') !! path e = None) /\
  (forall p,
     (forall key e, cacheMap (fileCache w) !! key = Some e -> expired w e ->
        path e <> p) ->
     files (host w') !! p = files (host w) !! p) /\
  result (FC.cleanup w) = Resolved tt /\
  console (FC.cleanup w) =
    ["Cache cleanup completed. Removed " +:+ pretty (length old)
     +:+ " expired entries."].
Proof.
  intros Hon Hdep w' old.
  assert (FC.cleanup w =
          Run (Resolved tt)
              (FC.set_cacheMap
                 (foldl (fun m k => delete k m) (cacheMap (fileCache w))
                        (fst <$> old))
                 (FC.set_files
                    (foldl (fun fs (kv : string * CacheEntry) =>
                              delete (path kv.2) fs)
                           (files (host w)) old) w))
              ["Cache cleanup completed. Removed " +:+ pretty (length old)
               +:+ " expired entries."]) as Hrun.
  { unfold FC.cleanup.
    erewrite bind_quiet;
      [|unfold FC.disabled, gets; by rewrite Hon, Hdep].
    cbn [negb orb].
    erewrite bind_quiet; [|reflexivity].
    erewrite bind_quiet; [|reflexivity].
    erewrite bind_quiet; [|reflexivity].
    erewrite bind_quiet; [|apply cleanup_scan_run].
    erewrite bind_quiet; [|apply cleanup_delete_run].
    unfold console_log. by rewrite length_fmap. }
  unfold w', exec. rewrite Hrun. cbn [final result console].
  split; [|split; [|split; [|done]]].
  - intros key. cbn. rewrite foldl_delete_lookup.
    destruct (cacheMap (fileCache w) !! key) as [e|] eqn:He.
    + destruct (decide (expired w e)) as [Hold|Hlive].
      * rewrite decide_True; [done|].
        apply list_elem_of_fmap. exists (key, e). split; [done|].
        apply list_elem_of_filter. split; [done|].
        by apply elem_of_map_to_list.
      * rewrite decide_False; [done|].
        intros Hin. apply list_elem_of_fmap in Hin as ([k e'] & -> & Hin).
        apply list_elem_of_filter in Hin as [Hold Hin].
        apply elem_of_map_to_list in Hin. cbn in *.
        rewrite He in Hin. by simplify_eq.
    + by case_decide.
  - intros key e He Hold. cbn. rewrite foldl_delete_path_lookup.
    rewrite decide_True; [done|].
    apply list_elem_of_fmap. exists (key, e). split; [done|].
    apply list_elem_of_filter. split; [done|]. by apply elem_of_map_to_list.
  - intros p Hp. cbn. rewrite foldl_delete_path_lookup.
    rewrite decide_False; [done|].
    intros Hin. apply list_elem_of_fmap in Hin as ([k e] & -> & Hin).
    apply list_elem_of_filter in Hin as [Hold Hin].
    apply elem_of_map_to_list in Hin. by apply (Hp k e).
Qed.

Lemma X6_sweep_removes_exactly_expired_witness :
  let old := {| path := "/app/cache/o_1000"; url := "http://o";
                timestamp := 1000; accessCount := 1 |} in
  let live := {| path := "/app/cache/n_9000000"; url := "http://n";
                 timestamp := 9000000; accessCount := 4 |} in
  let w := {| fileCache := {| cacheMap := {[ "o"%string := old;
                                             "n"%string := live ]};
                              isDenoDeploy := false |};
              config := {| cacheEnabled := true; cacheTimeout := 3600 |};
              host := {| now := 9000001; cwd := "/app";
                         files := {[ "/app/cache/o_1000"%string := [1];
                                     "/app/cache/n_9000000"%string := [2] ]};
                         cacheDir := true |} |} in
  cacheEnabled (config w) = true /\
  isDenoDeploy (fileCache w) = false /\
  forall key,
    cacheMap (fileCache (exec FC.cleanup w)) !! key =
    match cacheMap (fileCache w) !! key with
    | Some e => if decide (expired w e) then None else Some e
    | None => None
    end.
Proof.
  intros old live w.
  assert (cacheEnabled (config w) = true) as H1 by reflexivity.
  assert (isDenoDeploy (fileCache w) = false) as H2 by reflexivity.
  split; [exact H1|split; [exact H2|]].
  exact (proj1 (X6_sweep_removes_exactly_expired w H1 H2)).
Defined.

(** *** Reads and writes at the edges *)

Section CacheEdges.
Implicit Types (w : CacheWorld) (key : string) (e : CacheEntry).

Lemma get_stale w key e :
  cacheEnabled (config w) = true ->
  isDenoDeploy (fileCache w) = false ->
  cacheMap (fileCache w) !! key = Some e ->
  ~ expired w e ->
  files (host w) !! path e = None ->
  FC.get key w =
  Run (Resolved None)
      (FC.set_cacheMap (delete key (cacheMap (fileCache w))) w) [].
Proof.
  intros Hon Hdep He Hlive Hfile.
  unfold FC.get, FC.disabled, FC.Date_now, FC.Deno_stat, FC.cacheMap_set,
    FC.cacheMap_delete, try_catch, bind, gets, modify, ret, throw; simpl.
  rewrite Hon, Hdep; simpl. rewrite He; simpl.
  rewrite bool_decide_eq_false_2 by done. simpl.
  rewrite Hfile. unfold FC.set_cacheMap; simpl.
  by rewrite delete_insert_eq.
Qed.

End CacheEdges.

(** X7: a read of an entry that is not expired but whose file is no
    longer on disk is a miss, and it drops the entry from the index; the
    files and everything else stay as they were. *)
Theorem X7_read_of_missing_file_evicts
    (w : CacheWorld) (key : string) (e : CacheEntry) :
  cacheEnabled (config w) = true ->
  isDenoDeploy (fileCache w) = false ->
  cacheMap (fileCache w) !! key = Some e ->
  ~ expired w e ->
  files (host w) !! path e = None ->
  value (FC.get key) w = Some None /\
  exec (FC.get key) w =
    FC.set_cacheMap (delete key (cacheMap (fileCache w))) w /\
  value (FC.get key) (exec (FC.get key) w) = Some None.
Proof.
  intros Hon Hdep He Hlive Hfile.
  pose proof (get_stale w key e Hon Hdep He Hlive Hfile) as Hrun.
  unfold value at 1, exec. rewrite Hrun. cbn [result final].
  split; [done|]. split; [done|].
  unfold value, FC.get, FC.disabled, bind, gets, ret; simpl.
  rewrite Hon, Hdep; simpl. by rewrite lookup_delete_eq.
Qed.

Lemma X7_read_of_missing_file_evicts_witness :
  let e := {| path := "/app/cache/k_1000"; url := "http://u";
              timestamp := 1000; accessCount := 1 |} in
  let w := {| fileCache := {| cacheMap := {[ "k"%string := e ]};
                              isDenoDeploy := false |};
              config := {| cacheEnabled := true; cacheTimeout := 3600 |};
              host := {| now := 2000; cwd := "/app"; files := ∅;
                         cacheDir := true |} |} in
  cacheEnabled (config w) = true /\
  isDenoDeploy (fileCache w) = false /\
  cacheMap (fileCache w) !! "k"%string = Some e /\
  ~ expired w e /\
  files (host w) !! path e = None /\
  value (FC.get "k") w = Some None /\
  exec (FC.get "k") w =
    FC.set_cacheMap (delete "k"%string (cacheMap (fileCache w))) w /\
  value (FC.get "k") (exec (FC.get "k") w) = Some None.
Proof.
  intros e w.
  assert (cacheEnabled (config w) = true) as H1 by reflexivity.
  assert (isDenoDeploy (fileCache w) = false) as H2 by reflexivity.
  assert (cacheMap (fileCache w) !! "k"%string = Some e) as H3
    by (vm_compute; reflexivity).
  assert (~ expired w e) as H4 by (unfold expired; simpl; lia).
  assert (files (host w) !! path e = None) as H5 by (vm_compute; reflexivity).
  repeat (split; [assumption|]).
  exact (X7_read_of_missing_file_evicts w "k" e H1 H2 H3 H4 H5).
Defined.

(** X8: with caching switched off, or under Deno Deploy, the cache does
    nothing at all: [get] answers [null], [set] answers the empty string
    and writes no file, [cleanup] removes nothing and prints nothing, and
    each leaves the index, the files and the clock untouched. *)
Theorem X8_disabled_cache_is_inert
    (w : CacheWorld) (key url : string) (data : list Z) :
  cacheEnabled (config w) = false \/ isDenoDeploy (fileCache w) = true ->
  FC.get key w = Run (Resolved None) w [] /\
  FC.set key url data w = Run (Resolved ""%string) w [] /\
  FC.cleanup w = Run (Resolved tt) w [].
Proof.
  intros Hoff.
  assert (FC.disabled w = Run (Resolved true) w []) as Hd.
  { unfold FC.disabled, gets. f_equal. f_equal.
    destruct Hoff as [-> | ->]; [done|by destruct (cacheEnabled _)]. }
  unfold FC.get, FC.set, FC.cleanup.
  repeat split; by erewrite bind_quiet; [|exact Hd].
Qed.

Lemma X8_disabled_cache_is_inert_witness :
  let w := {| fileCache := {| cacheMap := {[ "k"%string :=
                                {| path := "/p"; url := "u"; timestamp := 0;
                                   accessCount := 1 |} ]};
                              isDenoDeploy := true |};
              config := {| cacheEnabled := true; cacheTimeout := 3600 |};
              host := {| now := 99999999; cwd := "/app"; files := ∅;
                         cacheDir := true |} |} in
  (cacheEnabled (config w) = false \/ isDenoDeploy (fileCache w) = true) /\
  FC.get "k" w = Run (Resolved None) w [] /\
  FC.set "k" "u" [1] w = Run (Resolved ""%string) w [] /\
  FC.cleanup w = Run (Resolved tt) w [].
Proof.
  intros w.
  assert (cacheEnabled (config w) = false \/ isDenoDeploy (fileCache w) = true)
    as H1 by (right; reflexivity).
  split; [exact H1|]. exact (X8_disabled_cache_is_inert w "k" "u" [1] H1).
Defined.

(** *** File names *)

Section FileNames.

Lemma sanitize_char_unfold c :
  FC.sanitize_char c = if alnum c then c else "_"%char.
Proof. reflexivity. Qed.

Lemma sanitize_char_safe c : filename_char (FC.sanitize_char c) = true.
Proof.
  rewrite sanitize_char_unfold. unfold filename_char.
  destruct (alnum c) eqn:Hc; [by rewrite Hc|reflexivity].
Qed.

Lemma sanitize_char_idem c :
  FC.sanitize_char (FC.sanitize_char c) = FC.sanitize_char c.
Proof.
  rewrite !sanitize_char_unfold.
  destruct (alnum c) eqn:Hc; [by rewrite Hc|reflexivity].
Qed.

Lemma sanitize_char_alnum c : alnum c = true -> FC.sanitize_char c = c.
Proof. rewrite sanitize_char_unfold. by intros ->. Qed.

Lemma cache_path_inj dir f1 f2 :
  FC.cache_path dir f1 = FC.cache_path dir f2 -> f1 = f2.
Proof.
  unfold FC.cache_path. intros H.
  by apply (String.app_inj dir), (String.app_inj "/cache/") in H.
Qed.

End FileNames.

(** X9: the sanitised key has the length of the key, consists of letters,
    digits and underscores only, is unchanged by sanitising again, and is
    the key itself when the key is alphanumeric. *)
Theorem X9_sanitize_safe_and_idempotent (key : string) :
  String.length (FC.sanitize key) = String.length key /\
  string_forall filename_char (FC.sanitize key) = true /\
  FC.sanitize (FC.sanitize key) = FC.sanitize key /\
  (string_forall alnum key = true -> FC.sanitize key = key).
Proof.
  induction key as [|c key (IH1 & IH2 & IH3 & IH4)]; [done|].
  cbn [FC.sanitize String.length string_forall].
  rewrite IH1, IH2, IH3, sanitize_char_safe, sanitize_char_idem.
  repeat split; try done.
  intros [Hc Hkey]%andb_prop.
  by rewrite sanitize_char_alnum, IH4.
Qed.

Lemma X9_sanitize_safe_and_idempotent_witness :
  string_forall alnum "abcXYZ019" = true /\
  FC.sanitize "abcXYZ019" = "abcXYZ019"%string.
Proof.
  assert (string_forall alnum "abcXYZ019" = true) as H1
    by (vm_compute; reflexivity).
  split; [exact H1|].
  exact (proj2 (proj2 (proj2 (X9_sanitize_safe_and_idempotent "abcXYZ019")))
           H1).
Defined.

(** X10: caching a key again at a later time writes a new file and points
    the key's entry at it, and never removes the file written before: the
    old file stays on disk while the index no longer names it under that
    key, and the number of entries does not change. *)
Theorem X10_recaching_leaves_old_file
    (w : CacheWorld) (key url1 url2 : string) (data1 data2 : list Z) (d : Z) :
  cacheEnabled (config w) = true ->
  isDenoDeploy (fileCache w) = false ->
  cacheDir (host w) = true ->
  d <> 0 ->
  let w1 := exec (FC.set key url1 data1) w in
  let w2 := exec (FC.set key url2 data2) (exec (FC.elapse d) w1) in
  exists p1 p2,
    value (FC.set key url1 data1) w = Some p1 /\
    value (FC.set key url2 data2) (exec (FC.elapse d) w1) = Some p2 /\
    p1 <> p2 /\
    files (host w2) !! p1 = Some data1 /\
    files (host w2) !! p2 = Some data2 /\
    path <$> cacheMap (fileCache w2) !! key = Some p2 /\
    size (cacheMap (fileCache w2)) = size (cacheMap (fileCache w1)).
Proof.
  intros Hon Hdep Hdir Hd w1 w2.
  pose proof (set_run w key url1 data1 Hon Hdep Hdir) as Hrun1.
  cbn zeta in Hrun1.
  set (p1 := FC.cache_path (cwd (host w))
               (FC.sanitize key +:+ "_" +:+ pretty (now (host w)))) in *.
  assert (w1 = final (FC.set key url1 data1 w)) as Hw1 by done.
  rewrite Hrun1 in Hw1. cbn [final] in Hw1.
  pose proof (set_run (exec (FC.elapse d) w1) key url2 data2) as Hrun2.
  rewrite Hw1 in Hrun2. cbn zeta in Hrun2.
  specialize (Hrun2 Hon Hdep Hdir).
  change (now (host (exec (FC.elapse d) _))) with (now (host w) + d)
    in Hrun2.
  change (cwd (host (exec (FC.elapse d) _))) with (cwd (host w)) in Hrun2.
  set (p2 := FC.cache_path (cwd (host w))
               (FC.sanitize key +:+ "_" +:+ pretty (now (host w) + d))) in *.
  assert (p1 <> p2) as Hne.
  { intros Heq. apply cache_path_inj in Heq.
    apply (String.app_inj (FC.sanitize key)), (String.app_inj "_") in Heq.
    apply (inj pretty) in Heq. lia. }
  exists p1, p2. unfold value. rewrite Hrun1. cbn [result].
  split; [done|].
  assert (w2 = final (FC.set key url2 data2 (exec (FC.elapse d) w1))) as Hw2
    by done.
  rewrite Hw1 in Hw2 |- *. rewrite Hrun2 in Hw2 |- *. cbn [result final] in *.
  split; [done|]. split; [exact Hne|].
  rewrite Hw2. cbn.
  rewrite lookup_insert_ne by done. rewrite !lookup_insert_eq.
  repeat split; try done.
  rewrite !map_size_insert. rewrite lookup_insert_eq.
  by destruct (cacheMap (fileCache w) !! key).
Qed.

Lemma X10_recaching_leaves_old_file_witness :
  let w := {| fileCache := FC.new false;
              config := {| cacheEnabled := true; cacheTimeout := 3600 |};
              host := {| now := 1000; cwd := "/app"; files := ∅;
                         cacheDir := true |} |} in
  let w1 := exec (FC.set "k" "u1" [1]) w in
  let w2 := exec (FC.set "k" "u2" [2]) (exec (FC.elapse 5) w1) in
  cacheEnabled (config w) = true /\
  isDenoDeploy (fileCache w) = false /\
  cacheDir (host w) = true /\
  5 <> 0 /\
  exists p1 p2,
    value (FC.set "k" "u1" [1]) w = Some p1 /\
    value (FC.set "k" "u2" [2]) (exec (FC.elapse 5) w1) = Some p2 /\
    p1 <> p2 /\
    files (host w2) !! p1 = Some [1] /\
    files (host w2) !! p2 = Some [2] /\
    path <$> cacheMap (fileCache w2) !! "k"%string = Some p2 /\
    size (cacheMap (fileCache w2)) = size (cacheMap (fileCache w1)).
Proof.
  intros w w1 w2.
  assert (cacheEnabled (config w) = true) as H1 by reflexivity.
  assert (isDenoDeploy (fileCache w) = false) as H2 by reflexivity.
  assert (cacheDir (host w) = true) as H3 by reflexivity.
  assert (5 <> 0) as H4 by lia.
  repeat (split; [assumption|]).
  exact (X10_recaching_leaves_old_file w "k" "u1" "u2" [1] [2] 5 H1 H2 H3 H4).
Defined.

(** *** Repeated reads *)

Lemma get_times_hit (n : nat) (w : CacheWorld) (key : string)
    (e : CacheEntry) (data : list Z) :
  cacheEnabled (config w) = true ->
  isDenoDeploy (fileCache w) = false ->
  cacheMap (fileCache w) !! key = Some e ->
  ~ expired w e ->
  files (host w) !! path e = Some data ->
  exists w',
    times n (FC.get key) w = Run (Resolved (replicate n (Some (path e)))) w' []
    /\ cacheMap (fileCache w') !! key =
       Some {| path := path e; url := url e; timestamp := timestamp e;
               accessCount := accessCount e + Z.of_nat n |}
    /\ host w' = host w /\ config w' = config w.
Proof.
  revert w e; induction n as [|n IH]; intros w e Hon Hdep He Hlive Hfile.
  - exists w. split; [done|]. rewrite He, Z.add_0_r. by destruct e.
  - unfold expired in Hlive.
    pose proof (get_hit w key e data Hon Hdep He ltac:(lia) Hfile) as Hone.
    set (e1 := {| path := path e; url := url e; timestamp := timestamp e;
                  accessCount := accessCount e + 1 |}) in *.
    set (w1 := FC.set_cacheMap _ w) in *.
    destruct (IH w1 e1) as (w' & Hrest & Hk & Hh & Hc); try done.
    { unfold w1. cbn. by rewrite lookup_insert_eq. }
    exists w'. rewrite times_S.
    erewrite bind_quiet; [|exact Hone].
    erewrite bind_quiet; [|exact Hrest].
    split; [done|]. rewrite Hk, Hh, Hc. cbn.
    repeat split. do 2 f_equal. lia.
Qed.

(** X11: [n] reads in a row of an entry that is not expired and whose file
    is on disk all return its path, and together raise its [accessCount]
    by exactly [n]; the other fields, the files and the clock stay as they
    were. *)
Theorem X11_reads_count_accesses
    (n : nat) (w : CacheWorld) (key : string) (e : CacheEntry)
    (data : list Z) :
  cacheEnabled (config w) = true ->
  isDenoDeploy (fileCache w) = false ->
  cacheMap (fileCache w) !! key = Some e ->
  ~ expired w e ->
  files (host w) !! path e = Some data ->
  let w' := exec (times n (FC.get key)) w in
  value (times n (FC.get key)) w = Some (replicate n (Some (path e))) /\
  cacheMap (fileCache w') !! key =
    Some {| path := path e; url := url e; timestamp := timestamp e;
            accessCount := accessCount e + Z.of_nat n |} /\
  host w' = host w.
Proof.
  intros Hon Hdep He Hlive Hfile w'.
  destruct (get_times_hit n w key e data Hon Hdep He Hlive Hfile)
    as (w'' & Hrun & Hk & Hh & _).
  unfold w', value, exec. rewrite Hrun. by cbn.
Qed.

Lemma X11_reads_count_accesses_witness :
  let w := {| fileCache := FC.new false;
              config := {| cacheEnabled := true; cacheTimeout := 3600 |};
              host := {| now := 1000; cwd := "/app"; files := ∅;
                         cacheDir := true |} |} in
  let w1 := exec (FC.set "k" "u" [7]) w in
  let e := {| path := "/app/cache/k_1000"; url := "u"; timestamp := 1000;
              accessCount := 1 |} in
  let w' := exec (times 5 (FC.get "k")) w1 in
  cacheEnabled (config w1) = true /\
  isDenoDeploy (fileCache w1) = false /\
  cacheMap (fileCache w1) !! "k"%string = Some e /\
  ~ expired w1 e /\
  files (host w1) !! path e = Some [7] /\
  value (times 5 (FC.get "k")) w1 = Some (replicate 5 (Some (path e))) /\
  cacheMap (fileCache w') !! "k"%string =
    Some {| path := path e; url := url e; timestamp := timestamp e;
            accessCount := accessCount e + Z.of_nat 5 |} /\
  host w' = host w1.
Proof.
  intros w w1 e w'.
  assert (cacheEnabled (config w1) = true) as H1 by reflexivity.
  assert (isDenoDeploy (fileCache w1) = false) as H2 by reflexivity.
  assert (cacheMap (fileCache w1) !! "k"%string = Some e) as H3
    by (vm_compute; reflexivity).
  assert (~ expired w1 e) as H4 by (unfold expired; vm_compute; discriminate).
  assert (files (host w1) !! path e = Some [7]) as H5
    by (vm_compute; reflexivity).
  repeat (split; [assumption|]).
  exact (X11_reads_count_accesses 5 w1 "k" e [7] H1 H2 H3 H4 H5).
Defined.

(** *** The handler, branch by branch *)

Section Branches.
Implicit Types (a : Activation) (env : RequestEnv)
  (request : ChatCompletionRequest) (h : GenerationHandler).

(** The [finally] block touches neither the chunks nor the task rows. *)
Lemma finalize_frames env request requestId startTime a :
  let r := GH.finalize env request requestId startTime a in
  yielded (final r) = yielded a /\
  tasks (db (self (final r))) = tasks (db (self a)).
Proof.
  cbn zeta. unfold GH.finalize.
  erewrite bind_quiet; [|reflexivity].
  destruct (GH.truthy (tokenUsed a)) eqn:Htok.
  - erewrite bind_quiet.
    2:{ unfold GH.releaseToken, GH.onLB, LB.releaseToken, LB.onCM, zoom,
          bind, modify.
        rewrite decrementUsage_run. reflexivity. }
    by cbn.
  - by cbn.
Qed.

(** The whole body in terms of its [try]/[catch] part. *)
Lemma handle_split env request requestId h rs res a2 out :
  try_catch (GH.attempt env request requestId)
            (GH.recover request requestId) (GH.enter h rs) = Run res a2 out ->
  result (GH.handleChatCompletion env request requestId (GH.enter h rs))
    = res /\
  final (GH.handleChatCompletion env request requestId (GH.enter h rs))
    = final (GH.finalize env request requestId (clock h) a2).
Proof.
  intros Hbody. unfold GH.handleChatCompletion.
  erewrite bind_quiet; [|reflexivity].
  cbn [GH.enter self]. unfold try_finally. rewrite Hbody.
  destruct (finalize_ledger env request requestId (clock h) a2)
    as (l & Hres & _).
  destruct (GH.finalize env request requestId (clock h) a2)
    as [[[]|e|] a3 out']; by cbn in *.
Qed.

Lemma truthy_nonempty (tok : string) :
  tok <> ""%string -> GH.truthy (Some tok) = true.
Proof. intros Hne. simpl. by apply negb_true_iff, String.eqb_neq. Qed.

(** The property read finds an own entry first, then an inherited member,
    and otherwise nothing. *)
Lemma MODEL_CONFIG_get_own key cfg :
  MODEL_CONFIG !! key = Some cfg -> MODEL_CONFIG_get key = Some cfg.
Proof. unfold MODEL_CONFIG_get. by intros ->. Qed.

Lemma MODEL_CONFIG_get_absent key :
  MODEL_CONFIG !! key = None -> key ∉ Object_prototype ->
  MODEL_CONFIG_get key = None.
Proof.
  unfold MODEL_CONFIG_get. intros -> Hkey.
  by rewrite bool_decide_eq_false_2.
Qed.



(** How the [try]/[catch] part ends when the model is not in the
    catalogue. *)
Lemma body_unknown_model env request requestId h rs tok m :
  handed (loadBalancer h) = Some tok -> tok <> ""%string ->
  last (messages request) = Some m ->
  MODEL_CONFIG_get (model request) = None ->
  exists res out,
    try_catch (GH.attempt env request requestId)
              (GH.recover request requestId) (GH.enter h rs) =
    Run res
        {| self := {| loadBalancer := exec LB.getToken (loadBalancer h);
                      db := db h; clock := clock h |};
           tokenUsed := Some tok; resultUrl := None;
           error := Some ("Unknown model: " +:+ model request);
           processingTime := None;
           yielded := [GH.chunk requestId (clock h) (model request) None
                         ("❌ Error: " +:+ "Unknown model: "
                          +:+ model request) (Some "stop"%string)];
           consumer := tail rs; released := [] |} out.
Proof.
  intros Hh Hne Hlast Hmodel.
  pose proof (truthy_nonempty tok Hne) as Ht.
  unfold try_catch, GH.attempt.
  erewrite bind_quiet; [|unfold GH.onLB, zoom; by rewrite getToken_quiet].
  cbn [GH.enter self]. rewrite Hh.
  erewrite bind_quiet; [|reflexivity].
  rewrite Ht. cbn [negb].
  unfold GH.parseRequest. rewrite Hlast.
  erewrite bind_quiet; [|reflexivity].
  rewrite Hmodel. cbn -[String.app].
  destruct rs as [|[|e|] rs']; cbn; eauto.
Qed.

(** How it ends when [getToken] hands over nothing. *)
Lemma body_no_capacity env request requestId h rs :
  handed (loadBalancer h) = None ->
  exists res out,
    try_catch (GH.attempt env request requestId)
              (GH.recover request requestId) (GH.enter h rs) =
    Run res
        {| self := {| loadBalancer := exec LB.getToken (loadBalancer h);
                      db := db h; clock := clock h |};
           tokenUsed := None; resultUrl := None;
           error := Some "No available tokens"%string;
           processingTime := None;
           yielded := [GH.chunk requestId (clock h) (model request) None
                         "❌ Error: No available tokens"
                         (Some "stop"%string)];
           consumer := tail rs; released := [] |} out.
Proof.
  intros Hh.
  unfold try_catch, GH.attempt.
  erewrite bind_quiet; [|unfold GH.onLB, zoom; by rewrite getToken_quiet].
  cbn [GH.enter self]. rewrite Hh.
  erewrite bind_quiet; [|reflexivity].
  cbn -[String.app].
  destruct rs as [|[|e|] rs']; cbn; eauto.
Qed.

End Branches.

(** X12: a request with at least one message, for a model that is neither
    an entry of the catalogue nor a name the catalogue object inherits
    from [Object.prototype], made when a credential is available, costs
    nothing upstream: no task row is created and the clock does not move;
    the caller gets exactly one chunk, the error "Unknown model: ..." with
    finish reason "stop"; the credential is released; and the one log row
    says "failed". *)
Theorem X12_unknown_model_is_rejected_cleanly
    (env : RequestEnv) (request : ChatCompletionRequest) (requestId : string)
    (h : GenerationHandler) (rs : list reaction) (tok : string)
    (m : ChatMessage) :
  handed (loadBalancer h) = Some tok -> tok <> ""%string ->
  last (messages request) = Some m ->
  MODEL_CONFIG !! model request = None ->
  model request ∉ Object_prototype ->
  let r := GH.handleChatCompletion env request requestId (GH.enter h rs) in
  yielded (final r) =
    [GH.chunk requestId (clock h) (model request) None
       ("❌ Error: " +:+ "Unknown model: " +:+ model request)
       (Some "stop"%string)] /\
  tasks (db (self (final r))) = tasks (db h) /\
  clock (self (final r)) = clock h /\
  released (final r) = [tok] /\
  exists l, logs (db (self (final r))) = logs (db h) ++ [l] /\
            log_status l = "failed"%string /\
            log_error l = Some ("Unknown model: " +:+ model request).
Proof.
  intros Hh Hne Hlast Hmodel Hproto r.
  destruct (body_unknown_model env request requestId h rs tok m
              Hh Hne Hlast (MODEL_CONFIG_get_absent _ Hmodel Hproto))
    as (res & out & Hbody).
  destruct (handle_split env request requestId h rs _ _ _ Hbody)
    as [_ Hfinal].
  fold r in Hfinal. rewrite Hfinal.
  match type of Hfinal with
  | _ = final (GH.finalize _ _ _ _ ?a2) =>
      destruct (finalize_frames env request requestId (clock h) a2)
        as [Hy Ht];
      destruct (finalize_ledger env request requestId (clock h) a2)
        as (l & _ & Hl1 & _ & _ & Hl4 & _ & _ & _ & _ & Hl9 & Hrel & _
              & _ & _ & Hclock)
  end.
  cbn zeta in *. rewrite Hy, Ht, Hclock, Hrel.
  cbn [yielded self db clock released tokenUsed error] in *.
  rewrite (truthy_nonempty tok Hne).
  repeat split; try reflexivity.
  exists l. rewrite Hl1, Hl4, Hl9. repeat split; reflexivity.
Qed.

Lemma X12_unknown_model_is_rejected_cleanly_witness :
  let toks := [mkToken 1 "tok" true] in
  let h := {| loadBalancer := pool toks 0 (exec (CM.initialize toks) CM.new);
              db := DB.new; clock := 5000 |} in
  let env := {| uuid := "task-1"; soraClient := fun _ => inr "u"%string;
                latency := 1000; stringified_length := 42 |} in
  let m := {| role := "user"; content := ContentString "a cat" |} in
  let request := {| model := "gpt-4"; messages := [m]; stream := None |} in
  let r := GH.handleChatCompletion env request "req_1" (GH.enter h []) in
  handed (loadBalancer h) = Some "tok"%string /\ "tok"%string <> ""%string /\
  last (messages request) = Some m /\
  MODEL_CONFIG !! model request = None /\
  (model request ∉ Object_prototype) /\
  yielded (final r) =
    [GH.chunk "req_1" 5000 "gpt-4" None
       ("❌ Error: " +:+ "Unknown model: " +:+ "gpt-4")
       (Some "stop"%string)] /\
  tasks (db (self (final r))) = tasks (db h) /\
  clock (self (final r)) = clock h /\
  released (final r) = ["tok"%string] /\
  exists l, logs (db (self (final r))) = logs (db h) ++ [l] /\
            log_status l = "failed"%string /\
            log_error l = Some ("Unknown model: " +:+ "gpt-4").
Proof.
  intros toks h env m request r.
  assert (handed (loadBalancer h) = Some "tok"%string) as H1
    by (vm_compute; reflexivity).
  assert ("tok"%string <> ""%string) as H2 by discriminate.
  assert (last (messages request) = Some m) as H3 by reflexivity.
  assert (MODEL_CONFIG !! model request = None) as H4
    by (vm_compute; reflexivity).
  assert (model request ∉ Object_prototype) as H5
    by (apply (bool_decide_unpack _); vm_compute; exact I).
  repeat (split; [assumption|]).
  exact (X12_unknown_model_is_rejected_cleanly env request "req_1" h [] "tok"
           m H1 H2 H3 H4 H5).
Defined.

Section Outcomes.
Implicit Types (a : Activation) (env : RequestEnv)
  (request : ChatCompletionRequest) (h : GenerationHandler).

(** What the whole call leaves, given how its [try]/[catch] part ended. *)
Lemma handle_after_body env request requestId h rs res a2 out :
  try_catch (GH.attempt env request requestId)
            (GH.recover request requestId) (GH.enter h rs) = Run res a2 out ->
  let r := GH.handleChatCompletion env request requestId (GH.enter h rs) in
  result r = res /\
  yielded (final r) = yielded a2 /\
  tasks (db (self (final r))) = tasks (db (self a2)) /\
  clock (self (final r)) = clock (self a2) /\
  released (final r) =
    released a2 ++ (if GH.truthy (tokenUsed a2)
                    then [default ""%string (tokenUsed a2)] else []) /\
  exists l,
    logs (db (self (final r))) = logs (db (self a2)) ++ [l] /\
    log_status l = (if GH.truthy (error a2)
                    then "failed" else "completed")%string /\
    log_error l = error a2 /\
    log_tokenUsed l = tokenUsed a2 /\
    log_processingTime l = clock (self a2) - clock h /\
    log_responseSize l =
      (if GH.truthy (resultUrl a2)
       then Z.of_nat (String.length (default ""%string (resultUrl a2)))
       else 0).
Proof.
  intros Hbody r.
  destruct (handle_split env request requestId h rs _ _ _ Hbody)
    as [Hres Hfinal].
  fold r in Hres, Hfinal. rewrite Hfinal.
  destruct (finalize_frames env request requestId (clock h) a2) as [Hy Ht].
  destruct (finalize_ledger env request requestId (clock h) a2)
    as (l & _ & Hl1 & _ & _ & Hl4 & Hl5 & Hl6 & _ & Hl8 & Hl9 & Hrel & _
          & _ & _ & Hclock).
  cbn zeta in *. repeat split; try done. by exists l.
Qed.

Lemma body_upstream_failed env request requestId h tok m cfg err :
  handed (loadBalancer h) = Some tok -> tok <> ""%string ->
  last (messages request) = Some m ->
  MODEL_CONFIG_get (model request) = Some cfg ->
  (forall call, soraClient env call = inl err) ->
  exists a2 out,
    try_catch (GH.attempt env request requestId)
              (GH.recover request requestId) (GH.enter h []) =
    Run (Resolved tt) a2 out /\
    tokenUsed a2 = Some tok /\ error a2 = Some err /\ resultUrl a2 = None /\
    yielded a2 =
      [GH.chunk (uuid env) (clock h) (model request)
         (Some "assistant"%string) "Processing your request..." None;
       GH.chunk requestId (clock h + latency env) (model request) None
         ("❌ Error: " +:+ err) (Some "stop"%string)] /\
    released a2 = [] /\ logs (db (self a2)) = logs (db h) /\
    task_status <$> tasks (db (self a2)) !! uuid env
      = Some "processing"%string /\
    clock (self a2) = clock h + latency env.
Proof.
  intros Hh Hne Hlast Hmodel Hup.
  pose proof (truthy_nonempty tok Hne) as Ht.
  unfold try_catch, GH.attempt.
  erewrite bind_quiet; [|unfold GH.onLB, zoom; by rewrite getToken_quiet].
  cbn [GH.enter self]. rewrite Hh.
  erewrite bind_quiet; [|reflexivity].
  rewrite Ht. cbn [negb].
  unfold GH.parseRequest. rewrite Hlast.
  erewrite bind_quiet; [|reflexivity].
  rewrite Hmodel. cbv beta iota. unfold GH.await_upstream. rewrite Hup.
  cbn -[String.app foldl alter insert].
  eexists _, _. split; [reflexivity|].
  cbn -[String.app foldl alter insert]. repeat split.
  rewrite lookup_alter, decide_True by reflexivity.
  rewrite lookup_insert_eq. reflexivity.
Qed.

Lemma body_upstream_succeeded env request requestId h tok m cfg link :
  handed (loadBalancer h) = Some tok -> tok <> ""%string ->
  last (messages request) = Some m ->
  MODEL_CONFIG_get (model request) = Some cfg ->
  (forall call, soraClient env call = inr link) ->
  exists a2 out,
    try_catch (GH.attempt env request requestId)
              (GH.recover request requestId) (GH.enter h []) =
    Run (Resolved tt) a2 out /\
    tokenUsed a2 = Some tok /\ error a2 = None /\
    resultUrl a2 = Some link /\
    yielded a2 =
      [GH.chunk (uuid env) (clock h) (model request)
         (Some "assistant"%string) "Processing your request..." None;
       GH.chunk (uuid env) (clock h + latency env) (model request) None
         ("✅ Generation complete! [View result](" +:+ link +:+ ")")
         (Some "stop"%string)] /\
    released a2 = [] /\ logs (db (self a2)) = logs (db h) /\
    (exists t, tasks (db (self a2)) !! uuid env = Some t /\
               task_status t = "completed"%string /\
               task_resultUrl t = Some link /\
               task_tokenUsed t = Some tok /\
               task_model t = model request /\
               task_type t = match type cfg with
                             | Some image => Some "image"%string
                             | Some video => Some "video"%string
                             | None => None
                             end) /\
    clock (self a2) = clock h + latency env.
Proof.
  intros Hh Hne Hlast Hmodel Hup.
  pose proof (truthy_nonempty tok Hne) as Ht.
  unfold try_catch, GH.attempt.
  erewrite bind_quiet; [|unfold GH.onLB, zoom; by rewrite getToken_quiet].
  cbn [GH.enter self]. rewrite Hh.
  erewrite bind_quiet; [|reflexivity].
  rewrite Ht. cbn [negb].
  unfold GH.parseRequest. rewrite Hlast.
  erewrite bind_quiet; [|reflexivity].
  rewrite Hmodel. cbv beta iota. unfold GH.await_upstream. rewrite Hup.
  cbn -[String.app foldl alter insert].
  eexists _, _. split; [reflexivity|].
  cbn -[String.app foldl alter insert]. repeat split.
  rewrite !lookup_alter, !decide_True by reflexivity.
  rewrite lookup_insert_eq.
  cbn. eexists. split; [reflexivity|]. cbn. repeat split; reflexivity.
Qed.

End Outcomes.

(** X13: when no credential can be admitted the request is turned away
    before anything is spent: the caller gets exactly one chunk, the error
    "No available tokens" with finish reason "stop"; no task row is
    created, nothing is released, no counter changes, and the one log row
    says "failed" and names no credential. *)
Theorem X13_no_capacity_is_rejected_cleanly
    (env : RequestEnv) (request : ChatCompletionRequest) (requestId : string)
    (h : GenerationHandler) (rs : list reaction) :
  handed (loadBalancer h) = None ->
  let r := GH.handleChatCompletion env request requestId (GH.enter h rs) in
  yielded (final r) =
    [GH.chunk requestId (clock h) (model request) None
       "❌ Error: No available tokens" (Some "stop"%string)] /\
  tasks (db (self (final r))) = tasks (db h) /\
  released (final r) = [] /\
  concurrencyManager (loadBalancer (self (final r)))
    = concurrencyManager (loadBalancer h) /\
  exists l, logs (db (self (final r))) = logs (db h) ++ [l] /\
            log_status l = "failed"%string /\
            log_tokenUsed l = None /\
            log_error l = Some "No available tokens"%string.
Proof.
  intros Hh r.
  destruct (body_no_capacity env request requestId h rs Hh)
    as (res & out & Hbody).
  destruct (handle_after_body env request requestId h rs _ _ _ Hbody)
    as (_ & Hy & Ht & _ & Hrel & l & Hl1 & Hl2 & Hl3 & Hl4 & _).
  fold r in Hy, Ht, Hrel, Hl1.
  destruct (handle_ledger env request requestId h rs)
    as (_ & _ & _ & _ & _ & _ & _ & _ & _ & _ & _ & Hlb).
  fold r in Hlb. rewrite Hh in Hlb. cbn [GH.truthy] in Hlb.
  cbn in Hy, Ht, Hrel, Hl1, Hl2, Hl3, Hl4.
  repeat split; try done.
  - rewrite Hlb. destruct (loadBalancer h) as [[toks idx] cm].
    fold (pool toks idx cm) in *.
    destruct (getToken_cases toks idx cm) as (r0 & idx' & Hrun & _).
    unfold handed, value in Hh. unfold exec. rewrite Hrun in Hh |- *.
    cbn in Hh |- *. by subst r0.
  - by exists l.
Qed.

Lemma X13_no_capacity_is_rejected_cleanly_witness :
  let h := {| loadBalancer := pool [mkToken 1 "tok" false] 0
                                (exec (CM.initialize [mkToken 1 "tok" false])
                                      CM.new);
              db := DB.new; clock := 5000 |} in
  let env := {| uuid := "task-1"; soraClient := fun _ => inr "u"%string;
                latency := 1000; stringified_length := 42 |} in
  let request := {| model := "sora-image"; messages := []; stream := None |} in
  let r := GH.handleChatCompletion env request "req_1" (GH.enter h []) in
  handed (loadBalancer h) = None /\
  yielded (final r) =
    [GH.chunk "req_1" 5000 "sora-image" None
       "❌ Error: No available tokens" (Some "stop"%string)] /\
  tasks (db (self (final r))) = tasks (db h) /\
  released (final r) = [] /\
  concurrencyManager (loadBalancer (self (final r)))
    = concurrencyManager (loadBalancer h) /\
  exists l, logs (db (self (final r))) = logs (db h) ++ [l] /\
            log_status l = "failed"%string /\
            log_tokenUsed l = None /\
            log_error l = Some "No available tokens"%string.
Proof.
  intros h env request r.
  assert (handed (loadBalancer h) = None) as H1 by (vm_compute; reflexivity).
  split; [exact H1|].
  exact (X13_no_capacity_is_rejected_cleanly env request "req_1" h [] H1).
Defined.

(** X14: when the upstream call fails, with a consumer that keeps
    pulling, the caller gets the progress chunk and then the error chunk
    with finish reason "stop"; the credential is released and the log row
    carries the error; but the task row is left in status "processing":
    the handler never marks a task as failed. *)
Theorem X14_upstream_failure_leaves_task_processing
    (env : RequestEnv) (request : ChatCompletionRequest) (requestId : string)
    (h : GenerationHandler) (tok : string) (m : ChatMessage)
    (cfg : ModelConfig) (err : string) :
  handed (loadBalancer h) = Some tok -> tok <> ""%string ->
  last (messages request) = Some m ->
  MODEL_CONFIG !! model request = Some cfg ->
  (forall call, soraClient env call = inl err) ->
  let r := GH.handleChatCompletion env request requestId (GH.enter h []) in
  result r = Resolved tt /\
  yielded (final r) =
    [GH.chunk (uuid env) (clock h) (model request)
       (Some "assistant"%string) "Processing your request..." None;
     GH.chunk requestId (clock h + latency env) (model request) None
       ("❌ Error: " +:+ err) (Some "stop"%string)] /\
  task_status <$> tasks (db (self (final r))) !! uuid env
    = Some "processing"%string /\
  released (final r) = [tok] /\
  exists l, logs (db (self (final r))) = logs (db h) ++ [l] /\
            log_error l = Some err /\
            log_status l = (if GH.truthy (Some err)
                            then "failed" else "completed")%string /\
            log_responseSize l = 0.
Proof.
  intros Hh Hne Hlast Hmodel Hup r.
  destruct (body_upstream_failed env request requestId h tok m cfg err
              Hh Hne Hlast (MODEL_CONFIG_get_own _ _ Hmodel) Hup)
    as (a2 & out & Hbody & Htok & Herr & Hurl & Hy & Hrel & Hlogs & Htask
          & Hclock).
  destruct (handle_after_body env request requestId h [] _ _ _ Hbody)
    as (Hres & Hy' & Ht' & _ & Hrel' & l & Hl1 & Hl2 & Hl3 & _ & _ & Hl6).
  fold r in Hres, Hy', Ht', Hrel', Hl1.
  rewrite Hy', Ht', Hrel', Hy, Hrel, Htok, Htask.
  rewrite (truthy_nonempty tok Hne).
  split; [exact Hres|]. do 3 (split; [reflexivity|]).
  exists l. rewrite Hl1, Hl2, Hl3, Hl6, Hlogs, Herr, Hurl. cbn.
  do 3 (split; [reflexivity|]). reflexivity.
Qed.

Lemma X14_upstream_failure_leaves_task_processing_witness :
  let toks := [mkToken 1 "tok" true] in
  let h := {| loadBalancer := pool toks 0 (exec (CM.initialize toks) CM.new);
              db := DB.new; clock := 5000 |} in
  let env := {| uuid := "task-1"; soraClient := fun _ => inl "timeout"%string;
                latency := 1000; stringified_length := 42 |} in
  let m := {| role := "user"; content := ContentString "a cat" |} in
  let request := {| model := "sora-image"; messages := [m];
                    stream := None |} in
  let r := GH.handleChatCompletion env request "req_1" (GH.enter h []) in
  handed (loadBalancer h) = Some "tok"%string /\ "tok"%string <> ""%string /\
  last (messages request) = Some m /\
  MODEL_CONFIG !! model request = Some (image_config 360 360) /\
  (forall call, soraClient env call = inl "timeout"%string) /\
  result r = Resolved tt /\
  task_status <$> tasks (db (self (final r))) !! uuid env
    = Some "processing"%string /\
  released (final r) = ["tok"%string].
Proof.
  intros toks h env m request r.
  assert (handed (loadBalancer h) = Some "tok"%string) as H1
    by (vm_compute; reflexivity).
  assert ("tok"%string <> ""%string) as H2 by discriminate.
  assert (last (messages request) = Some m) as H3 by reflexivity.
  assert (MODEL_CONFIG !! model request = Some (image_config 360 360)) as H4
    by (vm_compute; reflexivity).
  assert (forall call, soraClient env call = inl "timeout"%string) as H5
    by reflexivity.
  repeat (split; [assumption|]).
  pose proof (X14_upstream_failure_leaves_task_processing env request "req_1"
                h "tok" m (image_config 360 360) "timeout" H1 H2 H3 H4 H5)
    as (Hres & _ & Htask & Hrel & _).
  exact (conj Hres (conj Htask Hrel)).
Defined.

(** X15: when the upstream call succeeds, with a consumer that keeps
    pulling, the caller gets the progress chunk and then a final chunk
    that carries the artifact link and finish reason "stop"; the task row
    ends "completed" with that link; the credential is released once; and
    the log row says "completed", records the upstream latency as the
    processing time and the length of the link as the response size. *)
Theorem X15_success_path
    (env : RequestEnv) (request : ChatCompletionRequest) (requestId : string)
    (h : GenerationHandler) (tok : string) (m : ChatMessage)
    (cfg : ModelConfig) (link : string) :
  handed (loadBalancer h) = Some tok -> tok <> ""%string ->
  last (messages request) = Some m ->
  MODEL_CONFIG !! model request = Some cfg ->
  (forall call, soraClient env call = inr link) ->
  link <> ""%string ->
  let r := GH.handleChatCompletion env request requestId (GH.enter h []) in
  result r = Resolved tt /\
  yielded (final r) =
    [GH.chunk (uuid env) (clock h) (model request)
       (Some "assistant"%string) "Processing your request..." None;
     GH.chunk (uuid env) (clock h + latency env) (model request) None
       ("✅ Generation complete! [View result](" +:+ link +:+ ")")
       (Some "stop"%string)] /\
  (exists t, tasks (db (self (final r))) !! uuid env = Some t /\
             task_status t = "completed"%string /\
             task_resultUrl t = Some link) /\
  released (final r) = [tok] /\
  exists l, logs (db (self (final r))) = logs (db h) ++ [l] /\
            log_status l = "completed"%string /\
            log_error l = None /\
            log_tokenUsed l = Some tok /\
            log_processingTime l = latency env /\
            log_responseSize l = Z.of_nat (String.length link).
Proof.
  intros Hh Hne Hlast Hmodel Hup Hlink r.
  destruct (body_upstream_succeeded env request requestId h tok m cfg link
              Hh Hne Hlast (MODEL_CONFIG_get_own _ _ Hmodel) Hup)
    as (a2 & out & Hbody & Htok & Herr & Hurl & Hy & Hrel & Hlogs & Htask
          & Hclock).
  destruct (handle_after_body env request requestId h [] _ _ _ Hbody)
    as (Hres & Hy' & Ht' & _ & Hrel' & l & Hl1 & Hl2 & Hl3 & Hl4 & Hl5 & Hl6).
  fold r in Hres, Hy', Ht', Hrel', Hl1.
  rewrite Hy', Ht', Hrel', Hy, Hrel, Htok.
  rewrite (truthy_nonempty tok Hne).
  destruct Htask as (t & Ht & Hst & Hru & _).
  split; [exact Hres|]. split; [reflexivity|].
  split; [exists t; exact (conj Ht (conj Hst Hru))|].
  split; [reflexivity|].
  exists l. rewrite Hl1, Hl2, Hl3, Hl4, Hl5, Hl6, Hlogs, Herr, Hurl, Hclock.
  rewrite (truthy_nonempty link Hlink). cbn.
  do 3 (split; [reflexivity|]). split; [exact Htok|].
  split; [lia|reflexivity].
Qed.

Lemma X15_success_path_witness :
  let toks := [mkToken 1 "tok" true] in
  let h := {| loadBalancer := pool toks 0 (exec (CM.initialize toks) CM.new);
              db := DB.new; clock := 5000 |} in
  let env := {| uuid := "task-1";
                soraClient := fun _ => inr "https://x/1"%string;
                latency := 1000; stringified_length := 42 |} in
  let m := {| role := "user"; content := ContentString "a cat" |} in
  let request := {| model := "sora-video-10s"; messages := [m];
                    stream := None |} in
  let r := GH.handleChatCompletion env request "req_1" (GH.enter h []) in
  handed (loadBalancer h) = Some "tok"%string /\ "tok"%string <> ""%string /\
  last (messages request) = Some m /\
  MODEL_CONFIG !! model request = Some (video_config landscape 300) /\
  (forall call, soraClient env call = inr "https://x/1"%string) /\
  "https://x/1"%string <> ""%string /\
  result r = Resolved tt /\
  released (final r) = ["tok"%string].
Proof.
  intros toks h env m request r.
  assert (handed (loadBalancer h) = Some "tok"%string) as H1
    by (vm_compute; reflexivity).
  assert ("tok"%string <> ""%string) as H2 by discriminate.
  assert (last (messages request) = Some m) as H3 by reflexivity.
  assert (MODEL_CONFIG !! model request = Some (video_config landscape 300))
    as H4 by (vm_compute; reflexivity).
  assert (forall call, soraClient env call = inr "https://x/1"%string) as H5
    by reflexivity.
  assert ("https://x/1"%string <> ""%string) as H6 by discriminate.
  repeat (split; [assumption|]).
  pose proof (X15_success_path env request "req_1" h "tok" m
                (video_config landscape 300) "https://x/1"
                H1 H2 H3 H4 H5 H6) as (Hres & _ & _ & Hrel & _).
  exact (conj Hres Hrel).
Defined.

(** How the [try]/[catch] part ends for a consumer that keeps pulling,
    whatever branch is taken: it resolves, with one or two chunks out, the
    last of them the only one that carries a finish reason. *)
Lemma body_terminal (env : RequestEnv) (request : ChatCompletionRequest)
    (requestId : string) (h : GenerationHandler) :
  exists a2 out first last,
    try_catch (GH.attempt env request requestId)
              (GH.recover request requestId) (GH.enter h []) =
    Run (Resolved tt) a2 out /\
    yielded a2 = first ++ [last] /\
    finish_reason last = Some "stop"%string /\
    (length first <= 1)%nat /\
    Forall (fun c => finish_reason c = None) first.
Proof.
  unfold try_catch, GH.attempt.
  erewrite bind_quiet; [|unfold GH.onLB, zoom; by rewrite getToken_quiet].
  cbn [GH.enter self].
  erewrite bind_quiet; [|reflexivity].
  destruct (GH.truthy (handed (loadBalancer h))) eqn:Ht; cbn [negb].
  2:{ cbn -[String.app]. eexists _, _, [], _.
      split; [reflexivity|]. cbn. repeat split; [lia|constructor]. }
  unfold GH.parseRequest.
  destruct (last (messages request)) as [m|].
  2:{ cbn -[String.app]. eexists _, _, [], _.
      split; [reflexivity|]. cbn. repeat split; [lia|constructor]. }
  erewrite bind_quiet; [|reflexivity].
  destruct (MODEL_CONFIG_get (model request)) as [cfg|].
  2:{ cbn -[String.app]. eexists _, _, [], _.
      split; [reflexivity|]. cbn. repeat split; [lia|constructor]. }
  cbv beta iota. unfold GH.await_upstream.
  match goal with
  | |- context [soraClient env ?c] => destruct (soraClient env c) as [err|link]
  end; cbn -[String.app foldl alter insert];
    eexists _, _, [_], _; (split; [reflexivity|]); cbn;
    repeat split; try lia; by repeat constructor.
Qed.

(** X16: driven by a consumer that keeps pulling, the generator never
    throws, whatever the request, the pool and the upstream do; it yields
    one or two chunks, and the last chunk, and only the last, carries the
    finish reason "stop". *)
Theorem X16_terminal_chunk_is_last
    (env : RequestEnv) (request : ChatCompletionRequest) (requestId : string)
    (h : GenerationHandler) :
  let r := GH.handleChatCompletion env request requestId (GH.enter h []) in
  result r = Resolved tt /\
  exists first last,
    yielded (final r) = first ++ [last] /\
    finish_reason last = Some "stop"%string /\
    (length first <= 1)%nat /\
    Forall (fun c => finish_reason c = None) first.
Proof.
  intros r.
  destruct (body_terminal env request requestId h)
    as (a2 & out & first & last & Hbody & Hy & Hlast & Hlen & Hfirst).
  destruct (handle_after_body env request requestId h [] _ _ _ Hbody)
    as (Hres & Hy' & _).
  fold r in Hres, Hy'. split; [exact Hres|].
  exists first, last. by rewrite Hy', Hy.
Qed.

(** X17: a request never leaks a slot, unless the token handed over is the
    empty string: whatever the request, the upstream and the consumer do,
    if no counter was negative then after the call every counter is what
    it was before. *)
Theorem X17_request_restores_counters
    (env : RequestEnv) (request : ChatCompletionRequest) (requestId : string)
    (h : GenerationHandler) (rs : list reaction) :
  never_negative (concurrencyManager (loadBalancer h)) ->
  handed (loadBalancer h) <> Some ""%string ->
  let r := GH.handleChatCompletion env request requestId (GH.enter h rs) in
  concurrencyManager (loadBalancer (self (final r)))
  = concurrencyManager (loadBalancer h).
Proof.
  intros Hnn Hne r.
  destruct (handle_ledger env request requestId h rs)
    as (_ & _ & _ & _ & _ & _ & _ & _ & _ & _ & _ & Hlb).
  fold r in Hlb. rewrite Hlb.
  pose proof (getToken_quiet (loadBalancer h)) as Hq.
  destruct (handed (loadBalancer h)) as [tok|] eqn:Hh.
  - rewrite truthy_nonempty by congruence. cbn [default].
    apply getToken_release_restores; [done|].
    unfold value. by rewrite Hq.
  - cbn [GH.truthy]. destruct (loadBalancer h) as [[toks idx] cm].
    fold (pool toks idx cm) in *.
    destruct (getToken_cases toks idx cm) as (r0 & idx' & Hrun & _).
    rewrite Hrun in Hq. injection Hq as -> _. unfold exec. by rewrite Hrun.
Qed.

Lemma X17_request_restores_counters_witness :
  let toks := [mkToken 1 "tok" true] in
  let h := {| loadBalancer := pool toks 0 (exec (CM.initialize toks) CM.new);
              db := DB.new; clock := 5000 |} in
  let env := {| uuid := "task-1"; soraClient := fun _ => inl "boom"%string;
                latency := 1000; stringified_length := 42 |} in
  let request := {| model := "sora-image"; messages := []; stream := None |} in
  let r := GH.handleChatCompletion env request "req_1"
             (GH.enter h [Throw "gone"]) in
  never_negative (concurrencyManager (loadBalancer h)) /\
  handed (loadBalancer h) <> Some ""%string /\
  concurrencyManager (loadBalancer (self (final r)))
  = concurrencyManager (loadBalancer h).
Proof.
  intros toks h env request r.
  assert (never_negative (concurrencyManager (loadBalancer h))) as H1.
  { apply (bool_decide_unpack _). vm_compute. exact I. }
  assert (handed (loadBalancer h) <> Some ""%string) as H2
    by (vm_compute; discriminate).
  split; [exact H1|split; [exact H2|]].
  exact (X17_request_restores_counters env request "req_1" h [Throw "gone"]
           H1 H2).
Defined.

(** *** Reading the request *)

Section Parsing.
Implicit Types (a : Activation) (request : ChatCompletionRequest).

Lemma string_app_nil_r (s : string) : s +:+ "" = s.
Proof.
  induction s as [|c s IH]; [done|].
  change (String c (s +:+ "") = String c s). by rewrite IH.
Qed.

Lemma string_app_assoc (s1 s2 s3 : string) :
  s1 +:+ (s2 +:+ s3) = (s1 +:+ s2) +:+ s3.
Proof.
  induction s1 as [|c s1 IH]; [done|].
  change (String c (s1 +:+ (s2 +:+ s3)) = String c ((s1 +:+ s2) +:+ s3)).
  by rewrite IH.
Qed.

Lemma parse_part_fold (parts : list Part) (acc : Parsed) :
  foldl GH.parse_part acc parts =
  {| prompt := prompt acc +:+ texts parts;
     imageData := match last (omap image_of parts) with
                  | Some u => Some u
                  | None => imageData acc
                  end;
     videoData := match last (omap video_of parts) with
                  | Some u => Some u
                  | None => videoData acc
                  end |}.
Proof.
  revert acc. induction parts as [|p parts IH]; intros acc.
  - cbn. rewrite string_app_nil_r. by destruct acc.
  - cbn [foldl]. rewrite IH. cbn [texts omap list_omap].
    set (images := omap image_of parts). set (videos := omap video_of parts).
    unfold GH.parse_part, image_of, video_of, is_text.
    destruct (String.eqb (part_type p) "text") eqn:Htext.
    { apply String.eqb_eq in Htext. rewrite Htext.
      cbn [String.eqb Ascii.eqb Bool.eqb andb prompt imageData videoData].
      by rewrite string_app_assoc. }
    destruct (String.eqb (part_type p) "image_url") eqn:Himg.
    { apply String.eqb_eq in Himg. rewrite Himg.
      cbn [String.eqb Ascii.eqb Bool.eqb andb].
      destruct (GH.truthy (image_url p)) eqn:Hurl; [|done].
      destruct (image_url p) as [u|]; [|discriminate].
      cbn [prompt imageData videoData]. rewrite last_cons.
      repeat match goal with
             | |- context [last ?l] => destruct (last l)
             end; done. }
    cbn [andb].
    destruct (String.eqb (part_type p) "video_url") eqn:Hvid; [|done].
    cbn [andb].
    destruct (GH.truthy (video_url p)) eqn:Hurl; [|done].
    destruct (video_url p) as [u|]; [|discriminate].
    cbn [prompt imageData videoData]. rewrite last_cons.
    repeat match goal with
           | |- context [last ?l] => destruct (last l)
           end; done.
Qed.

End Parsing.

(** X18: [parseRequest] reads the last message only.  With no message at
    all it throws; otherwise every earlier message is ignored; and a last
    message whose content is a string gives that string as the prompt and
    no media. *)
Theorem X18_only_last_message_is_read
    (request : ChatCompletionRequest) (a : Activation) :
  (messages request = [] ->
   exists e, GH.parseRequest request a = Run (Rejected e) a []) /\
  (forall earlier m, messages request = earlier ++ [m] ->
     GH.parseRequest request a =
     GH.parseRequest {| model := model request; messages := [m];
                        stream := stream request |} a) /\
  (forall earlier who s,
     messages request = earlier ++ [{| role := who;
                                       content := ContentString s |}] ->
     GH.parseRequest request a =
     Run (Resolved {| prompt := s; imageData := None; videoData := None |})
         a []).
Proof.
  unfold GH.parseRequest. split; [|split].
  - intros ->. cbn. by eexists.
  - intros earlier m ->. cbn [messages]. by rewrite last_snoc.
  - intros earlier who s ->. by rewrite last_snoc.
Qed.

Lemma X18_only_last_message_is_read_witness :
  let m := {| role := "user"; content := ContentString "a cat" |} in
  let old := {| role := "user";
                content := ContentParts
                  [{| part_type := "image_url"; text := None;
                      image_url := Some "http://img"%string;
                      video_url := None |}] |} in
  let request := {| model := "sora-image"; messages := [old; m];
                    stream := None |} in
  let a := GH.enter {| loadBalancer := pool [] 0 CM.new; db := DB.new;
                       clock := 0 |} [] in
  messages request = [old] ++ [m] /\
  GH.parseRequest request a =
  Run (Resolved {| prompt := "a cat"; imageData := None; videoData := None |})
      a [].
Proof.
  intros m old request a.
  assert (messages request = [old] ++ [m]) as H1 by reflexivity.
  split; [exact H1|].
  exact (proj2 (proj2 (X18_only_last_message_is_read request a))
           [old] "user" "a cat" H1).
Defined.

(** X19: for a last message made of parts, the prompt is the texts of the
    [text] parts joined in order, the image is the last [image_url] part
    with a non-empty URL, and the video the last such [video_url] part;
    parts of any other type, and media carried by a part of the wrong
    type, contribute nothing. *)
Theorem X19_parts_closed_form
    (request : ChatCompletionRequest) (a : Activation)
    (earlier : list ChatMessage) (who : string) (parts : list Part) :
  messages request = earlier ++ [{| role := who;
                                    content := ContentParts parts |}] ->
  GH.parseRequest request a =
  Run (Resolved {| prompt := texts parts;
                   imageData := last (omap image_of parts);
                   videoData := last (omap video_of parts) |}) a [].
Proof.
  intros Hm. unfold GH.parseRequest. rewrite Hm, last_snoc.
  cbn [content]. rewrite parse_part_fold. cbn [prompt imageData videoData].
  unfold ret. do 3 f_equal.
  - by destruct (last (omap image_of parts)).
  - by destruct (last (omap video_of parts)).
Qed.

Lemma X19_parts_closed_form_witness :
  let parts :=
    [{| part_type := "text"; text := Some "a "%string;
        image_url := Some "http://ignored"%string; video_url := None |};
     {| part_type := "image_url"; text := Some "ignored"%string;
        image_url := Some "http://one"%string; video_url := None |};
     {| part_type := "image_url"; text := None;
        image_url := Some ""%string; video_url := None |};
     {| part_type := "text"; text := None; image_url := None;
        video_url := None |};
     {| part_type := "text"; text := Some "cat"%string; image_url := None;
        video_url := None |}] in
  let request := {| model := "sora-image";
                    messages := [{| role := "user";
                                    content := ContentParts parts |}];
                    stream := None |} in
  let a := GH.enter {| loadBalancer := pool [] 0 CM.new; db := DB.new;
                       clock := 0 |} [] in
  messages request = [] ++ [{| role := "user";
                              content := ContentParts parts |}] /\
  GH.parseRequest request a =
  Run (Resolved {| prompt := "a cat";
                   imageData := Some "http://one"%string;
                   videoData := None |}) a [].
Proof.
  intros parts request a.
  assert (messages request = [] ++ [{| role := "user";
                                       content := ContentParts parts |}])
    as H1 by reflexivity.
  split; [exact H1|].
  exact (X19_parts_closed_form request a [] "user" parts H1).
Defined.

(** *** The API-key middleware *)

Section ApiKey.

Lemma split_on_nonempty sep s : split_on sep s <> [].
Proof.
  destruct s as [|c s]; [done|]. cbn.
  destruct (Ascii.eqb c sep); [done|]. by destruct (split_on sep s).
Qed.

Lemma join_with_cons sep piece piece' rest :
  join_with sep (piece :: piece' :: rest)
  = piece +:+ String sep (join_with sep (piece' :: rest)).
Proof. reflexivity. Qed.

(** Splitting and joining on the same separator gives the string back. *)
Lemma join_split_on sep s : join_with sep (split_on sep s) = s.
Proof.
  induction s as [|c s IH]; [done|]. cbn [split_on].
  pose proof (split_on_nonempty sep s) as Hne.
  destruct (split_on sep s) as [|piece rest]; [done|].
  destruct (Ascii.eqb c sep) eqn:Hc.
  - apply Ascii.eqb_eq in Hc as ->.
    rewrite join_with_cons, IH. reflexivity.
  - destruct rest as [|piece' rest].
    + cbn [join_with] in *. by rewrite IH.
    + rewrite join_with_cons in *. rewrite <-IH. reflexivity.
Qed.

End ApiKey.

(** X20: the API-key middleware lets a request through exactly when its
    Authorization header is the string "Bearer han1234": any other header
    (also one with extra spaces, or another scheme or key) and a missing or
    empty header are answered with 401. *)
Theorem X20_api_key_header_exact (authHeader : option string) :
  verifyApiKeyHeader authHeader = Next_ <->
  authHeader = Some "Bearer han1234"%string.
Proof.
  split; [|by intros ->].
  unfold verifyApiKeyHeader. destruct authHeader as [s|]; [|done].
  destruct (GH.truthy (Some s)); cbn [negb]; [|done].
  change (default ""%string (Some s)) with s. cbv zeta.
  pose proof (join_split_on " " s) as Hjoin.
  destruct (split_on " " s) as [|p0 [|p1 [|p2 rest]]]; cbn; try done.
  destruct (String.eqb p0 "Bearer") eqn:H0; cbn; [|done].
  destruct (String.eqb p1 "han1234") eqn:H1; cbn; [|done].
  apply String.eqb_eq in H0, H1. subst p0 p1. intros _.
  by rewrite <-Hjoin.
Qed.

(** *** The proxy pool *)

(** X21: [hasProxy] answers true exactly when [getNextProxy] returns a
    proxy, for any cursor value; and the proxy returned is then one of the
    list and enabled. *)
Theorem X21_has_proxy_iff_next_proxy (pm : ProxyManager) :
  (value PM.hasProxy pm = Some true <->
   exists p, value PM.getNextProxy pm = Some (Some p)) /\
  (forall p, value PM.getNextProxy pm = Some (Some p) ->
     p ∈ proxies pm /\ proxy_enabled p = true).
Proof.
  assert (forall p, value PM.getNextProxy pm = Some (Some p) ->
            p ∈ PM.enabledProxies pm) as Hin.
  { intros p. unfold value, PM.getNextProxy, bind, gets, modify, ret.
    cbn. case_bool_decide; cbn; [done|].
    intros [= Hp]. by apply list_elem_of_lookup_2 in Hp. }
  split; [split|].
  - unfold value, PM.hasProxy, gets. cbn. intros [= Hex].
    apply existsb_exists in Hex as (p & Hp & Hen).
    assert (p ∈ PM.enabledProxies pm) as Hpe.
    { apply list_elem_of_filter. split; [done|]. by apply list_elem_of_In. }
    unfold PM.getNextProxy, bind, gets, modify, ret. cbn.
    assert (0 < length (PM.enabledProxies pm))%nat as Hlen.
    { destruct (PM.enabledProxies pm); [by apply elem_of_nil in Hpe|].
      simpl. lia. }
    rewrite bool_decide_eq_false_2 by lia. cbn.
    destruct (lookup_lt_is_Some_2 (PM.enabledProxies pm)
                (proxyIndex pm mod length (PM.enabledProxies pm))%nat)
      as [q Hq]; [by apply Nat.mod_upper_bound; lia|].
    exists q. by rewrite Hq.
  - intros [p Hp]. apply Hin, list_elem_of_filter in Hp as [Hen Hp].
    unfold value, PM.hasProxy, gets. cbn. f_equal.
    apply existsb_exists. exists p. split; [by apply list_elem_of_In|done].
  - intros p Hp. apply Hin, list_elem_of_filter in Hp as [Hen Hp]. done.
Qed.

Lemma X21_has_proxy_iff_next_proxy_witness :
  let p := {| proxy_id := 2; proxy_enabled := true; proxy_type := socks5;
              proxy_host := "10.0.0.2"; proxy_port := 1080;
              username := None; password := None |} in
  let pm := {| proxies := [{| proxy_id := 1; proxy_enabled := false;
                              proxy_type := http; proxy_host := "10.0.0.1";
                              proxy_port := 8080; username := None;
                              password := None |}; p];
               proxyIndex := 5 |} in
  value PM.getNextProxy pm = Some (Some p) /\
  value PM.hasProxy pm = Some true /\
  p ∈ proxies pm /\ proxy_enabled p = true.
Proof.
  intros p pm.
  assert (value PM.getNextProxy pm = Some (Some p)) as H1
    by (vm_compute; reflexivity).
  split; [exact H1|]. split.
  - exact (proj2 (proj1 (X21_has_proxy_iff_next_proxy pm))
             (ex_intro _ p H1)).
  - exact (proj2 (X21_has_proxy_iff_next_proxy pm) p H1).
Defined.

(** *** The non-streaming answer *)

Section Collected.

Lemma concat_empty_cons (x : string) (xs : list string) :
  String.concat "" (x :: xs) = x +:+ String.concat "" xs.
Proof.
  destruct xs as [|y ys]; [|reflexivity].
  cbn [String.concat]. by rewrite string_app_nil_r.
Qed.

(** The loop of the route appends: skipping an empty content is appending
    it. *)
Lemma collect_appends (finalContent : string) (c : ChatCompletionResponse) :
  Routes.collect finalContent c = finalContent +:+ delta_content c.
Proof.
  unfold Routes.collect, GH.truthy.
  destruct (String.eqb (delta_content c) "") eqn:He; cbn [negb]; [|done].
  apply String.eqb_eq in He. by rewrite He, string_app_nil_r.
Qed.

Lemma foldl_collect (finalContent : string)
    (chunks : list ChatCompletionResponse) :
  foldl Routes.collect finalContent chunks
  = finalContent +:+ String.concat "" (delta_content <$> chunks).
Proof.
  revert finalContent. induction chunks as [|c chunks IH]; intros acc.
  - cbn. by rewrite string_app_nil_r.
  - cbn [foldl]. rewrite fmap_cons, concat_empty_cons, IH, collect_appends.
    by rewrite string_app_assoc.
Qed.

End Collected.

(** X22: the non-streaming route never answers 500 for anything the
    handler does.  Whatever the request, the pool and the upstream do, it
    answers 200 with a "chat.completion" for the requested model, by the
    assistant, with finish reason "stop", whose content is the contents of
    the chunks, first to last, put one after the other: failures reach the
    caller as the text of a normal completion. *)
Theorem X22_non_streaming_always_200
    (env : RequestEnv) (request : ChatCompletionRequest) (requestId : string)
    (h : GenerationHandler) :
  let r := GH.handleChatCompletion env request requestId (GH.enter h []) in
  exists body,
    fst (Routes.chatCompletions_nonStreaming env request requestId h)
      = Status200 body /\
    completion_object body = "chat.completion"%string /\
    completion_model body = model request /\
    message_role body = "assistant"%string /\
    completion_finish_reason body = "stop"%string /\
    message_content body
      = String.concat "" (delta_content <$> yielded (final r)).
Proof.
  intros r.
  destruct (body_terminal env request requestId h)
    as (a2 & out & first & last & Hbody & Hy & Hlast & _ & _).
  destruct (handle_after_body env request requestId h [] _ _ _ Hbody)
    as (Hres & Hy' & _).
  fold r in Hres, Hy'.
  unfold Routes.chatCompletions_nonStreaming. fold r. cbn [fst].
  rewrite Hres, Hy', Hy, last_snoc, Hlast. cbn [GH.truthy String.eqb negb].
  eexists. split; [reflexivity|].
  cbn [completion_object completion_model message_role
       completion_finish_reason message_content default].
  rewrite foldl_collect. repeat split; reflexivity.
Qed.

(** X23: when no credential can be admitted, the non-streaming route
    answers 200 with the content "❌ Error: No available tokens" under the
    request id, and leaves no task behind. *)
Theorem X23_non_streaming_no_capacity
    (env : RequestEnv) (request : ChatCompletionRequest) (requestId : string)
    (h : GenerationHandler) :
  handed (loadBalancer h) = None ->
  exists body,
    Routes.chatCompletions_nonStreaming env request requestId h
      = (Status200 body,
         self (final (GH.handleChatCompletion env request requestId
                        (GH.enter h [])))) /\
    completion_id body = requestId /\
    message_content body = "❌ Error: No available tokens"%string /\
    completion_finish_reason body = "stop"%string /\
    tasks (db (snd (Routes.chatCompletions_nonStreaming env request
                      requestId h))) = tasks (db h).
Proof.
  intros Hh.
  destruct (body_no_capacity env request requestId h [] Hh)
    as (res & out & Hbody).
  assert (res = Resolved tt) as ->.
  { destruct (body_terminal env request requestId h)
      as (a2 & out' & _ & _ & Hbody' & _). congruence. }
  destruct (handle_after_body env request requestId h [] _ _ _ Hbody)
    as (Hres & Hy' & Ht' & _).
  unfold Routes.chatCompletions_nonStreaming. cbn [snd].
  rewrite Hres, Hy', Ht'. cbn.
  eexists. split; [reflexivity|]. cbn. repeat split; reflexivity.
Qed.

Lemma X23_non_streaming_no_capacity_witness :
  let h := {| loadBalancer := pool [] 0 CM.new; db := DB.new;
              clock := 5000 |} in
  let env := {| uuid := "task-1"; soraClient := fun _ => inr "u"%string;
                latency := 1000; stringified_length := 42 |} in
  let request := {| model := "sora-image";
                    messages := [{| role := "user";
                                    content := ContentString "a cat" |}];
                    stream := Some false |} in
  handed (loadBalancer h) = None /\
  exists body,
    Routes.chatCompletions_nonStreaming env request "req_1" h
      = (Status200 body,
         self (final (GH.handleChatCompletion env request "req_1"
                        (GH.enter h [])))) /\
    completion_id body = "req_1"%string /\
    message_content body = "❌ Error: No available tokens"%string /\
    completion_finish_reason body = "stop"%string /\
    tasks (db (snd (Routes.chatCompletions_nonStreaming env request
                      "req_1" h))) = tasks (db h).
Proof.
  intros h env request.
  assert (handed (loadBalancer h) = None) as H1 by (vm_compute; reflexivity).
  split; [exact H1|].
  exact (X23_non_streaming_no_capacity env request "req_1" h H1).
Defined.

(** *** The ledger after start-up *)

Section Startup.

Lemma filter_all {A} (P : A -> Prop) `{!forall x, Decision (P x)} (l : list A) :
  Forall P l -> filter P l = l.
Proof.
  induction 1 as [|x l Hx _ IH]; [done|].
  by rewrite filter_cons_True, IH.
Qed.

Lemma filter_none {A} (P : A -> Prop) `{!forall x, Decision (P x)} (l : list A) :
  Forall (fun x => ~ P x) l -> filter P l = [].
Proof.
  induction 1 as [|x l Hx _ IH]; [done|].
  by rewrite filter_cons_False.
Qed.

(** The rows of the ledger that [initialize] builds: one per distinct
    secret, each at zero with the budget of the moment. *)
Lemma initialize_rows maxc toks :
  map_to_list (foldl (CM.initialize_entry maxc) ∅ toks)
  ≡ₚ (fun k => (k, {| current := 0; max := maxc |}))
       <$> remove_dups (token <$> toks).
Proof.
  apply NoDup_Permutation.
  - apply NoDup_map_to_list.
  - apply NoDup_fmap_2; [by intros ?? [=]|apply NoDup_remove_dups].
  - intros [k u]. split.
    + intros Hk. apply elem_of_map_to_list in Hk.
      rewrite initialize_fold_lookup in Hk.
      case_bool_decide as Hin; [|by rewrite lookup_empty in Hk].
      injection Hk as <-. apply list_elem_of_fmap. exists k.
      split; [done|]. by apply elem_of_remove_dups.
    + intros Hk. apply list_elem_of_fmap in Hk as (k' & [= -> ->] & Hk).
      apply (proj1 (elem_of_remove_dups _ _)) in Hk.
      apply elem_of_map_to_list. rewrite initialize_fold_lookup.
      by rewrite bool_decide_eq_true_2.
Qed.

End Startup.

(** X24: right after [initialize], the number of available credentials
    that the statistics report is the number of distinct secrets among
    the tokens given, enabled or not, when the budget is positive, and
    zero when it is not: the count is over ledger rows, so two tokens
    with one secret count once and a disabled token counts too. *)
Theorem X24_available_after_initialize
    (toks : list Token) (cm : ConcurrencyManager) :
  value CM.getAvailableTokensCount (exec (CM.initialize toks) cm)
  = Some (if bool_decide (0 < maxConcurrentPerToken cm)
          then length (remove_dups (token <$> toks))
          else 0%nat).
Proof.
  unfold exec. rewrite initialize_run. cbn [final].
  unfold value, CM.getAvailableTokensCount, gets. cbn [result].
  unfold CM.set_usage. cbn [tokenUsage]. f_equal.
  pose proof (initialize_rows (maxConcurrentPerToken cm) toks) as Hrows.
  assert (Forall (fun kv : string * TokenUsage =>
                    kv.2 = {| current := 0; max := maxConcurrentPerToken cm |})
                 (map_to_list (foldl (CM.initialize_entry
                                        (maxConcurrentPerToken cm)) ∅ toks)))
    as Hall.
  { apply Forall_forall. intros kv Hkv. rewrite Hrows in Hkv.
    by apply list_elem_of_fmap in Hkv as (k & -> & _). }
  case_bool_decide as HB.
  - rewrite filter_all.
    + by rewrite (Permutation_length Hrows), length_fmap.
    + eapply Forall_impl; [exact Hall|]. intros [k u] ->. exact HB.
  - rewrite filter_none; [done|].
    eapply Forall_impl; [exact Hall|]. intros [k u] ->. exact HB.
Qed.

(** *** Names the catalogue inherits *)

Section Inherited.


End Inherited.


